(** * aeon_fix: action extraction, safety classification, command execution,
      log clustering and the interactive execution loop

    A shallow embedding of the parts of [src/aeon_fix.py] that decide the
    behaviour of

    - [is_dangerous_command]               (lines 834-860),
    - [run_command]                        (lines 863-1070),
    - [find_time_clusters]                 (lines 750-806),
    - [extract_commands_from_llm_response] (lines 2197-2301, the definition
      that is live at run time: it rebinds the name defined at line 1409),
    - the [while] loop of [handle_llm_response] (lines 1583-1858).

    Python [str] values are lists of code points.  The model covers the code
    points 0..255, one [ascii] each; on that range [str.lower], [str.isspace]
    and the regular expression classes are written out as CPython has them. *)

From Stdlib Require Import List Ascii String ZArith Bool Lia Arith.
From Stdlib Require Import Sorting.Permutation Sorting.Sorted.
Import ListNotations.

Set Implicit Arguments.

(* ====================================================================== *)
(** * Python strings *)
(* ====================================================================== *)

Module Py.

Definition str := list ascii.

(** String literal of the source. *)
Definition lit (s : string) : str := list_ascii_of_string s.

Definition code (c : ascii) : N := N_of_ascii c.

Definition in_range (lo hi : N) (c : ascii) : bool :=
  (N.leb lo (code c) && N.leb (code c) hi)%bool.

Definition eqc (a b : ascii) : bool := Ascii.eqb a b.

Fixpoint eqs (a b : str) : bool :=
  match a, b with
  | [], [] => true
  | x :: a', y :: b' => eqc x y && eqs a' b'
  | _, _ => false
  end.

(** [str.isspace] on one code point, which is also the class [\s] of [re]
    for [str] patterns: TAB LF VT FF CR, FS GS RS US, SPACE, NEL, NBSP. *)
Definition isspace (c : ascii) : bool :=
  in_range 9 13 c || in_range 28 32 c
  || N.eqb (code c) 133 || N.eqb (code c) 160.

(** [str.lower] on one code point: A-Z, and the Latin-1 capitals
    U+00C0..U+00DE without the multiplication sign U+00D7. *)
Definition lower_char (c : ascii) : ascii :=
  if in_range 65 90 c
     || (in_range 192 222 c && negb (N.eqb (code c) 215))
  then ascii_of_N (code c + 32)
  else c.

Definition lower (s : str) : str := map lower_char s.

(** [s.startswith(p)]. *)
Fixpoint startswith (p s : str) : bool :=
  match p, s with
  | [], _ => true
  | _ :: _, [] => false
  | x :: p', y :: s' => eqc x y && startswith p' s'
  end.

(** [needle in hay] for strings. *)
Fixpoint contains (needle hay : str) : bool :=
  startswith needle hay
  || match hay with
     | [] => false
     | _ :: hay' => contains needle hay'
     end.

(** [s.endswith(p)]. *)
Definition endswith (p s : str) : bool := startswith (rev p) (rev s).

(** [x in l] for a list of strings. *)
Definition mem (x : str) (l : list str) : bool := existsb (eqs x) l.

Fixpoint lstrip (s : str) : str :=
  match s with
  | c :: s' => if isspace c then lstrip s' else s
  | [] => []
  end.

Definition rstrip (s : str) : str := rev (lstrip (rev s)).

(** [s.strip()]. *)
Definition strip (s : str) : str := rstrip (lstrip s).

(** Some code point of [s] is not whitespace. *)
Definition has_visible (s : str) : Prop :=
  exists c, In c s /\ isspace c = false.

(** [s.split()]: the maximal runs of non-whitespace code points.
    [cur] is the run being read, reversed. *)
Fixpoint split_aux (cur : str) (s : str) : list str :=
  match s with
  | [] => match cur with [] => [] | _ => [rev cur] end
  | c :: s' =>
      if isspace c
      then match cur with
           | [] => split_aux [] s'
           | _ => rev cur :: split_aux [] s'
           end
      else split_aux (c :: cur) s'
  end.

Definition split (s : str) : list str := split_aux [] s.

(** [sep.join(l)]. *)
Fixpoint join (sep : str) (l : list str) : str :=
  match l with
  | [] => []
  | [x] => x
  | x :: l' => x ++ sep ++ join sep l'
  end.

(** [s[a:b]] for [0 <= a]. *)
Definition slice (a b : nat) (s : str) : str := firstn (b - a) (skipn a s).

(** [s.split(sep)] for a separator of one code point: the pieces between
    its occurrences, never an empty list.  [cur] is the piece being read,
    reversed. *)
Fixpoint split_on_aux (sep : ascii) (cur : str) (s : str) : list str :=
  match s with
  | [] => [rev cur]
  | c :: s' =>
      if eqc c sep then rev cur :: split_on_aux sep [] s'
      else split_on_aux sep (c :: cur) s'
  end.

Definition split_on (sep : ascii) (s : str) : list str :=
  split_on_aux sep [] s.

Definition hex_digit (n : N) : ascii :=
  if N.ltb n 10 then ascii_of_N (48 + n) else ascii_of_N (87 + n).

(** The escape [\xhh] of [repr]. *)
Definition hex_escape (c : ascii) : str :=
  [ascii_of_N 92; "x"%char; hex_digit (N.div (code c) 16);
   hex_digit (N.modulo (code c) 16)].

(** The quote [repr] puts around [s]: the double quote when [s] has a
    single quote and no double quote, the single quote otherwise. *)
Definition repr_quote (s : str) : ascii :=
  if existsb (eqc "'"%char) s && negb (existsb (eqc (ascii_of_N 34)) s)
  then ascii_of_N 34 else "'"%char.

(** One code point inside [repr]; [high_plain] says which code points
    from 128 on are written as they are. *)
Definition repr_char (quote : ascii) (high_plain : ascii -> bool)
           (c : ascii) : str :=
  if eqc c quote || N.eqb (code c) 92 then [ascii_of_N 92; c]
  else if N.eqb (code c) 9 then [ascii_of_N 92; "t"%char]
  else if N.eqb (code c) 10 then [ascii_of_N 92; "n"%char]
  else if N.eqb (code c) 13 then [ascii_of_N 92; "r"%char]
  else if N.ltb (code c) 32 || N.eqb (code c) 127 then hex_escape c
  else if N.ltb (code c) 127 then [c]
  else if high_plain c then [c]
  else hex_escape c.

(** [str.isprintable] on the code points from 128 on: all but the
    controls U+0080..U+009F, the no-break space and the soft hyphen. *)
Definition printable_high (c : ascii) : bool :=
  N.ltb 160 (code c) && negb (N.eqb (code c) 173).

(** [repr(s)] for a string. *)
Definition repr_str (s : str) : str :=
  let q := repr_quote s in
  q :: flat_map (repr_char q printable_high) s ++ [q].

(** [repr(b)] for a [bytes] object, given as its bytes. *)
Definition repr_bytes (b : str) : str :=
  let q := repr_quote b in
  "b"%char :: q :: flat_map (repr_char q (fun _ => false)) b ++ [q].

(** [repr(l)] for a list of strings. *)
Definition repr_list (l : list str) : str :=
  lit "[" ++ join (lit ", ") (map repr_str l) ++ lit "]".

End Py.

Import Py.

(* ====================================================================== *)
(** * CONFIG (lines 36-49) *)
(* ====================================================================== *)

Module Config.

Definition dangerous_commands : list str :=
  map lit [ "rm -rf"; "deltree"; "format"; "dd if="; "mkfs";
            "del /"; "rd /s"; "rmdir /s"; ":(){:|:&};:" ]%string.

Definition safe_diagnostic_commands : list str :=
  map lit [ "wmic"; "systeminfo"; "ipconfig"; "netstat"; "tasklist";
            "sfc"; "dism"; "chkdsk"; "dir"; "powercfg"; "msinfo32";
            "driverquery"; "where"; "regsvr32"; "mdsched.exe" ]%string.

End Config.

(* ====================================================================== *)
(** * is_dangerous_command (lines 834-860) *)
(* ====================================================================== *)

Module Safety.

(** The four [return] statements of the function. *)
Inductive return_site : Type :=
| Ret_denylist        (* line 843: return True  *)
| Ret_chkdsk_plain    (* line 852: return False *)
| Ret_allowlisted     (* line 854: return False *)
| Ret_default.        (* line 860: return False *)

Definition value_returned (r : return_site) : bool :=
  match r with
  | Ret_denylist => true
  | Ret_chkdsk_plain | Ret_allowlisted | Ret_default => false
  end.

(** The body of [is_dangerous_command], keeping which [return] is taken.
    [None]: [cmd_lower.split()[0]] raises IndexError (no token). *)
Definition is_dangerous_command_site (cmd_str : str) : option return_site :=
  let cmd_lower := lower cmd_str in
  if existsb (fun danger_cmd => contains danger_cmd cmd_lower)
             Config.dangerous_commands
  then Some Ret_denylist
  else
    match split cmd_lower with
    | [] => None
    | first_word :: _ =>
        if mem first_word Config.safe_diagnostic_commands then
          if eqs first_word (lit "chkdsk")
             && negb (contains (lit "/f") cmd_lower)
             && negb (contains (lit "/r") cmd_lower)
          then Some Ret_chkdsk_plain
          else if negb (eqs first_word (lit "chkdsk"))
          then Some Ret_allowlisted
          else Some Ret_default
        else Some Ret_default
    end.

Definition is_dangerous_command (cmd_str : str) : option bool :=
  option_map value_returned (is_dangerous_command_site cmd_str).

(** "[frag] occurs in [cmd], case-insensitively". *)
Definition occurs_ci (frag cmd : str) : Prop :=
  exists pre mid post, cmd = pre ++ mid ++ post /\ lower mid = frag.

(** No fragment of the denylist occurs in the lowered text. *)
Definition no_denylist_hit (cmd_str : str) : bool :=
  negb (existsb (fun d => contains d (lower cmd_str))
                Config.dangerous_commands).

(** The first whitespace token of the lowered text. *)
Definition first_token (cmd_str : str) : option str :=
  hd_error (split (lower cmd_str)).

(** A repair flag of the disk check occurs in the lowered text. *)
Definition has_repair_flag (cmd : str) : bool :=
  contains (lit "/f") (lower cmd) || contains (lit "/r") (lower cmd).

End Safety.

(* ====================================================================== *)
(** * The two regular expressions of the extractor, and [re.finditer] *)
(* ====================================================================== *)

Module Re.

(** A match object: [m.span()] and [m.group(1)]. *)
Record rematch : Type := MkMatch {
  m_start : nat;
  m_end : nat;
  m_group1 : str
}.

(** A literal, case-sensitively; the rest of the subject behind it. *)
Fixpoint literal (p s : str) : option str :=
  match p, s with
  | [], _ => Some s
  | _ :: _, [] => None
  | x :: p', y :: s' => if eqc x y then literal p' s' else None
  end.

(** A literal under [re.IGNORECASE]; the text it matched, reversed and put
    in front of [g], and the rest of the subject. *)
Fixpoint literal_ci (p : str) (g : str) (s : str) : option (str * str) :=
  match p, s with
  | [], _ => Some (g, s)
  | _ :: _, [] => None
  | x :: p', y :: s' =>
      if eqc (lower_char x) (lower_char y)
      then literal_ci p' (y :: g) s'
      else None
  end.

(** Greedy [\s*] followed by [k]: the longest run first, then shorter ones. *)
Fixpoint ws_star (A : Type) (k : str -> option A) (s : str) : option A :=
  match s with
  | c :: s' =>
      if isspace c
      then match ws_star k s' with
           | Some r => Some r
           | None => k s
           end
      else k s
  | [] => k []
  end.

Definition newline : ascii := ascii_of_N 10.

(** Lazy [(.*?)] followed by [k]: the shortest group first; [.] is any code
    point but LF.  [g] is the group read so far, reversed. *)
Fixpoint dot_lazy (A : Type) (k : str -> str -> option A) (g : str) (s : str)
  : option A :=
  match k (rev g) s with
  | Some r => Some r
  | None =>
      match s with
      | c :: s' => if eqc c newline then None else dot_lazy k (c :: g) s'
      | [] => None
      end
  end.

(** [command_pattern = r"\[\[\*\*\*\s*(.*?)\s*\*\*\*\]\]"] tried at the
    head of [s]: group 1 and the rest of the subject behind the match. *)
Definition match_command (s : str) : option (str * str) :=
  match literal (lit "[[***") s with
  | None => None
  | Some s1 =>
      ws_star
        (dot_lazy
           (fun g s2 =>
              ws_star
                (fun s3 =>
                   match literal (lit "***]]") s3 with
                   | Some rest => Some (g, rest)
                   | None => None
                   end) s2)
           []) s1
  end.

(** The class [[^\s\]]]. *)
Definition url_char (c : ascii) : bool :=
  negb (isspace c) && negb (eqc c "]"%char).

(** Greedy [[^\s\]]+] followed by [k]: the longest run first. *)
Fixpoint url_plus (A : Type) (k : str -> str -> option A) (g : str) (s : str)
  : option A :=
  match s with
  | c :: s' =>
      if url_char c
      then match url_plus k (c :: g) s' with
           | Some r => Some r
           | None => k (c :: g) s'
           end
      else None
  | [] => None
  end.

(** What follows the scheme: [://[^\s\]]+)\s*\]\]]. *)
Definition url_tail (g : str) (s : str) : option (str * str) :=
  match literal (lit "://") s with
  | None => None
  | Some s1 =>
      url_plus
        (fun g' s2 =>
           ws_star
             (fun s3 =>
                match literal (lit "]]") s3 with
                | Some rest => Some (rev g', rest)
                | None => None
                end) s2)
        (rev (lit "://") ++ g) s1
  end.

(** [url_pattern = r"\[\[URL:\s*(https?://[^\s\]]+)\s*\]\]"] under
    [re.IGNORECASE], tried at the head of [s]. *)
Definition match_url (s : str) : option (str * str) :=
  match literal_ci (lit "[[URL:") [] s with
  | None => None
  | Some (_, s1) =>
      ws_star
        (fun s2 =>
           match literal_ci (lit "http") [] s2 with
           | None => None
           | Some (g, s3) =>
               (* [s?] is greedy: with the [s] first, then without *)
               match
                 match literal_ci (lit "s") g s3 with
                 | Some (g', s4) => url_tail g' s4
                 | None => None
                 end
               with
               | Some r => Some r
               | None => url_tail g s3
               end
           end) s1
  end.

(** [re.finditer(pattern, text)]: left to right, no two matches overlap.
    [pos] is the index of the head of [s]; [skip] code points are still
    inside the previous match. *)
Fixpoint finditer_from (m : str -> option (str * str)) (pos skip : nat)
         (s : str) : list rematch :=
  match s with
  | [] => []
  | _ :: s' =>
      match skip with
      | S k => finditer_from m (S pos) k s'
      | O =>
          match m s with
          | Some (g, rest) =>
              let len := List.length s - List.length rest in
              MkMatch pos (pos + len) g :: finditer_from m (S pos) (len - 1) s'
          | None => finditer_from m (S pos) 0 s'
          end
      end
  end.

Definition finditer (m : str -> option (str * str)) (text : str)
  : list rematch :=
  finditer_from m 0 0 text.

(** The group of the result [r] has a visible code point. *)
Definition visible_group (r : str * str) : Prop := has_visible (fst r).

(** The rest behind a match has at most [n] code points. *)
Definition leaves (r : str * str) (n : nat) : Prop :=
  List.length (snd r) <= n.

(** [re.split(r'[.!?]\s+', s)].  [skipping]: inside the [\s+] of a
    separator; [cur] is the piece being read, reversed. *)
Definition is_terminator (c : ascii) : bool :=
  eqc c "."%char || eqc c "!"%char || eqc c "?"%char.

Definition next_isspace (s : str) : bool :=
  match s with
  | d :: _ => isspace d
  | [] => false
  end.

Fixpoint split_sentences_aux (skipping : bool) (cur : str) (s : str)
  : list str :=
  match s with
  | [] => [rev cur]
  | c :: s' =>
      if skipping && isspace c then split_sentences_aux true cur s'
      else if is_terminator c && next_isspace s'
      then rev cur :: split_sentences_aux true [] s'
      else split_sentences_aux false (c :: cur) s'
  end.

Definition split_sentences (s : str) : list str :=
  split_sentences_aux false [] s.

End Re.

(* ====================================================================== *)
(** * shlex.split and shlex.quote *)
(* ====================================================================== *)

Module Shlex.

(** The states of [shlex.read_token] in POSIX mode with
    [whitespace_split = True] and no commenters: [' '], ['a'], a quote
    character, and the escape state with its [escapedstate]. *)
Inductive lstate : Type :=
| LWs
| LWord
| LQuote (q : ascii)
| LEsc (back : option ascii).

Definition is_ws (c : ascii) : bool :=
  eqc c " "%char || N.eqb (code c) 9 || N.eqb (code c) 13 || N.eqb (code c) 10.

Definition is_quote (c : ascii) : bool :=
  eqc c "'"%char || N.eqb (code c) 34.

Definition dquote : ascii := ascii_of_N 34.
Definition backslash : ascii := ascii_of_N 92.

Definition is_escape (c : ascii) : bool := eqc c backslash.

Definition nonempty (s : str) : bool :=
  match s with [] => false | _ => true end.

(** All tokens of [s]; [None] where [shlex] raises ValueError.  [tok] is the
    token being read, reversed; [quoted] is the local flag of [read_token]. *)
Fixpoint tokens (st : lstate) (tok : str) (quoted : bool) (s : str)
  : option (list str) :=
  match s with
  | [] =>
      match st with
      | LQuote _ => None            (* No closing quotation *)
      | LEsc _ => None              (* No escaped character *)
      | LWs | LWord =>
          if nonempty tok || quoted then Some [rev tok] else Some []
      end
  | c :: s' =>
      match st with
      | LWs =>
          if is_ws c then
            if nonempty tok || quoted
            then option_map (cons (rev tok)) (tokens LWs [] false s')
            else tokens LWs tok quoted s'
          else if is_escape c then tokens (LEsc None) tok quoted s'
          else if is_quote c then tokens (LQuote c) tok quoted s'
          else tokens LWord [c] quoted s'
      | LWord =>
          if is_ws c then
            if nonempty tok || quoted
            then option_map (cons (rev tok)) (tokens LWs [] false s')
            else tokens LWs tok quoted s'
          else if is_quote c then tokens (LQuote c) tok quoted s'
          else if is_escape c then tokens (LEsc None) tok quoted s'
          else tokens LWord (c :: tok) quoted s'
      | LQuote q =>
          if eqc c q then tokens LWord tok true s'
          else if is_escape c && eqc q dquote
          then tokens (LEsc (Some q)) tok true s'
          else tokens (LQuote q) (c :: tok) true s'
      | LEsc None => tokens LWord (c :: tok) quoted s'
      | LEsc (Some q) =>
          if negb (eqc c backslash) && negb (eqc c q)
          then tokens (LQuote q) (c :: backslash :: tok) quoted s'
          else tokens (LQuote q) (c :: tok) quoted s'
      end
  end.

(** [shlex.split(s)]. *)
Definition shlex_split (s : str) : option (list str) := tokens LWs [] false s.

(** The characters [shlex.quote] leaves bare: [[\w@%+=:,./-]] under
    [re.ASCII]. *)
Definition is_safe_char (c : ascii) : bool :=
  in_range 97 122 c || in_range 65 90 c || in_range 48 57 c
  || existsb (eqc c) (lit "_@%+=:,./-").

Definition squote : ascii := "'"%char.

(** [shlex.quote(s)]. *)
Definition quote (s : str) : str :=
  match s with
  | [] => [squote; squote]
  | _ =>
      if forallb is_safe_char s then s
      else
        squote ::
        flat_map (fun c => if eqc c squote
                           then [squote; dquote; squote; dquote; squote]
                           else [c]) s
        ++ [squote]
  end.

End Shlex.

(* ====================================================================== *)
(** * list.sort / sorted: a stable sort *)
(* ====================================================================== *)

Module PySort.

Section Stable.
Variable A : Type.
(** [before x y]: [x] may stand in front of [y]. *)
Variable before : A -> A -> bool.

(** Put [x], which stood in front of all of [l], in front of the first
    element it may stand in front of. *)
Fixpoint insert (x : A) (l : list A) : list A :=
  match l with
  | [] => [x]
  | y :: l' => if before x y then x :: l else y :: insert x l'
  end.

Definition sort (l : list A) : list A := fold_right insert [] l.

(** [x] may stand in front of [y]. *)
Definition in_order (x y : A) : Prop := before x y = true.
End Stable.

(** [l.sort(key=key)] and [sorted(l, key=key)]. *)
Definition sort_by_key (A : Type) (key : A -> Z) (l : list A) : list A :=
  sort (fun x y => Z.leb (key x) (key y)) l.

(** [sorted(l, key=key, reverse=True)]: descending, equal keys keep their
    order. *)
Definition sort_by_key_reverse (A : Type) (key : A -> Z) (l : list A)
  : list A :=
  sort (fun x y => Z.leb (key y) (key x)) l.

End PySort.

(* ====================================================================== *)
(** * extract_commands_from_llm_response (lines 2197-2301) *)
(* ====================================================================== *)

Module Extract.

Inductive item_type : Type :=
| T_command
| T_url
| T_invalid_command
| T_error.

Definition item_type_eqb (a b : item_type) : bool :=
  match a, b with
  | T_command, T_command | T_url, T_url
  | T_invalid_command, T_invalid_command | T_error, T_error => true
  | _, _ => false
  end.

(** The dictionary appended to [items]. *)
Record item : Type := MkItem {
  type_ : item_type;
  value : str;
  context : str;
  original_match_position : nat
}.

(** Lines 2221-2224 and 2254-2257, with the [context if context else ...]
    of the dictionary. *)
Definition context_before (response : str) (start_pos : nat) : str :=
  let context_start := start_pos - 200 in
  let context_text := strip (slice context_start start_pos response) in
  let sentences := Re.split_sentences context_text in
  let context :=
    match sentences with
    | [] => context_text
    | _ => strip (last sentences [])
    end in
  match context with
  | [] => lit "No context found."
  | _ => context
  end.

(** The first loop: one item per URL match. *)
Definition url_item (response : str) (m : Re.rematch) : item :=
  MkItem T_url (strip (Re.m_group1 m))
         (context_before response (Re.m_start m)) (Re.m_start m).

(** [range(start_pos, end_pos)]. *)
Definition range (a b : nat) : list nat := seq a (b - a).

(** [processed_indices] after the first loop. *)
Definition processed_indices (url_matches : list Re.rematch) : list nat :=
  flat_map (fun m => range (Re.m_start m) (Re.m_end m)) url_matches.

Definition is_overlapped (processed : list nat) (m : Re.rematch) : bool :=
  existsb (fun i => existsb (Nat.eqb i) processed)
          (range (Re.m_start m) (Re.m_end m)).

Definition foreign_commands : list str :=
  map lit [ "which"; "sudo"; "apt"; "yum"; "dnf"; "apt-get" ]%string.

(** Lines 2261-2265. *)
Definition first_word_of (cmd_text : str) : str :=
  match Shlex.shlex_split cmd_text with
  | Some (w :: _) => lower w
  | _ =>
      match split cmd_text with
      | w :: _ => lower w
      | [] => []
      end
  end.

(** The body of the second loop: what one command match appends. *)
Definition command_item (windows : bool) (response : str)
           (processed : list nat) (m : Re.rematch) : list item :=
  if is_overlapped processed m then []              (* line 2247: continue *)
  else
    let cmd_text := strip (Re.m_group1 m) in
    match cmd_text with
    | [] => []                                      (* line 2251: continue *)
    | _ =>
        let ctx := context_before response (Re.m_start m) in
        let cmd_first_word := first_word_of cmd_text in
        let '(item_type, cmd_text') :=
          if windows && mem cmd_first_word foreign_commands
          then (T_invalid_command, cmd_text)
          else if contains (lit "memory diagnostic") (lower cmd_text)
                  || contains (lit "mdsched") (lower cmd_text)
          then (T_command, lit "mdsched.exe")
          else match cmd_text with
               | [] => (T_error, lit "[EMPTY COMMAND]")   (* line 2273 *)
               | _ => (T_command, cmd_text)
               end in
        [ MkItem item_type cmd_text' ctx (Re.m_start m) ]
    end.

Definition url_matches (response : str) : list Re.rematch :=
  Re.finditer Re.match_url response.

Definition command_matches (response : str) : list Re.rematch :=
  Re.finditer Re.match_command response.

(** [windows]: [platform.system() == "Windows"].  Every dictionary built
    above has its ["type"] key, so the loop of lines 2288-2295 changes
    nothing. *)
Definition extract_commands_from_llm_response (windows : bool)
           (response : str) : list item :=
  let url_ms := url_matches response in
  let processed := processed_indices url_ms in
  let items :=
    map (url_item response) url_ms
    ++ flat_map (command_item windows response processed)
                (command_matches response) in
  PySort.sort_by_key (fun x => Z.of_nat (original_match_position x)) items.

(** ** Spans *)

(** The index [i] lies in [range(m.start(), m.end())]. *)
Definition in_span (m : Re.rematch) (i : nat) : bool :=
  Nat.leb (Re.m_start m) i && Nat.ltb i (Re.m_end m).

(** The ranges of two matches have an index in common. *)
Definition spans_intersect (a b : Re.rematch) : Prop :=
  exists i, in_span a i = true /\ in_span b i = true.

(** The matches lie one behind the other from [from] on, none empty. *)
Fixpoint spaced (from : nat) (ms : list Re.rematch) : Prop :=
  match ms with
  | [] => True
  | m :: ms' =>
      from <= Re.m_start m /\ Re.m_start m < Re.m_end m
      /\ spaced (Re.m_end m) ms'
  end.

(** The items whose position lies in the span of [m]. *)
Definition items_in_span (m : Re.rematch) (items : list item) : list item :=
  filter (fun it => in_span m (original_match_position it)) items.

End Extract.

(* ====================================================================== *)
(** * datetime: strptime("%Y-%m-%d %H"), subtraction, strftime *)
(* ====================================================================== *)

Module Datetime.

Open Scope Z_scope.

(** A [datetime] with second and microsecond 0. *)
Record datetime : Type := MkDatetime {
  year : Z;
  month : Z;
  day : Z;
  hour : Z;
  minute : Z
}.

Definition is_leap (y : Z) : bool :=
  (y mod 4 =? 0) && (negb (y mod 100 =? 0) || (y mod 400 =? 0)).

Definition days_in_month (y m : Z) : Z :=
  if m =? 2 then (if is_leap y then 29 else 28)
  else if (m =? 4) || (m =? 6) || (m =? 9) || (m =? 11) then 30
  else 31.

(** [_days_before_year]. *)
Definition days_before_year (y : Z) : Z :=
  let y1 := y - 1 in
  y1 * 365 + y1 / 4 - y1 / 100 + y1 / 400.

(** [_days_before_month]. *)
Definition days_before_month (y m : Z) : Z :=
  fold_right Z.add 0
    (map (fun k => days_in_month y (Z.of_nat k)) (seq 1 (Z.to_nat (m - 1)))).

(** [date.toordinal()]. *)
Definition toordinal (d : datetime) : Z :=
  days_before_year (year d) + days_before_month (year d) (month d) + day d.

(** Minutes since the start of day 0 of the ordinal count: the order of
    datetimes and, by subtraction, their [timedelta]. *)
Definition minutes_of (d : datetime) : Z :=
  (toordinal d * 24 + hour d) * 60 + minute d.

(** The range check of the [datetime] constructor. *)
Definition valid (d : datetime) : bool :=
  (1 <=? year d) && (year d <=? 9999)
  && (1 <=? month d) && (month d <=? 12)
  && (1 <=? day d) && (day d <=? days_in_month (year d) (month d))
  && (0 <=? hour d) && (hour d <=? 23)
  && (0 <=? minute d) && (minute d <=? 59).

(** [timedelta(hours=h)] in minutes: [None] for OverflowError (more than
    999999999 days either way). *)
Definition timedelta_hours (h : Z) : option Z :=
  if (-999999999 <=? h / 24) && (h / 24 <=? 999999999)
  then Some (60 * h) else None.

(** ** Parsing: the regular expression [_strptime] builds for the format
    ["%Y-%m-%d %H"] is
    [(?P<Y>\d\d\d\d)-(?P<m>1[0-2]|0[1-9]|[1-9])-(?P<d>3[0-1]|[1-2]\d|0[1-9]|[1-9]| [1-9])\s+(?P<H>2[0-3]|[0-1]\d|\d)],
    matched at the start; text left behind the match is an error. *)

Definition digit (c : ascii) : option Z :=
  if in_range 48 57 c then Some (Z.of_N (code c) - 48) else None.

Definition digit_in (lo hi : Z) (c : ascii) : option Z :=
  match digit c with
  | Some v => if (lo <=? v) && (v <=? hi) then Some v else None
  | None => None
  end.

(** First alternative that lets the rest match. *)
Fixpoint first_of (A : Type) (alts : list (option A)) : option A :=
  match alts with
  | [] => None
  | Some r :: _ => Some r
  | None :: alts' => first_of alts'
  end.

(** Two code points: the first a digit in [a..b], the second in [c..d]. *)
Definition two (A : Type) (a b c d : Z) (k : Z -> str -> option A) (s : str)
  : option A :=
  match s with
  | x :: y :: s' =>
      match digit_in a b x, digit_in c d y with
      | Some u, Some v => k (10 * u + v) s'
      | _, _ => None
      end
  | _ => None
  end.

Definition one (A : Type) (a b : Z) (k : Z -> str -> option A) (s : str)
  : option A :=
  match s with
  | x :: s' =>
      match digit_in a b x with
      | Some u => k u s'
      | None => None
      end
  | _ => None
  end.

Definition dash (A : Type) (k : str -> option A) (s : str) : option A :=
  match s with
  | c :: s' => if eqc c "-"%char then k s' else None
  | [] => None
  end.

Definition parse_Y (A : Type) (k : Z -> str -> option A) (s : str)
  : option A :=
  match s with
  | a :: b :: c :: d :: s' =>
      match digit a, digit b, digit c, digit d with
      | Some a', Some b', Some c', Some d' =>
          k (1000 * a' + 100 * b' + 10 * c' + d') s'
      | _, _, _, _ => None
      end
  | _ => None
  end.

Definition parse_m (A : Type) (k : Z -> str -> option A) (s : str)
  : option A :=
  first_of [ two 1 1 0 2 k s; two 0 0 1 9 k s; one 1 9 k s ].

Definition parse_d (A : Type) (k : Z -> str -> option A) (s : str)
  : option A :=
  first_of [ two 3 3 0 1 k s; two 1 2 0 9 k s; two 0 0 1 9 k s; one 1 9 k s;
             match s with
             | c :: s' => if eqc c " "%char then one 1 9 k s' else None
             | [] => None
             end ].

Definition parse_H (A : Type) (k : Z -> str -> option A) (s : str)
  : option A :=
  first_of [ two 2 2 0 3 k s; two 0 1 0 9 k s; one 0 9 k s ].

(** [\s+], greedy. *)
Definition ws_plus (A : Type) (k : str -> option A) (s : str) : option A :=
  match s with
  | c :: s' => if isspace c then Re.ws_star k s' else None
  | [] => None
  end.

(** The match of the format's regular expression: the four fields and the
    text left behind the match. *)
Definition match_format (s : str) : option (datetime * str) :=
  parse_Y (fun y s1 =>
  dash (fun s2 =>
  parse_m (fun m s3 =>
  dash (fun s4 =>
  parse_d (fun d s5 =>
  ws_plus (fun s6 =>
  parse_H (fun h rest => Some (MkDatetime y m d h 0, rest))
          s6) s5) s4) s3) s2) s1) s.

(** [datetime.datetime.strptime(ts, "%Y-%m-%d %H")]; [None]: ValueError. *)
Definition strptime (ts : str) : option datetime :=
  match match_format ts with
  | Some (d, []) => if valid d then Some d else None
  | _ => None
  end.

(** ** Printing *)

Definition digit_char (v : Z) : ascii := ascii_of_N (Z.to_N (v mod 10) + 48).

Definition pad2 (v : Z) : str := [digit_char (v / 10); digit_char v].

(** [%Y] as the C library prints it: no padding. *)
Definition show_year (y : Z) : str :=
  (if 1000 <=? y then [digit_char (y / 1000)] else [])
  ++ (if 100 <=? y then [digit_char (y / 100)] else [])
  ++ (if 10 <=? y then [digit_char (y / 10)] else [])
  ++ [digit_char y].

(** [dt.strftime("%Y-%m-%d %H:%M")]. *)
Definition strftime (d : datetime) : str :=
  show_year (year d) ++ lit "-" ++ pad2 (month d) ++ lit "-" ++ pad2 (day d)
  ++ lit " " ++ pad2 (hour d) ++ lit ":" ++ pad2 (minute d).

End Datetime.

(* ====================================================================== *)
(** * find_time_clusters (lines 750-806) *)
(* ====================================================================== *)

Module Clusters.

Import Datetime.
Open Scope Z_scope.

(** An emitted cluster: the dictionary with keys start, end and count. *)
Record cluster : Type := MkCluster {
  c_start : str;
  c_end : str;
  c_count : Z
}.

(** [current_cluster]. *)
Record open_cluster : Type := MkOpen {
  start_dt : datetime;
  end_dt : datetime;
  count : Z
}.

Definition emit (c : open_cluster) : cluster :=
  MkCluster (strftime (start_dt c)) (strftime (end_dt c)) (count c).

(** Lines 757-766: the buckets whose key parses, in the order of the
    dictionary. *)
Fixpoint parse_buckets (timestamps : list (str * Z)) : list (datetime * Z) :=
  match timestamps with
  | [] => []
  | (ts_str, n) :: rest =>
      match strptime ts_str with
      | Some dt_obj => (dt_obj, n) :: parse_buckets rest
      | None => parse_buckets rest
      end
  end.

(** Lines 788-793 and 798-803. *)
Definition close (min_cluster_size : Z) (cur : open_cluster)
           (clusters : list cluster) : list cluster :=
  if min_cluster_size <=? count cur then clusters ++ [emit cur] else clusters.

(** The [for] loop of lines 775-795; [None] where [timedelta] overflows. *)
Fixpoint scan (min_cluster_size max_gap_hours : Z)
         (current : option open_cluster) (clusters : list cluster)
         (l : list (datetime * Z))
  : option (list cluster * option open_cluster) :=
  match l with
  | [] => Some (clusters, current)
  | (dt_obj, n) :: l' =>
      match current with
      | None =>
          scan min_cluster_size max_gap_hours
               (Some (MkOpen dt_obj dt_obj n)) clusters l'
      | Some cur =>
          let time_diff := minutes_of dt_obj - minutes_of (end_dt cur) in
          match timedelta_hours max_gap_hours with
          | None => None
          | Some limit =>
              if time_diff <=? limit
              then scan min_cluster_size max_gap_hours
                        (Some (MkOpen (start_dt cur) dt_obj (count cur + n)))
                        clusters l'
              else scan min_cluster_size max_gap_hours
                        (Some (MkOpen dt_obj dt_obj n))
                        (close min_cluster_size cur clusters) l'
          end
      end
  end.

(** Lines 773-806: the loop over [sorted_times], the last cluster, and the
    final sort. *)
Definition cluster_sorted_times (min_cluster_size max_gap_hours : Z)
           (sorted_times : list (datetime * Z)) : option (list cluster) :=
  match scan min_cluster_size max_gap_hours None [] sorted_times with
  | None => None
  | Some (clusters, current) =>
      let clusters :=
        match current with
        | Some cur => close min_cluster_size cur clusters
        | None => clusters
        end in
      Some (PySort.sort_by_key_reverse c_count clusters)
  end.

(** Line 771. *)
Definition sort_times (parsed : list (datetime * Z)) : list (datetime * Z) :=
  PySort.sort_by_key (fun x => minutes_of (fst x)) parsed.

(** [timestamps] is the dictionary in insertion order.  [None]: the call
    raises (OverflowError from [timedelta]). *)
Definition find_time_clusters (timestamps : list (str * Z))
           (min_cluster_size max_gap_hours : Z) : option (list cluster) :=
  match timestamps with
  | [] => Some []
  | _ =>
      match parse_buckets timestamps with
      | [] => Some []
      | parsed =>
          cluster_sorted_times min_cluster_size max_gap_hours
                               (sort_times parsed)
      end
  end.

(** The defaults of the signature. *)
Definition default_min_cluster_size : Z := 3.
Definition default_max_gap_hours : Z := 1.

(** ** What an emitted cluster stands for *)

(** Neighbours in [members] are at most [limit] minutes apart. *)
Fixpoint gaps_within (limit : Z) (members : list (datetime * Z)) : Prop :=
  match members with
  | a :: (b :: _) as rest =>
      minutes_of (fst b) - minutes_of (fst a) <= limit
      /\ gaps_within limit rest
  | _ => True
  end.

Definition total (members : list (datetime * Z)) : Z :=
  fold_right Z.add 0 (map snd members).

(** The buckets [first :: members] are a run of [done]'s end that
    [start], [stop] and [n] summarise. *)
Definition summarises (limit : Z) (first : datetime * Z)
           (members : list (datetime * Z)) (start stop : datetime) (n : Z)
  : Prop :=
  start = fst first
  /\ stop = fst (last members first)
  /\ n = total (first :: members)
  /\ gaps_within limit (first :: members).

(** What the loop knows about [current_cluster] after the buckets [done]. *)
Definition open_ok (limit : Z) (done : list (datetime * Z))
           (current : option open_cluster) : Prop :=
  match current with
  | None => done = []
  | Some cur =>
      exists pre first members,
        done = pre ++ first :: members
        /\ summarises limit first members
                      (start_dt cur) (end_dt cur) (count cur)
  end.

(** [c] is the summary of a run of neighbouring buckets of
    [sorted_times], each at most [max_gap_hours] after the one before. *)
Definition is_run (max_gap_hours : Z) (sorted_times : list (datetime * Z))
           (c : cluster) : Prop :=
  exists pre first members post start stop,
    sorted_times = pre ++ (first :: members) ++ post
    /\ summarises (60 * max_gap_hours) first members start stop (c_count c)
    /\ c_start c = strftime start
    /\ c_end c = strftime stop.

(** A cluster that may be returned: large enough, and a run of the
    sorted buckets. *)
Definition good_cluster (min_cluster_size max_gap_hours : Z)
           (sorted_times : list (datetime * Z)) (c : cluster) : Prop :=
  min_cluster_size <= c_count c /\ is_run max_gap_hours sorted_times c.

End Clusters.

(* ====================================================================== *)
(** * run_command (lines 863-1070) *)
(* ====================================================================== *)

Module Exec.

Open Scope Z_scope.

(** The argument [command]: a string or a list of strings. *)
Inductive command : Type :=
| CmdStr (s : str)
| CmdList (l : list str).

(** What the operating system does with a launched program. *)
Inductive process_behaviour : Type :=
| Runs (seconds : option Z) (returncode : Z) (stdout stderr : str)
    (* exits after [seconds], or never when [None]; the streams are the
       bytes written, for the code page query the text that
       [check_output(..., text=True)] hands back *)
| Not_found (msg : str)        (* the launch raises FileNotFoundError *)
| Launch_fails (msg : str).    (* the launch raises another Exception *)

Inductive exn : Type :=
| FileNotFoundError (msg : str)
| TimeoutExpired
| OtherException (msg : str).

(** What a call of [subprocess.run] does. *)
Inductive run_outcome : Type :=
| Completed (returncode : Z) (stdout stderr : str)
| Raised (e : exn)
| Waits_forever.

(** [subprocess.run(..., timeout=timeout)]: with a timeout the wait is
    bounded and [TimeoutExpired] is raised when it runs out; without one the
    caller waits for the exit. *)
Definition subprocess_run (b : process_behaviour) (timeout : option Z)
  : run_outcome :=
  match b with
  | Not_found msg => Raised (FileNotFoundError msg)
  | Launch_fails msg => Raised (OtherException msg)
  | Runs seconds rc out err =>
      match timeout, seconds with
      | None, None => Waits_forever
      | None, Some _ => Completed rc out err
      | Some t, None => Raised TimeoutExpired
      | Some t, Some d => if d <=? t then Completed rc out err
                          else Raised TimeoutExpired
      end
  end.

(** The effects of [run_command] on its collaborators, in order. *)
Inductive event : Type :=
| Ev_confirm (cmd_str : str) (dangerous : bool)
    (* Confirm.ask / input: "Do you want to run this command?" *)
| Ev_launch (run_arg : command) (shell : bool) (timeout : option Z)
    (* subprocess.run / subprocess.check_output *)
| Ev_log (action_type : str) (reason : option str) (success : bool).
    (* log_action; [reason] is the "reason" key of its details *)

Record platform : Type := MkPlatform {
  windows : bool;      (* platform.system() == "Windows" *)
  rich : bool;         (* RICH_AVAILABLE, with Confirm imported *)
  decode : str -> str -> option str
    (* [bytes.decode(encoding, errors='replace')] for an encoding and the
       bytes; [None] when it raises (no codec of that name) *)
}.

(** What the operator and the operating system answer during one call. *)
Record answers : Type := MkAnswers {
  confirm_ask : bool;              (* the value of Confirm.ask *)
  input_line : str;                (* the line read by input() *)
  chcp : process_behaviour;        (* the code page query on Windows *)
  process : process_behaviour;     (* the command itself *)
  late_exception : option str
    (* an Exception raised by the reporting calls of lines 1030-1041 *)
}.

(** The dictionary returned, as its readers see it.  The keys every path
    sets ([success], [error], [confirmed], [executed]) are fields.  The
    dictionaries of the early returns of lines 877, 882 and 887 have their
    text under the key ["command"] and have no key ["shell_mode"],
    ["output"] or ["return_code"]: there [command_str] holds the text of
    ["command"], [output] and [return_code] hold what the readers'
    [.get("output", "")] and [.get("return_code")] give, and [shell_mode],
    which nothing reads, holds [false].  [command_executed_as] (read by
    nothing), [execution_time] (wall clock) and [traceback] are left
    out. *)
Record result : Type := MkResult {
  command_str : str;
  shell_mode : bool;
  success : bool;
  output : str;
  error : str;
  return_code : option Z;
  confirmed : bool;
  executed : bool
}.

Inductive outcome : Type :=
| Returns (r : result)
| Uncaught_IndexError        (* from is_dangerous_command, line 905 *)
| Never_returns.             (* waiting for a process that does not exit *)

(** A yes/no question.  [default_yes]: the plain prompt is [Y/n] and only
    a literal n declines; otherwise only a literal y accepts. *)
Definition ask (p : platform) (rich_answer : bool) (line : str)
           (default_yes : bool) : bool :=
  if rich p then rich_answer
  else if default_yes then negb (eqs (strip (lower line)) (lit "n"))
  else eqs (strip (lower line)) (lit "y").

(** The early returns of lines 877, 882 and 887. *)
Definition invalid (cmd_repr : str) (msg : str) : result :=
  MkResult cmd_repr false false [] msg None false false.

(** Lines 874-888: [cmd_str] and [cmd_list], or the early return. *)
Definition validate (cmd : command) (shell : bool)
  : result + (str * option (list str)) :=
  if shell then
    match cmd with
    | CmdStr s => inr (s, None)
    | CmdList l =>
        inl (invalid (repr_list l)
                     (lit "Invalid command type for shell=True"))
    end
  else
    match cmd with
    | CmdStr s =>
        inl (invalid (repr_str s)
                     (lit "Invalid command type for shell=False"))
    | CmdList [] => inl (invalid (lit "[]") (lit "Empty command list"))
    | CmdList l => inr (join (lit " ") (map Shlex.quote l), Some l)
    end.

(** Lines 970-977 and 991-998: the encoding the streams are decoded
    with.  On Windows it is [cp] and what follows the last colon of the
    answer to the code page query, trimmed; any exception of the query
    (also its exit code other than 0, [check_output]) leaves [utf-8]. *)
Definition stream_encoding (p : platform) (a_chcp : process_behaviour)
  : str :=
  if windows p then
    match subprocess_run a_chcp None with
    | Completed 0 out _ =>
        lit "cp" ++ strip (last (split_on ":"%char out) [])
    | _ => lit "utf-8"
    end
  else lit "utf-8".

(** Lines 1012-1022 for one stream: nothing to decode when it is empty,
    the [repr] of the bytes when decoding raises. *)
Definition decode_stream (p : platform) (encoding raw : str) : str :=
  match raw with
  | [] => []
  | _ => match decode p encoding raw with
         | Some text => text
         | None => repr_bytes raw
         end
  end.

(** The [try] block of lines 941-1069 for a confirmed command. *)
Definition execute (p : platform) (a : answers) (capture_output : bool)
           (shell : bool) (cmd_str : str) (cmd_list : option (list str))
           (res : result) : list event * outcome :=
  (* lines 946-954 and 967/989: the .msc case forces shell mode *)
  let shell' :=
    if endswith (lit ".msc") (lower cmd_str) && windows p then true
    else shell in
  let run_arg :=
    if shell' then CmdStr cmd_str
    else match cmd_list with
         | Some l => CmdList l
         | None => CmdStr cmd_str
         end in
  (* lines 971-977 / 992-998: the code page query; its failure is caught *)
  let chcp_events :=
    if windows p then [Ev_launch (CmdList [lit "chcp"]) true None] else [] in
  let chcp_hangs :=
    if windows p
    then match subprocess_run (chcp a) None with
         | Waits_forever => true
         | _ => false
         end
    else false in
  if chcp_hangs then (chcp_events, Never_returns)
  else
    let launch := Ev_launch run_arg shell' None in
    match subprocess_run (process a) None with
    | Waits_forever => (chcp_events ++ [launch], Never_returns)
    | Completed rc out err =>
        let ok := rc =? 0 in
        let encoding := stream_encoding p (chcp a) in
        let r :=
          MkResult (command_str res) (shell_mode res) ok
                   (if capture_output then decode_stream p encoding out
                    else output res)
                   (if capture_output then decode_stream p encoding err
                    else error res)
                   (Some rc) (confirmed res) true in
        match late_exception a with
        | None =>
            (chcp_events ++ [launch; Ev_log (lit "command_executed") None ok],
             Returns r)
        | Some msg =>
            (* line 1056: except Exception *)
            (chcp_events ++ [launch; Ev_log (lit "command_error") None false],
             Returns (MkResult (command_str r) (shell_mode r) false (output r)
                               (lit "Error executing command: " ++ msg)
                               (return_code r) (confirmed r) false))
        end
    | Raised (FileNotFoundError msg) =>
        (* line 1042 *)
        (chcp_events ++ [launch; Ev_log (lit "command_error") None false],
         Returns (MkResult (command_str res) (shell_mode res) false
                           (output res)
                           (lit "Command or executable not found: " ++ msg)
                           (return_code res) (confirmed res) false))
    | Raised TimeoutExpired =>
        (* line 1049 *)
        (chcp_events ++ [launch; Ev_log (lit "command_error")
                                        (Some (lit "timeout")) false],
         Returns (MkResult (command_str res) (shell_mode res) false
                           (output res) (lit "Command timed out.")
                           (return_code res) (confirmed res) true))
    | Raised (OtherException msg) =>
        (* line 1056 *)
        (chcp_events ++ [launch; Ev_log (lit "command_error") None false],
         Returns (MkResult (command_str res) (shell_mode res) false
                           (output res)
                           (lit "Error executing command: " ++ msg)
                           (return_code res) (confirmed res) false))
    end.

(** [run_command(command, capture_output, shell, require_confirmation,
    explanation)]: the events it causes and how it ends.  [explanation] is
    only printed. *)
Definition run_command (p : platform) (a : answers) (cmd : command)
           (capture_output shell require_confirmation : bool)
           (explanation : option str) : list event * outcome :=
  match validate cmd shell with
  | inl r => ([], Returns r)
  | inr (cmd_str, cmd_list) =>
      (* lines 890-901 *)
      let res := MkResult cmd_str shell false [] [] None false false in
      match Safety.is_dangerous_command cmd_str with
      | None => ([], Uncaught_IndexError)
      | Some dangerous =>
          let needs_confirmation := require_confirmation || dangerous in
          if needs_confirmation then
            let user_confirmed :=
              ask p (confirm_ask a) (input_line a) false in
            let res' :=
              MkResult (command_str res) (shell_mode res) (success res)
                       (output res) (error res) (return_code res)
                       user_confirmed (executed res) in
            if negb user_confirmed then
              (* lines 930-933 *)
              ([Ev_confirm cmd_str dangerous;
                Ev_log (lit "command_cancelled") (Some (lit "user_declined"))
                       false],
               Returns res')
            else
              let (evs, o) :=
                execute p a capture_output shell cmd_str cmd_list res' in
              (Ev_confirm cmd_str dangerous :: evs, o)
          else
            (* lines 934-937 *)
            let res' :=
              MkResult (command_str res) (shell_mode res) (success res)
                       (output res) (error res) (return_code res)
                       true (executed res) in
            execute p a capture_output shell cmd_str cmd_list res'
      end
  end.

(** An operating system process is launched. *)
Definition is_launch (e : event) : bool :=
  match e with
  | Ev_launch _ _ _ => true
  | _ => false
  end.

(** The record of the timeout handler of lines 1049-1055. *)
Definition is_timeout_report (e : event) : bool :=
  match e with
  | Ev_log _ (Some reason) _ => eqs reason (lit "timeout")
  | _ => false
  end.

(** A process that was launched came to an end. *)
Definition exited (b : process_behaviour) : bool :=
  match b with
  | Runs None _ _ _ => false
  | _ => true
  end.

(** The text the handler of line 1049 stores. *)
Definition timeout_error : str := lit "Command timed out.".

(** The dictionary reports the Timeout outcome: it is as the handler of
    lines 1049-1055 leaves it.  The handler sets [executed] to true,
    [success] to false and the error text; it is entered from inside
    [subprocess.run], before line 1008 stores an exit code, so
    [return_code] is still [None]. *)
Definition reports_timeout (r : result) : bool :=
  executed r && negb (success r) && eqs (error r) timeout_error
  && match return_code r with
     | None => true
     | Some _ => false
     end.

End Exec.

(* ====================================================================== *)
(** * The execution loop of handle_llm_response (lines 1576-1858) *)
(* ====================================================================== *)

Module Loop.

Import Extract Exec.

(** An element of [session_command_history]: the command string appended
    at line 1615, or the dictionary appended at line 1682. *)
Inductive history_entry : Type :=
| H_command (cmd_str : str)
| H_attempt (cmd_str : str) (executed confirmed success : bool)
            (output error : str) (return_code : option Z).

(** What one iteration does to its collaborators. *)
Inductive loop_event : Type :=
| L_where (name : str) (evs : list event)      (* line 1633 *)
| L_skipped (cmd_str : str)                    (* line 1642 *)
| L_run (cmd_str : str) (evs : list event)     (* line 1673 *)
| L_memory_saved (cmd_str : str)               (* line 1700 *)
| L_consulted (cmd_str : str).                 (* line 1786 *)

(** The loop variables, and the effects so far. *)
Record state : Type := MkState {
  executable_commands : list item;
  current_command_index : nat;
  session_command_history : list history_entry;
  trace : list loop_event
}.

(** What the operator, the operating system and the model answer during
    one iteration. *)
Record env : Type := MkEnv {
  where_answers : answers;        (* for the call of line 1633 *)
  try_anyway_ask : bool;          (* line 1637 *)
  try_anyway_input : str;         (* line 1639 *)
  run_answers : answers;          (* for the call of line 1673 *)
  llm_response : option str;      (* ask_llm, line 1786 *)
  run_new_ask : bool;             (* line 1828 *)
  run_new_input : str             (* line 1830 *)
}.

Inductive step_result : Type :=
| Continue (st : state)      (* the next iteration starts *)
| Break (st : state)         (* a break statement *)
| Exit (st : state)          (* the while condition is false *)
| Abort (st : state).        (* an exception leaves the function, or a
                                process is waited for without end *)

(** [cmd_str in session_command_history]: a string never equals one of
    the dictionaries. *)
Definition in_history (cmd_str : str) (h : list history_entry) : bool :=
  existsb (fun x => match x with
                    | H_command s => eqs cmd_str s
                    | H_attempt _ _ _ _ _ _ _ => false
                    end) h.

Definition known_builtins : list str :=
  map lit [ "cmd"; "powershell"; "ren"; "copy"; "del"; "dir"; "move"; "rd";
            "md"; "echo"; "set"; "net"; "chkdsk"; "regsvr32"; "sfc"; "wmic";
            "tasklist"; "ipconfig"; "systeminfo"; "driverquery"; "where";
            "start"; "msinfo32"; "dxdiag"; "devmgmt.msc"; "eventvwr.msc";
            "services.msc"; "taskmgr"; "perfmon"; "winver"; "control";
            "mdsched.exe" ]%string.

(** Lines 1621-1625; [None]: IndexError leaves the function. *)
Definition potential_cmd_name (cmd_str : str) : option str :=
  match Shlex.shlex_split cmd_str with
  | Some (w :: _) => Some w
  | _ => hd_error (split cmd_str)
  end.

Inductive precheck_result : Type :=
| Pre_run (evs : list loop_event)      (* go on to execute *)
| Pre_skip (evs : list loop_event)     (* line 1646: continue *)
| Pre_abort (evs : list loop_event).

(** Lines 1618-1650. *)
Definition precheck (p : platform) (e : env) (cmd_str : str)
  : precheck_result :=
  if windows p then
    match potential_cmd_name cmd_str with
    | None => Pre_abort []
    | Some name =>
        if negb (mem (lower name) known_builtins)
           && negb (contains [Shlex.backslash] name)
           && negb (contains (lit "/") name)
        then
          let (evs, o) :=
            run_command p (where_answers e) (CmdList [lit "where"; name])
                        true false false None in
          match o with
          | Returns where_result =>
              if negb (success where_result) then
                if negb (ask p (try_anyway_ask e) (try_anyway_input e) false)
                then Pre_skip [L_where name evs; L_skipped cmd_str]
                else Pre_run [L_where name evs]
              else
                (* line 1648: the first line of the trimmed output; an
                   output that is not empty and trims to nothing has no
                   line, and [0] raises IndexError *)
                match output where_result, strip (output where_result) with
                | _ :: _, [] => Pre_abort [L_where name evs]
                | _, _ => Pre_run [L_where name evs]
                end
          | _ => Pre_abort [L_where name evs]
          end
        else Pre_run []
    end
  else Pre_run [].

Definition shell_operators : list str :=
  map lit [ "|"; ">"; "<"; "&&"; "||" ]%string.

(** Lines 1653-1670: [use_shell] and [cmd_list_or_str]. *)
Definition choose_mode (p : platform) (cmd_str : str) : bool * command :=
  if existsb (fun op => contains op cmd_str) shell_operators
     || (contains (lit "%") cmd_str && windows p)
  then (true, CmdStr cmd_str)
  else match Shlex.shlex_split cmd_str with
       | Some l => (false, CmdList l)
       | None => (true, CmdStr cmd_str)      (* ValueError *)
       end.

Inductive next_action : Type :=
| A_proceed
| A_suggest_new (new_cmd_info : item)
| A_stop.

(** Lines 1788-1818. *)
Definition decide_next_action (p : platform) (analysis_response : option str)
  : next_action :=
  match analysis_response with
  | None | Some [] => A_stop
  | Some r =>
      let response_lower_strip := strip (lower r) in
      if startswith (lit "proceed") response_lower_strip then A_proceed
      else if startswith (lit "suggest_new") response_lower_strip then
        match extract_commands_from_llm_response (windows p) r with
        | new_cmd_info :: _ => A_suggest_new new_cmd_info
        | [] => A_stop
        end
      else A_stop
  end.

(** [l.insert(i, x)]. *)
Definition list_insert (A : Type) (i : nat) (x : A) (l : list A) : list A :=
  firstn i l ++ x :: skipn i l.

Section Body.

Variable p : platform.
(** Lines 1587-1606: the purpose shown with the command, found in the
    response by two regular-expression searches.  It reaches
    [run_command] as [explanation] and is only printed. *)
Variable resolve_purpose : str -> item -> str.
(** The first answer of the model, the argument of the function. *)
Variable response : str.

(** Lines 1692-1858, after the attempt is in the history. *)
Definition after_run (e : env) (st : state) (cmd_str : str) (r : result)
  : step_result :=
  let plan := executable_commands st in
  let idx := current_command_index st in
  if executed r then
    let st1 := MkState plan idx (session_command_history st)
                       (trace st ++ [L_memory_saved cmd_str]) in
    let is_last_command := Nat.eqb idx (List.length plan - 1) in
    if negb (success r) || negb is_last_command then
      let st2 := MkState plan idx (session_command_history st1)
                         (trace st1 ++ [L_consulted cmd_str]) in
      match decide_next_action p (llm_response e) with
      | A_proceed =>
          Continue (MkState plan (idx + 1) (session_command_history st2)
                            (trace st2))
      | A_suggest_new new_cmd_info =>
          if ask p (run_new_ask e) (run_new_input e) true
          then Continue (MkState (list_insert (idx + 1) new_cmd_info plan)
                                 (idx + 1) (session_command_history st2)
                                 (trace st2))
          else Break st2
      | A_stop => Break st2
      end
    else
      (* lines 1847-1849: no continue and no break; the loop goes round *)
      Continue st1
  else Break st.

(** One iteration of the [while] loop of line 1583. *)
Definition loop_body (e : env) (st : state) : step_result :=
  let plan := executable_commands st in
  let idx := current_command_index st in
  match nth_error plan idx with
  | None => Exit st
  | Some cmd_info =>
      let cmd_str := value cmd_info in
      let cmd_context := resolve_purpose response cmd_info in
      if in_history cmd_str (session_command_history st)
      then Break st                                   (* line 1614 *)
      else
        let hist1 := session_command_history st ++ [H_command cmd_str] in
        match precheck p e cmd_str with
        | Pre_abort evs => Abort (MkState plan idx hist1 (trace st ++ evs))
        | Pre_skip evs =>
            Continue (MkState plan (idx + 1) hist1 (trace st ++ evs))
        | Pre_run evs =>
            let (use_shell, cmd_list_or_str) := choose_mode p cmd_str in
            let (run_evs, o) :=
              run_command p (run_answers e) cmd_list_or_str true use_shell
                          true (Some cmd_context) in
            let tr := trace st ++ evs ++ [L_run cmd_str run_evs] in
            match o with
            | Returns r =>
                let hist2 :=
                  hist1 ++ [H_attempt cmd_str (executed r) (confirmed r)
                                      (success r) (output r) (error r)
                                      (return_code r)] in
                after_run e (MkState plan idx hist2 tr) cmd_str r
            | _ => Abort (MkState plan idx hist1 tr)
            end
        end
  end.

(** The loop along the answers [envs], one per iteration. *)
Fixpoint run (envs : list env) (st : state) : step_result :=
  match envs with
  | [] => Continue st
  | e :: envs' =>
      match loop_body e st with
      | Continue st' => run envs' st'
      | r => r
      end
  end.

End Body.

(** Lines 1579-1582. *)
Definition initial_state (plan : list item) : state := MkState plan 0 [] [].

(** Line 1515. *)
Definition plan_of (items : list item) : list item :=
  filter (fun it => item_type_eqb (type_ it) T_command) items.

(** The state a result carries. *)
Definition reached (r : step_result) : state :=
  match r with
  | Continue st | Break st | Exit st | Abort st => st
  end.

(** Every step in front of the cursor has its command string in the
    history. *)
Definition prefix_in_history (st : state) : Prop :=
  forall i it,
    (i < current_command_index st)%nat ->
    nth_error (executable_commands st) i = Some it ->
    in_history (value it) (session_command_history st) = true.

(** How an iteration that goes on differs from its start: the history
    grew by the command under the cursor, and the plan and the cursor
    moved in one of three ways. *)
Inductive goes_on (st st' : state) : Prop :=
| Go : forall cmd_info more,
    nth_error (executable_commands st) (current_command_index st)
    = Some cmd_info ->
    session_command_history st'
    = session_command_history st ++ H_command (value cmd_info) :: more ->
    (executable_commands st' = executable_commands st
     /\ (current_command_index st' = current_command_index st
         \/ current_command_index st' = current_command_index st + 1)%nat
     \/ exists c,
         executable_commands st'
         = list_insert (current_command_index st + 1) c
                       (executable_commands st)
         /\ current_command_index st' = (current_command_index st + 1)%nat)
    -> goes_on st st'.

(** The commands handed to [run_command] at line 1673, in order. *)
Definition commands_run (tr : list loop_event) : list str :=
  flat_map (fun ev => match ev with
                      | L_run cmd_str _ => [cmd_str]
                      | _ => []
                      end) tr.

(** Every command handed to [run_command] is in the history, and none
    was handed over twice. *)
Definition runs_recorded (st : state) : Prop :=
  (forall s, In s (commands_run (trace st)) ->
             in_history s (session_command_history st) = true)
  /\ NoDup (commands_run (trace st)).

End Loop.

(* ====================================================================== *)
(** * Concrete platforms, operators and inputs used in the examples *)
(* ====================================================================== *)

Module Scenarios.

Import Exec.

(** A Python that knows the codecs [utf-8] and [cp437].  The streams of
    the examples are ASCII, which both codecs leave as it is. *)
Definition decode_known (encoding raw : str) : option str :=
  if Py.eqs encoding (lit "utf-8") || Py.eqs encoding (lit "cp437")
  then Some raw else None.

(** No Windows, no rich console. *)
Definition plain_console : platform := MkPlatform false false decode_known.

(** Windows, no rich console. *)
Definition windows_console : platform :=
  MkPlatform true false decode_known.

(** The operator types N; the command would exit with 0 after a second. *)
Definition decline : answers :=
  MkAnswers false (lit " N ") (Runs (Some 0%Z) 0%Z [] [])
            (Runs (Some 1%Z) 0%Z (lit "ok") []) None.

(** The operator types y; the command exits with 0 after an hour. *)
Definition accept : answers :=
  MkAnswers true (lit "y") (Runs (Some 0%Z) 0%Z (lit "437") [])
            (Runs (Some 3600%Z) 0%Z (lit "done") []) None.

(** The operator types y; the command never exits. *)
Definition accept_endless : answers :=
  MkAnswers true (lit "y") (Runs (Some 0%Z) 0%Z [] [])
            (Runs None 0%Z [] []) None.

(** The buckets of the example of the specification, as keys with
    minutes, as keys the size of an hour, and as parsed times. *)
Definition buckets_with_minutes : list (str * Z) :=
  [ (lit "2024-01-01 10:00", 1%Z); (lit "2024-01-01 10:30", 2%Z);
    (lit "2024-01-01 13:00", 5%Z) ].

Definition buckets_by_hour : list (str * Z) :=
  [ (lit "2024-01-01 10", 1%Z); (lit "2024-01-01 11", 2%Z);
    (lit "2024-01-01 13", 5%Z) ].

Definition buckets_small_tail : list (str * Z) :=
  [ (lit "2024-01-01 10", 1%Z); (lit "2024-01-01 11", 2%Z);
    (lit "2024-01-01 13", 2%Z) ].

Definition at_time (h m : Z) : Datetime.datetime :=
  Datetime.MkDatetime 2024 1 1 h m.

Definition times_with_minutes : list (Datetime.datetime * Z) :=
  [ (at_time 10 0, 1%Z); (at_time 10 30, 2%Z); (at_time 13 0, 5%Z) ].

Definition cluster_13 : Clusters.cluster :=
  Clusters.MkCluster (lit "2024-01-01 13:00") (lit "2024-01-01 13:00") 5.

Definition cluster_10_to_1030 : Clusters.cluster :=
  Clusters.MkCluster (lit "2024-01-01 10:00") (lit "2024-01-01 10:30") 3.

Definition cluster_10_to_11 : Clusters.cluster :=
  Clusters.MkCluster (lit "2024-01-01 10:00") (lit "2024-01-01 11:00") 3.

(** The outcome the specification gives for its example: one cluster, from
    10:00 to 10:30, with count 3. *)
Definition one_cluster_10_to_1030 (r : option (list Clusters.cluster))
  : Prop :=
  r = Some [cluster_10_to_1030].

Definition sfc_call : list event * outcome :=
  run_command windows_console accept
              (CmdList [lit "sfc"; lit "/scannow"]) true false true None.

(** A command span with nothing but blanks in it. *)
Definition text_empty_span : str := lit "First [[***   ***]] then wait.".

(** A link inside a command span, a command span inside a link, and a
    command span on its own. *)
Definition text_nested : str :=
  lit "Try [[*** [[URL: http://a.b]] ***]] or [[url: https://x/[[***y***]] and [[*** sfc /scannow ***]]".

Definition link_a : Re.rematch := Re.MkMatch 10 29 (lit "http://a.b").

(** Three steps of a plan. *)
Definition step_A : Extract.item :=
  Extract.MkItem Extract.T_command (lit "ipconfig /all")
                 (lit "Look at the adapters") 10.

Definition step_B : Extract.item :=
  Extract.MkItem Extract.T_command (lit "netstat -an")
                 (lit "Look at the connections") 60.

Definition suggestion : str :=
  lit "SUGGEST_NEW. The adapter has no address. [[*** ipconfig /renew ***]]".

Definition step_C : Extract.item :=
  Extract.MkItem Extract.T_command (lit "ipconfig /renew")
                 (lit "The adapter has no address.") 41.

(** The purpose shown is the context of the item. *)
Definition purpose_is_context (response : str) (it : Extract.item) : str :=
  Extract.context it.

(** The operator confirms, the command exits with 0, the model says
    PROCEED. *)
Definition env_proceed : Loop.env :=
  Loop.MkEnv accept false (lit "n") accept
             (Some (lit "PROCEED. The output looks fine.")) true (lit "y").

(** The same, and the model suggests [step_C], which the operator takes. *)
Definition env_suggest_taken : Loop.env :=
  Loop.MkEnv accept false (lit "n") accept (Some suggestion) true (lit "").

(** The same, and the operator types n to the suggestion. *)
Definition env_suggest_declined : Loop.env :=
  Loop.MkEnv accept false (lit "n") accept (Some suggestion) false (lit "n").

(** A plan with the same command at both places, after its first step. *)
Definition after_first_of_twice : Loop.state :=
  Loop.reached
    (Loop.run plain_console purpose_is_context [] [env_proceed]
              (Loop.initial_state [step_A; step_A])).

End Scenarios.

(* ====================================================================== *)
(** * The runs of a sorted list of buckets *)
(* ====================================================================== *)

Module ClusterSpec.

Import Datetime Clusters.
Open Scope Z_scope.

(** The sorted buckets cut into runs: a bucket joins the run of the bucket
    behind it when that one is at most [limit] minutes later. *)
Fixpoint runs (limit : Z) (l : list (datetime * Z))
  : list (list (datetime * Z)) :=
  match l with
  | [] => []
  | x :: l' =>
      match runs limit l' with
      | (y :: r) :: rs =>
          if minutes_of (fst y) - minutes_of (fst x) <=? limit
          then (x :: y :: r) :: rs
          else [x] :: (y :: r) :: rs
      | _ => [[x]]
      end
  end.

(** The dictionary that stands for a run. *)
Definition summarise (r : list (datetime * Z)) : cluster :=
  match r with
  | [] => MkCluster [] [] 0
  | first :: members =>
      MkCluster (strftime (fst first)) (strftime (fst (last members first)))
                (total r)
  end.

(** [current_cluster] while [r] is the run being read. *)
Definition open_of (r : list (datetime * Z)) : option open_cluster :=
  match r with
  | [] => None
  | first :: members =>
      Some (MkOpen (fst first) (fst (last members first)) (total r))
  end.

Definition large (min_cluster_size : Z) (r : list (datetime * Z)) : bool :=
  min_cluster_size <=? total r.

(** The clusters of the runs that are large enough, largest first. *)
Definition clusters_of_runs (min_cluster_size limit : Z)
           (sorted_times : list (datetime * Z)) : list cluster :=
  PySort.sort_by_key_reverse
    c_count
    (map summarise (filter (large min_cluster_size) (runs limit sorted_times))).

(** The last bucket of a run and the first of the next lie more than
    [limit] apart. *)
Fixpoint apart (limit : Z) (rs : list (list (datetime * Z))) : Prop :=
  match rs with
  | r :: ((y :: _) :: _) as rest =>
      limit < minutes_of (fst y) - minutes_of (fst (last r y))
      /\ apart limit rest
  | _ => True
  end.

(** [rs] cuts [l] into its runs: nothing lost, no run empty, the buckets
    of a run close to one another, neighbouring runs apart. *)
Definition cut_into_runs (limit : Z) (l : list (datetime * Z))
           (rs : list (list (datetime * Z))) : Prop :=
  List.concat rs = l
  /\ Forall (fun r => r <> [] /\ gaps_within limit r) rs
  /\ apart limit rs.

End ClusterSpec.

(* ====================================================================== *)
(** * add_to_memory_list (lines 220-235) *)
(* ====================================================================== *)

Module Memory.

Open Scope Z_scope.

Section Entries.
(** The values kept in the lists. *)
Variable E : Type.

(** What a key of the memory holds: a list, or a value of another type. *)
Inductive mvalue : Type :=
| M_list (l : list E)
| M_other.

(** The memory: the keys in order of insertion. *)
Definition memory : Type := list (str * mvalue).

(** [memory.get(key)]. *)
Fixpoint lookup (key : str) (m : memory) : option mvalue :=
  match m with
  | [] => None
  | (k, v) :: m' => if eqs key k then Some v else lookup key m'
  end.

(** [memory[key] = v]. *)
Fixpoint store (key : str) (v : mvalue) (m : memory) : memory :=
  match m with
  | [] => [(key, v)]
  | (k, w) :: m' =>
      if eqs key k then (k, v) :: m' else (k, w) :: store key v m'
  end.

(** [l[:n]] for an integer [n]: a negative [n] counts from the end. *)
Definition slice_to (n : Z) (l : list E) : list E :=
  if 0 <=? n then firstn (Z.to_nat n) l
  else firstn (List.length l - Z.to_nat (- n)) l.

(** The list under [key] after lines 222-223. *)
Definition list_at (key : str) (m : memory) : list E :=
  match lookup key m with
  | Some (M_list l) => l
  | _ => []
  end.

(** [add_to_memory_list(memory, key, value, max_items)]; the writing of the
    file by [save_memory] is left out. *)
Definition add_to_memory_list (m : memory) (key : str) (value : E)
           (max_items : Z) : memory :=
  let l := value :: list_at key m in
  let l' := if max_items <? Z.of_nat (List.length l)
            then slice_to max_items l else l in
  store key (M_list l') m.

(** The calls for [values], one after the other. *)
Definition add_all (m : memory) (key : str) (values : list E)
           (max_items : Z) : memory :=
  fold_left (fun m' v => add_to_memory_list m' key v max_items) values m.

End Entries.

(** The default of the signature. *)
Definition default_max_items : Z := 20.

End Memory.

(* ====================================================================== *)
(** * analyze_logs_for_patterns (lines 659-748) *)
(* ====================================================================== *)

Module LogPatterns.

Import Datetime.
Open Scope Z_scope.

(** A log entry: the keys the function reads, absent when [None]. *)
Record log : Type := MkLog {
  Message : option str;
  ProviderName : option str;
  Source : option str;
  TimeCreated : option str;
  Level : option str
}.

Definition opt_eqb (a b : option str) : bool :=
  match a, b with
  | Some x, Some y => eqs x y
  | None, None => true
  | _, _ => false
  end.

(** Equality of two entries, as [in] on a list of them tests it. *)
Definition log_eqb (a b : log) : bool :=
  opt_eqb (Message a) (Message b)
  && opt_eqb (ProviderName a) (ProviderName b)
  && opt_eqb (Source a) (Source b)
  && opt_eqb (TimeCreated a) (TimeCreated b)
  && opt_eqb (Level a) (Level b).

(** [d.get(key, default)]. *)
Definition get (v : option str) (default : str) : str :=
  match v with
  | Some x => x
  | None => default
  end.

Definition crash_keywords : list str :=
  map lit [ "stopped working"; "crashed"; "not responding";
            "faulting application"; "hang"; "freeze" ]%string.

Definition service_keywords : list str :=
  map lit [ "service"; "failed to start"; "stopped unexpectedly";
            "terminated with error" ]%string.

Definition driver_keywords : list str :=
  map lit [ "driver"; "device"; "\driver\"; "nvlddmkm"; "amdkmdag";
            "iaStor"; "rtx" ]%string.

Definition permission_keywords : list str :=
  map lit [ "permission"; "access denied"; " EPERM "; " EACCES " ]%string.

Definition disk_keywords : list str :=
  map lit [ "disk"; "volume"; "ntfs"; "ext4"; " btrfs "; "harddisk";
            "error on device"; "i/o error"; "bad sector" ]%string.

Definition known_problematic_apps : list str :=
  map lit [ "CapCut"; "CCleaner"; "OneDrive"; "Teams"; "Discord"; "Chrome";
            "Firefox"; "Edge"; "Skype"; "Zoom"; "Valorant"; "Riot" ]%string.

(** [any(keyword in msg for keyword in keywords)]. *)
Definition any_in (keywords : list str) (msg : str) : bool :=
  existsb (fun keyword => contains keyword msg) keywords.

(** Lines 686-691. *)
Definition msg_of (l : log) : str := lower (get (Message l) []).

Definition source_key_of (l : log) : str :=
  let source := lower (get (ProviderName l) (lit "unknown")) in
  if negb (eqs source (lit "unknown")) then source
  else lower (get (Source l) (lit "unknown")).

(** The value of a source in [frequent_sources]. *)
Record source_stat : Type := MkStat {
  s_count : Z;
  s_levels : list str       (* a set *)
}.

(** [s.add(x)] on a set kept as a list. *)
Definition set_add (x : str) (s : list str) : list str :=
  if mem x s then s else s ++ [x].

(** Lines 692-694 on the dictionary [frequent_sources], kept in order of
    insertion. *)
Fixpoint bump_source (key : str) (level : option str)
         (d : list (str * source_stat)) : list (str * source_stat) :=
  let add_level (st : source_stat) : source_stat :=
    MkStat (s_count st + 1)
           match level with
           | Some (c :: lv) => set_add (c :: lv) (s_levels st)
           | _ => s_levels st
           end in
  match d with
  | [] => [(key, add_level (MkStat 0 []))]
  | (k, st) :: d' =>
      if eqs key k then (k, add_level st) :: d'
      else (k, st) :: bump_source key level d'
  end.

(** Lines 715-717 on the dictionary [error_timestamps]. *)
Fixpoint bump_hour (key : str) (d : list (str * Z)) : list (str * Z) :=
  match d with
  | [] => [(key, 0 + 1)]
  | (k, n) :: d' =>
      if eqs key k then (k, n + 1) :: d' else (k, n) :: bump_hour key d'
  end.

(** [s.split(c)[0]]: the text in front of the first [c]. *)
Fixpoint before_first (c : ascii) (s : str) : str :=
  match s with
  | [] => []
  | x :: s' => if eqc x c then [] else x :: before_first c s'
  end.

(** [dt_obj.strftime("%Y-%m-%d %H")], line 704. *)
Definition hour_key (d : datetime) : str :=
  show_year (year d) ++ lit "-" ++ pad2 (month d) ++ lit "-" ++ pad2 (day d)
  ++ lit " " ++ pad2 (hour d).

(** The dictionary [patterns]. *)
Record patterns : Type := MkPatterns {
  app_crashes : list log;
  service_failures : list log;
  driver_issues : list log;
  permission_errors : list log;
  disk_errors : list log;
  error_timestamps : list (str * Z);
  frequent_sources : list (str * source_stat);
  suspicious_apps : list str        (* a set *)
}.

Definition empty_patterns : patterns :=
  MkPatterns [] [] [] [] [] [] [] [].

Section Analyze.
(** [datetime.datetime.fromisoformat]; [None]: ValueError.  What it
    accepts depends on the version of the library. *)
Variable fromisoformat : str -> option datetime.

(** Lines 700-713: the key of the hour bucket of a timestamp. *)
Definition hour_timestamp_of (timestamp : str) : str :=
  match fromisoformat (before_first "."%char timestamp) with
  | Some dt_obj => hour_key dt_obj
  | None =>
      if contains (lit ":") timestamp
      then before_first ":"%char timestamp
      else timestamp
  end.

(** The body of the loop of line 685. *)
Definition analyze_one (pt : patterns) (l : log) : patterns :=
  let msg := msg_of l in
  let source_key := source_key_of l in
  let timestamp := get (TimeCreated l) [] in
  let sources := bump_source source_key (Level l) (frequent_sources pt) in
  let hours :=
    match timestamp with
    | [] => error_timestamps pt
    | _ => bump_hour (hour_timestamp_of timestamp) (error_timestamps pt)
    end in
  let crashes :=
    if any_in crash_keywords msg then app_crashes pt ++ [l]
    else app_crashes pt in
  let services :=
    if any_in service_keywords msg
    then if negb (existsb (log_eqb l) crashes)
         then service_failures pt ++ [l]
         else service_failures pt
    else service_failures pt in
  let drivers :=
    if any_in driver_keywords msg then driver_issues pt ++ [l]
    else driver_issues pt in
  let permissions :=
    if any_in permission_keywords msg then permission_errors pt ++ [l]
    else permission_errors pt in
  let disks :=
    if any_in disk_keywords msg then disk_errors pt ++ [l]
    else disk_errors pt in
  let apps :=
    fold_left
      (fun s app =>
         if contains (lower app) msg || contains (lower app) source_key
         then set_add app s else s)
      known_problematic_apps (suspicious_apps pt) in
  MkPatterns crashes services drivers permissions disks hours sources apps.

(** The dictionary after the loop, with [frequent_sources] sorted as in
    lines 741-743. *)
Definition analyze_logs (logs : list log) : patterns :=
  let pt := fold_left analyze_one logs empty_patterns in
  MkPatterns (app_crashes pt) (service_failures pt) (driver_issues pt)
             (permission_errors pt) (disk_errors pt) (error_timestamps pt)
             (PySort.sort_by_key_reverse (fun kv => s_count (snd kv))
                                         (frequent_sources pt))
             (suspicious_apps pt).

(** The key ["error_clusters"], line 746. *)
Definition error_clusters (logs : list log)
  : option (list Clusters.cluster) :=
  Clusters.find_time_clusters (error_timestamps (analyze_logs logs))
                              Clusters.default_min_cluster_size
                              Clusters.default_max_gap_hours.
End Analyze.

(** The sum of the counts of a dictionary. *)
Definition sum_counts (A : Type) (count : A -> Z) (d : list (str * A)) : Z :=
  fold_right Z.add 0 (map (fun kv => count (snd kv)) d).

(** An entry has a timestamp to put into a bucket. *)
Definition has_timestamp (l : log) : bool :=
  match get (TimeCreated l) [] with
  | [] => false
  | _ => true
  end.

(** The message of an entry has a crash keyword, a service keyword. *)
Definition is_crash (l : log) : bool := any_in crash_keywords (msg_of l).

Definition is_service (l : log) : bool :=
  any_in service_keywords (msg_of l).

(** An application name occurs in the message or the source of an
    entry. *)
Definition names_app (app : str) (l : log) : bool :=
  contains (lower app) (msg_of l) || contains (lower app) (source_key_of l).

(** A keyword with a letter that [lower] changes. *)
Definition has_upper (keyword : str) : Prop :=
  exists c, In c keyword /\ lower_char c <> c.

End LogPatterns.

(* ====================================================================== *)
(** * The extractor: which spans give an item *)
(* ====================================================================== *)

Module ExtractSpec.

Import Extract.

(** A command span gives an item: no link claims one of its indices, and
    its inner text is not blank. *)
Definition gives_item (processed : list nat) (m : Re.rematch) : bool :=
  negb (is_overlapped processed m)
  && match strip (Re.m_group1 m) with
     | [] => false
     | _ => true
     end.

(** The positions of the items, in order. *)
Definition positions (items : list item) : list nat :=
  map original_match_position items.

End ExtractSpec.

(* ====================================================================== *)
(** * The execution loop: what a session keeps *)
(* ====================================================================== *)

Module LoopSpec.

Import Extract Exec Loop.

(** Some attempt at [cmd_str] recorded in the history (line 1682) was
    executed. *)
Definition executed_attempt (cmd_str : str) (h : list history_entry) : bool :=
  existsb (fun x => match x with
                    | H_attempt s true _ _ _ _ _ => eqs cmd_str s
                    | _ => false
                    end) h.

(** The memory is saved and the model is consulted only about a command
    with an executed attempt in the history [h]. *)
Definition report_ok (h : list history_entry) (ev : loop_event) : Prop :=
  match ev with
  | L_memory_saved c | L_consulted c => executed_attempt c h = true
  | _ => True
  end.

Definition reports_follow_execution (st : state) : Prop :=
  Forall (report_ok (session_command_history st)) (trace st).

(** The events of one call of [run_command]: when a process is launched,
    the prompt came first. *)
Definition gated (evs : list event) : bool :=
  negb (existsb is_launch evs)
  || match evs with
     | Ev_confirm _ _ :: _ => true
     | _ => false
     end.

Definition run_ok (ev : loop_event) : Prop :=
  match ev with
  | L_run _ evs => gated evs = true
  | _ => True
  end.

(** From [st] to [st']: the cursor did not move back, the plan did not
    shrink, and the steps up to the cursor of [st] are the same. *)
Definition extends (st st' : state) : Prop :=
  (current_command_index st <= current_command_index st')%nat
  /\ (List.length (executable_commands st)
      <= List.length (executable_commands st'))%nat
  /\ forall i, (i <= current_command_index st)%nat ->
               nth_error (executable_commands st') i
               = nth_error (executable_commands st) i.

(** Every step of the plan has a visible code point. *)
Definition plan_visible (st : state) : Prop :=
  Forall (fun it => has_visible (value it)) (executable_commands st).

End LoopSpec.

(* ====================================================================== *)
(** * Facts about the string primitives *)
(* ====================================================================== *)

Module PyFacts.

Lemma eqc_refl (c : ascii) : eqc c c = true.
Proof. apply Ascii.eqb_refl. Qed.

Lemma eqc_eq (a b : ascii) : eqc a b = true <-> a = b.
Proof. apply Ascii.eqb_eq. Qed.

Lemma eqs_eq (a b : str) : eqs a b = true <-> a = b.
Proof.
  revert b. induction a as [|x a IH]; intros [|y b]; simpl; split;
    try congruence; try reflexivity.
  - rewrite andb_true_iff, eqc_eq, IH. intros [-> ->]. reflexivity.
  - intros E. injection E as -> ->. rewrite eqc_refl.
    apply (proj2 (IH b)). reflexivity.
Qed.

Lemma eqs_refl (a : str) : eqs a a = true.
Proof. apply eqs_eq. reflexivity. Qed.

Lemma startswith_app (p s : str) : startswith p (p ++ s) = true.
Proof.
  induction p as [|x p IH]; simpl.
  - reflexivity.
  - rewrite eqc_refl. exact IH.
Qed.

Lemma startswith_inv (p s : str) :
  startswith p s = true -> exists post, s = p ++ post.
Proof.
  revert s. induction p as [|x p IH]; intros s H.
  - exists s. reflexivity.
  - destruct s as [|y s]; simpl in H; [discriminate|].
    apply andb_true_iff in H. destruct H as [Hc Hs].
    apply eqc_eq in Hc. subst y.
    destruct (IH _ Hs) as [post ->]. exists post. reflexivity.
Qed.

Lemma contains_startswith (needle hay : str) :
  startswith needle hay = true -> contains needle hay = true.
Proof.
  intros H. destruct hay; simpl; rewrite H; reflexivity.
Qed.

Lemma contains_app (needle pre post : str) :
  contains needle (pre ++ needle ++ post) = true.
Proof.
  induction pre as [|c pre IH].
  - apply contains_startswith. exact (startswith_app needle post).
  - simpl. rewrite IH. apply orb_true_r.
Qed.

Lemma contains_inv (needle hay : str) :
  contains needle hay = true -> exists pre post, hay = pre ++ needle ++ post.
Proof.
  induction hay as [|c hay IH]; simpl; intros H.
  - rewrite orb_false_r in H. destruct (startswith_inv _ _ H) as [post E].
    exists [], post. exact E.
  - apply orb_true_iff in H. destruct H as [H|H].
    + destruct (startswith_inv _ _ H) as [post E]. exists [], post. exact E.
    + destruct (IH H) as (pre & post & ->). exists (c :: pre), post.
      reflexivity.
Qed.

Lemma lower_app (a b : str) : lower (a ++ b) = lower a ++ lower b.
Proof. apply map_app. Qed.

(** The test of the source on the lowered text is occurrence up to case. *)
Lemma contains_lower_occurs (frag cmd : str) :
  contains frag (lower cmd) = true <-> Safety.occurs_ci frag cmd.
Proof.
  split.
  - intros H. destruct (contains_inv _ _ H) as (pre & post & E).
    unfold lower in E. apply map_eq_app in E.
    destruct E as (pre' & rest & -> & _ & E).
    apply map_eq_app in E. destruct E as (mid & post' & -> & E & _).
    exists pre', mid, post'. split; [reflexivity | exact E].
  - intros (pre & mid & post & -> & <-).
    rewrite !lower_app. apply contains_app.
Qed.

End PyFacts.

(* ====================================================================== *)
(** * The safety classifier *)
(* ====================================================================== *)

Module SafetyFacts.

Import Safety PyFacts.

Lemma denylist_hit (cmd frag : str) :
  In frag Config.dangerous_commands ->
  contains frag (lower cmd) = true ->
  is_dangerous_command_site cmd = Some Ret_denylist.
Proof.
  intros Hin Hc. unfold is_dangerous_command_site.
  assert (E : existsb (fun d => contains d (lower cmd))
                      Config.dangerous_commands = true).
  { apply existsb_exists. exists frag. split; assumption. }
  rewrite E. reflexivity.
Qed.

(** C5.  A command in whose text a fragment of the denylist occurs, in any
    mix of upper and lower case and at any place, is classified dangerous:
    [is_dangerous_command] returns [True] whatever the first token is. *)
Theorem denylisted_fragment_is_dangerous (cmd frag : str) :
  In frag Config.dangerous_commands ->
  occurs_ci frag cmd ->
  is_dangerous_command cmd = Some true.
Proof.
  intros Hin Hocc. unfold is_dangerous_command.
  rewrite (denylist_hit cmd Hin (proj2 (contains_lower_occurs frag cmd) Hocc)).
  reflexivity.
Qed.

Lemma denylisted_fragment_is_dangerous_witness :
  first_token (lit "dir C:\ && RM -Rf C:\tmp") = Some (lit "dir")
  /\ mem (lit "dir") Config.safe_diagnostic_commands = true
  /\ is_dangerous_command (lit "dir C:\ && RM -Rf C:\tmp") = Some true.
Proof.
  split; [reflexivity|]. split; [reflexivity|].
  apply (@denylisted_fragment_is_dangerous
           (lit "dir C:\ && RM -Rf C:\tmp") (lit "rm -rf")).
  - simpl. left. reflexivity.
  - exists (lit "dir C:\ && "), (lit "RM -Rf"), (lit " C:\tmp").
    split; reflexivity.
Defined.

(** Every text with the recursive delete in it, whatever stands around. *)
Lemma rm_rf_always_dangerous (pre post : str) :
  is_dangerous_command (pre ++ lit "rm -rf" ++ post) = Some true.
Proof.
  unfold is_dangerous_command.
  rewrite (@denylist_hit (pre ++ lit "rm -rf" ++ post) (lit "rm -rf")).
  - reflexivity.
  - simpl. left. reflexivity.
  - apply contains_lower_occurs. exists pre, (lit "rm -rf"), post.
    split; reflexivity.
Qed.

(** C6.  With no denylist hit and the disk-check tool as first token:
    without a repair flag in the text the function returns [False] at the
    allowlist (line 852); with [/f] or [/r] in the text neither allowlist
    return is taken and the function reaches its default return
    (line 860). *)
Theorem chkdsk_carve_out (cmd : str) :
  no_denylist_hit cmd = true ->
  first_token cmd = Some (lit "chkdsk") ->
  is_dangerous_command_site cmd
  = Some (if has_repair_flag cmd then Ret_default else Ret_chkdsk_plain)
  /\ is_dangerous_command cmd = Some false.
Proof.
  unfold no_denylist_hit, first_token, is_dangerous_command,
    is_dangerous_command_site, has_repair_flag.
  intros Hno Hfirst. apply negb_true_iff in Hno. rewrite Hno.
  destruct (split (lower cmd)) as [|w ws]; simpl in Hfirst; [discriminate|].
  injection Hfirst as ->.
  change (mem (lit "chkdsk") Config.safe_diagnostic_commands) with true.
  rewrite eqs_refl. cbv iota. simpl negb at 3.
  destruct (contains (lit "/f") (lower cmd)),
           (contains (lit "/r") (lower cmd)); split; reflexivity.
Qed.

Lemma chkdsk_carve_out_witness :
  (is_dangerous_command_site (lit "CHKDSK C:") = Some Ret_chkdsk_plain
   /\ is_dangerous_command (lit "CHKDSK C:") = Some false)
  /\ (is_dangerous_command_site (lit "chkdsk C: /F") = Some Ret_default
      /\ is_dangerous_command (lit "chkdsk C: /F") = Some false).
Proof.
  split.
  - apply (@chkdsk_carve_out (lit "CHKDSK C:")); reflexivity.
  - apply (@chkdsk_carve_out (lit "chkdsk C: /F")); reflexivity.
Defined.

End SafetyFacts.

(* ====================================================================== *)
(** * run_command *)
(* ====================================================================== *)

Module ExecFacts.

Import Exec Scenarios.

(** Without a timeout [subprocess.run] never raises [TimeoutExpired]. *)
Lemma subprocess_run_no_timeout (b : process_behaviour) :
  subprocess_run b None <> Raised TimeoutExpired.
Proof. destruct b as [[d|] rc out err | msg | msg]; discriminate. Qed.

(** With one it does: the handler of line 1049 is written for this. *)
Lemma subprocess_run_with_timeout (t rc : Z) (out err : str) :
  subprocess_run (Runs None rc out err) (Some t) = Raised TimeoutExpired.
Proof. reflexivity. Qed.

Ltac case_execute :=
  unfold execute;
  repeat match goal with
         | |- context [subprocess_run ?b None] =>
             let E := fresh "E" in
             destruct b as [[?|] ? ? ? | ? | ?] eqn:E; simpl subprocess_run
         | |- context [if ?c then _ else _] => destruct c eqn:?
         | |- context [match late_exception ?a with _ => _ end] =>
             destruct (late_exception a) eqn:?
         end.

Lemma execute_invariant p a cap sh cmd_str cmd_list res evs r :
  success res = false ->
  execute p a cap sh cmd_str cmd_list res = (evs, Returns r) ->
  executed r = false -> success r = false.
Proof.
  intros Hres. case_execute; intros H Hex; inversion H; subst; simpl in *;
    try reflexivity; try discriminate; try assumption.
Qed.

Lemma validate_invalid cmd sh r :
  validate cmd sh = inl r -> executed r = false /\ success r = false.
Proof.
  unfold validate. destruct sh, cmd as [s|[|x l]]; intros H; inversion H;
    split; reflexivity.
Qed.

(** C8.  Every dictionary [run_command] returns has [success] false when
    [executed] is false, whichever path produced it; and when the
    confirmation is asked for and declined, the call returns at once with
    [executed], [success] and [confirmed] all false, after the prompt and
    the record of the cancellation and with no process launched. *)
Theorem run_command_not_executed_not_succeeded
        (p : platform) (a : answers) (cmd : command)
        (capture_output shell require_confirmation : bool)
        (explanation : option str) :
  (forall evs r,
      run_command p a cmd capture_output shell require_confirmation
                  explanation = (evs, Returns r) ->
      executed r = false -> success r = false)
  /\
  (forall cmd_str cmd_list dangerous,
      validate cmd shell = inr (cmd_str, cmd_list) ->
      Safety.is_dangerous_command cmd_str = Some dangerous ->
      require_confirmation || dangerous = true ->
      ask p (confirm_ask a) (input_line a) false = false ->
      exists evs r,
        run_command p a cmd capture_output shell require_confirmation
                    explanation = (evs, Returns r)
        /\ executed r = false /\ success r = false /\ confirmed r = false
        /\ existsb is_launch evs = false
        /\ evs = [Ev_confirm cmd_str dangerous;
                  Ev_log (lit "command_cancelled")
                         (Some (lit "user_declined")) false]).
Proof.
  split.
  - intros evs r. unfold run_command.
    destruct (validate cmd shell) as [r0 | [cmd_str cmd_list]] eqn:Ev.
    + intros H Hex. inversion H; subst.
      apply (validate_invalid _ _ Ev).
    + destruct (Safety.is_dangerous_command cmd_str) as [d|];
        [|discriminate].
      destruct (require_confirmation || d).
      * destruct (ask p (confirm_ask a) (input_line a) false) eqn:Ea;
          simpl negb; cbv iota.
        -- destruct (execute _ _ _ _ _ _ _) as [evs' o] eqn:Ee.
           intros H Hex. inversion H; subst.
           eapply execute_invariant; [| exact Ee | exact Hex]. reflexivity.
        -- intros H Hex. inversion H; subst. reflexivity.
      * intros H Hex.
        eapply execute_invariant; [| exact H | exact Hex]. reflexivity.
  - intros cmd_str cmd_list d Ev Hd Hneed Hask. unfold run_command.
    rewrite Ev, Hd, Hneed, Hask. simpl negb. cbv iota.
    eexists. eexists. split; [reflexivity|]. simpl.
    repeat split; reflexivity.
Qed.

Lemma run_command_not_executed_not_succeeded_witness :
  exists evs r,
    run_command plain_console decline (CmdStr (lit "ipconfig /all"))
                true true true None = (evs, Returns r)
    /\ executed r = false /\ success r = false /\ confirmed r = false
    /\ existsb is_launch evs = false
    /\ evs = [Ev_confirm (lit "ipconfig /all") false;
              Ev_log (lit "command_cancelled")
                     (Some (lit "user_declined")) false].
Proof.
  apply (proj2 (run_command_not_executed_not_succeeded
                  plain_console decline (CmdStr (lit "ipconfig /all"))
                  true true true None)
               (lit "ipconfig /all") None false);
    reflexivity.
Defined.

Lemma execute_no_timeout p a cap sh cmd_str cmd_list res :
  existsb is_timeout_report
          (fst (execute p a cap sh cmd_str cmd_list res)) = false
  /\ Forall (fun e => forall arg s t, e = Ev_launch arg s t -> t = None)
            (fst (execute p a cap sh cmd_str cmd_list res)).
Proof.
  case_execute; simpl; split; try reflexivity;
    repeat constructor; intros; congruence.
Qed.

Lemma execute_waits p a cap sh cmd_str cmd_list res r :
  snd (execute p a cap sh cmd_str cmd_list res) = Returns r ->
  exited (process a) = true
  /\ (windows p = true -> exited (chcp a) = true).
Proof.
  unfold execute.
  destruct (windows p) eqn:Hw;
    destruct (chcp a) as [[?|] ? ? ? | ? | ?] eqn:Ec; simpl;
    destruct (process a) as [[?|] ? ? ? | ? | ?] eqn:Ep; simpl;
    try destruct (late_exception a); simpl; intros H;
    try discriminate; split; try reflexivity; intros; try discriminate;
    reflexivity.
Qed.

Lemma timeout_error_is_no_handler_text (msg : str) :
  lit "Error executing command: " ++ msg <> timeout_error
  /\ lit "Command or executable not found: " ++ msg <> timeout_error.
Proof. split; discriminate. Qed.

(** What the [try] block returns: with [executed] true always an exit
    code, and the text of the timeout handler only as the text the
    program itself wrote to its error stream. *)
Lemma execute_result p a cap sh cmd_str cmd_list res evs r :
  error res = [] ->
  execute p a cap sh cmd_str cmd_list res = (evs, Returns r) ->
  reports_timeout r = false
  /\ (executed r = true ->
      exists rc, return_code r = Some rc /\ success r = (rc =? 0))
  /\ (error r = timeout_error ->
      cap = true
      /\ exists secs rc out err,
          process a = Runs (Some secs) rc out err
          /\ decode_stream p (stream_encoding p (chcp a)) err
             = timeout_error).
Proof.
  intros Herr. unfold execute.
  destruct (if windows p then _ else _); [discriminate|].
  destruct (process a) as [[secs|] rc out err | msg | msg] eqn:Ep;
    simpl subprocess_run; cbv beta iota zeta; try discriminate.
  - destruct (late_exception a) as [late|]; intros H; inversion H; subst;
      clear H; unfold reports_timeout; simpl.
    + split; [reflexivity|]. split; [discriminate|].
      intros E. destruct (timeout_error_is_no_handler_text late) as [N _].
      destruct (N E).
    + split; [apply andb_false_r|]. split.
      * intros _. exists rc. split; reflexivity.
      * destruct cap.
        -- intros E. split; [reflexivity|].
           exists secs, rc, out, err. split; [reflexivity | exact E].
        -- rewrite Herr. discriminate.
  - intros H; inversion H; subst; clear H; unfold reports_timeout; simpl.
    split; [reflexivity|]. split; [discriminate|].
    intros E. destruct (timeout_error_is_no_handler_text msg) as [_ N].
    destruct (N E).
  - intros H; inversion H; subst; clear H; unfold reports_timeout; simpl.
    split; [reflexivity|]. split; [discriminate|].
    intros E. destruct (timeout_error_is_no_handler_text msg) as [N _].
    destruct (N E).
Qed.

(** C10.  No call of [run_command] takes the timeout handler and no
    result reports the Timeout outcome.  Every launch is made without a
    timeout; the record the handler writes (reason timeout) is never among
    the events; a call that launched anything returns only when what it
    launched has come to an end; and the dictionary returned is never the
    one the handler leaves: with [executed] true it always holds an exit
    code, which decides [success], and it holds the text "Command timed
    out." only when the output was captured and the program itself wrote
    that text to its error stream before it exited. *)
Theorem run_command_never_times_out
        (p : platform) (a : answers) (cmd : command)
        (capture_output shell require_confirmation : bool)
        (explanation : option str) :
  let call := run_command p a cmd capture_output shell require_confirmation
                          explanation in
  existsb is_timeout_report (fst call) = false
  /\ Forall (fun e => forall arg s t, e = Ev_launch arg s t -> t = None)
            (fst call)
  /\ (forall r, snd call = Returns r ->
                existsb is_launch (fst call) = true ->
                exited (process a) = true
                /\ (windows p = true -> exited (chcp a) = true))
  /\ (forall r, snd call = Returns r ->
                reports_timeout r = false
                /\ (executed r = true ->
                    exists rc, return_code r = Some rc
                               /\ success r = (rc =? 0))
                /\ (error r = timeout_error ->
                    capture_output = true
                    /\ exists secs rc out err,
                        process a = Runs (Some secs) rc out err
                        /\ decode_stream p (stream_encoding p (chcp a)) err
                           = timeout_error)).
Proof.
  unfold run_command.
  destruct (validate cmd shell) as [r0 | [cmd_str cmd_list]] eqn:Ev.
  { simpl. repeat split; try constructor; try discriminate;
      inversion H; subst; clear H;
      unfold validate in Ev;
      destruct shell, cmd as [s|[|x l]]; inversion Ev; subst;
      try reflexivity; discriminate. }
  destruct (Safety.is_dangerous_command cmd_str) as [d|].
  2:{ simpl. repeat split; try constructor; discriminate. }
  destruct (require_confirmation || d).
  - destruct (ask p (confirm_ask a) (input_line a) false); simpl negb;
      cbv iota.
    + match goal with
      | |- context [execute ?p ?a ?c ?s ?cs ?cl ?r] =>
          pose proof (execute_no_timeout p a c s cs cl r) as [Ht Hl];
          pose proof (@execute_waits p a c s cs cl r) as Hw;
          pose proof (fun evs r' =>
                        @execute_result p a c s cs cl r evs r' eq_refl)
            as Hr;
          destruct (execute p a c s cs cl r) as [evs o]
      end.
      simpl in *. split; [exact Ht|]. split; [|split].
      * constructor; [intros; congruence | exact Hl].
      * intros r Hr' _. apply (Hw r Hr').
      * intros r Hr'. subst o. apply (Hr evs r eq_refl).
    + simpl. split; [reflexivity|]. split; [|split].
      * repeat constructor; intros; congruence.
      * intros r _ Hf. discriminate.
      * intros r Hr. inversion Hr; subst; clear Hr.
        unfold reports_timeout. simpl.
        split; [reflexivity|]. split; discriminate.
  - match goal with
    | |- context [execute ?p ?a ?c ?s ?cs ?cl ?r] =>
        pose proof (execute_no_timeout p a c s cs cl r) as [Ht Hl];
        pose proof (@execute_waits p a c s cs cl r) as Hw;
        pose proof (fun evs r' =>
                      @execute_result p a c s cs cl r evs r' eq_refl)
          as Hr
    end.
    simpl. split; [exact Ht|]. split; [exact Hl|]. split.
    + intros r Hr' _. apply (Hw r Hr').
    + intros r Hr'.
      match goal with
      | H : snd ?e = Returns r |- _ =>
          destruct e as [evs o] eqn:Ee; simpl in H; subst o
      end.
      apply (Hr evs r Ee).
Qed.

Lemma run_command_never_times_out_witness :
  snd sfc_call
  = Returns (MkResult (lit "sfc /scannow") false true (lit "done") []
                      (Some 0%Z) true true)
  /\ existsb is_launch (fst sfc_call) = true
  /\ exited (process accept) = true
  /\ (windows windows_console = true -> exited (chcp accept) = true)
  /\ reports_timeout (MkResult (lit "sfc /scannow") false true (lit "done")
                               [] (Some 0%Z) true true) = false.
Proof.
  split; [reflexivity|]. split; [reflexivity|].
  pose proof (run_command_never_times_out
                windows_console accept
                (CmdList [lit "sfc"; lit "/scannow"])
                true false true None) as (_ & _ & Hwait & Hres).
  destruct (Hwait (MkResult (lit "sfc /scannow") false true (lit "done") []
                            (Some 0%Z) true true)
                  eq_refl eq_refl) as [Hp Hc].
  split; [exact Hp|]. split; [exact Hc|].
  exact (proj1 (Hres (MkResult (lit "sfc /scannow") false true (lit "done")
                               [] (Some 0%Z) true true)
                     eq_refl)).
Defined.

(** A process that never exits is waited for without end. *)
Lemma run_command_waits_forever :
  snd (run_command plain_console accept_endless
                   (CmdStr (lit "ping -t localhost")) true true true None)
  = Never_returns.
Proof. reflexivity. Qed.

End ExecFacts.

(* ====================================================================== *)
(** * The stable sort *)
(* ====================================================================== *)

Module PySortFacts.

Import PySort.

Section Stable.
Variable A : Type.
Variable before : A -> A -> bool.

Lemma insert_perm (x : A) (l : list A) :
  Permutation (insert before x l) (x :: l).
Proof.
  induction l as [|y l IH]; simpl.
  - apply Permutation_refl.
  - destruct (before x y).
    + apply Permutation_refl.
    + apply perm_trans with (y :: x :: l).
      * apply perm_skip, IH.
      * apply perm_swap.
Qed.

Lemma sort_perm (l : list A) : Permutation (sort before l) l.
Proof.
  induction l as [|x l IH]; simpl.
  - apply perm_nil.
  - apply perm_trans with (x :: sort before l).
    + apply insert_perm.
    + apply perm_skip, IH.
Qed.

Hypothesis before_total :
  forall x y, before x y = false -> before y x = true.

Lemma insert_hd (x a : A) (l : list A) :
  HdRel (in_order before) a l -> in_order before a x ->
  HdRel (in_order before) a (insert before x l).
Proof.
  intros H Hax. destruct l as [|y l]; simpl.
  - constructor. exact Hax.
  - destruct (before x y); constructor.
    + exact Hax.
    + inversion H; assumption.
Qed.

Lemma insert_sorted (x : A) (l : list A) :
  Sorted (in_order before) l -> Sorted (in_order before) (insert before x l).
Proof.
  induction 1 as [|y l Hs IH Hhd]; simpl.
  - repeat constructor.
  - destruct (before x y) eqn:E.
    + constructor; [constructor; assumption | constructor; exact E].
    + constructor; [exact IH|].
      apply insert_hd; [exact Hhd | apply before_total, E].
Qed.

Lemma sort_sorted (l : list A) : Sorted (in_order before) (sort before l).
Proof.
  induction l as [|x l IH]; simpl.
  - constructor.
  - apply insert_sorted, IH.
Qed.
End Stable.

Lemma sort_by_key_reverse_descending (A : Type) (key : A -> Z) (l : list A) :
  StronglySorted (fun a b => (key b <= key a)%Z) (sort_by_key_reverse key l).
Proof.
  apply Sorted_StronglySorted.
  - intros a b c Hab Hbc. lia.
  - unfold sort_by_key_reverse.
    pose proof (@sort_sorted A (fun x y => Z.leb (key y) (key x))) as H.
    assert (Ht : forall x y, (key y <=? key x)%Z = false ->
                             (key x <=? key y)%Z = true).
    { intros x y E. apply Z.leb_gt in E. apply Z.leb_le. lia. }
    specialize (H Ht l).
    eapply Sorted_ind with (P := fun l => Sorted _ l); [| | exact H].
    + constructor.
    + intros a l0 _ IH Hhd. constructor; [exact IH|].
      destruct Hhd as [|b l1 Hb]; constructor. apply Z.leb_le, Hb.
Qed.

Lemma sort_by_key_ascending (A : Type) (key : A -> Z) (l : list A) :
  StronglySorted (fun a b => (key a <= key b)%Z) (sort_by_key key l).
Proof.
  apply Sorted_StronglySorted.
  - intros a b c Hab Hbc. lia.
  - unfold sort_by_key.
    pose proof (@sort_sorted A (fun x y => Z.leb (key x) (key y))) as H.
    assert (Ht : forall x y, (key x <=? key y)%Z = false ->
                             (key y <=? key x)%Z = true).
    { intros x y E. apply Z.leb_gt in E. apply Z.leb_le. lia. }
    specialize (H Ht l).
    eapply Sorted_ind with (P := fun l => Sorted _ l); [| | exact H].
    + constructor.
    + intros a l0 _ IH Hhd. constructor; [exact IH|].
      destruct Hhd as [|b l1 Hb]; constructor. apply Z.leb_le, Hb.
Qed.

Lemma sort_by_key_perm (A : Type) (key : A -> Z) (l : list A) :
  Permutation (sort_by_key key l) l.
Proof. apply sort_perm. Qed.

Lemma sort_by_key_reverse_perm (A : Type) (key : A -> Z) (l : list A) :
  Permutation (sort_by_key_reverse key l) l.
Proof. apply sort_perm. Qed.

End PySortFacts.

(* ====================================================================== *)
(** * find_time_clusters *)
(* ====================================================================== *)

Module ClustersFacts.

Import Datetime Clusters Scenarios PySortFacts.
Open Scope Z_scope.

Lemma timedelta_hours_value (h limit : Z) :
  timedelta_hours h = Some limit -> limit = 60 * h.
Proof.
  unfold timedelta_hours. destruct (_ && _); congruence.
Qed.

Lemma last_snoc (A : Type) (l : list A) (x d : A) : last (l ++ [x]) d = x.
Proof.
  induction l as [|y l IH]; simpl.
  - reflexivity.
  - destruct (l ++ [x]) eqn:E.
    + destruct l; discriminate.
    + exact IH.
Qed.

Lemma last_cons (A : Type) (l : list A) (x d : A) :
  last (x :: l) d = last l x.
Proof.
  revert x d. induction l as [|y l IH]; intros x d.
  - reflexivity.
  - change (last (x :: y :: l) d) with (last (y :: l) d).
    rewrite (IH y d), (IH y x). reflexivity.
Qed.

Lemma gaps_within_snoc (limit : Z) (first x : datetime * Z)
      (members : list (datetime * Z)) :
  gaps_within limit (first :: members) ->
  minutes_of (fst x) - minutes_of (fst (last members first)) <= limit ->
  gaps_within limit (first :: members ++ [x]).
Proof.
  revert first. induction members as [|b members IH]; intros first H Hx.
  - simpl in *. split; [exact Hx | exact I].
  - destruct H as [Hab Hrest]. split; [exact Hab|].
    apply IH; [exact Hrest|].
    rewrite last_cons in Hx. exact Hx.
Qed.

Lemma total_snoc (l : list (datetime * Z)) (x : datetime * Z) :
  total (l ++ [x]) = total l + snd x.
Proof.
  unfold total. rewrite map_app, fold_right_app. simpl.
  induction (map snd l) as [|a m IH]; simpl; lia.
Qed.

Section Scan.
Variables min_cluster_size max_gap_hours : Z.
Variable full : list (datetime * Z).

Lemma close_good done l cur clusters :
  full = done ++ l ->
  open_ok (60 * max_gap_hours) done (Some cur) ->
  Forall (good_cluster min_cluster_size max_gap_hours full) clusters ->
  Forall (good_cluster min_cluster_size max_gap_hours full)
         (close min_cluster_size cur clusters).
Proof.
  intros Hfull (pre & first & members & Hdone & Hsum) Hcl.
  unfold close. destruct (min_cluster_size <=? count cur) eqn:E;
    [|exact Hcl].
  apply Forall_app. split; [exact Hcl|]. constructor; [|constructor].
  split.
  - simpl. apply Z.leb_le, E.
  - exists pre, first, members, l, (start_dt cur), (end_dt cur).
    split.
    + rewrite Hfull, Hdone, <- app_assoc. reflexivity.
    + split; [exact Hsum | split; reflexivity].
Qed.

Lemma scan_invariant l : forall done current clusters clusters' current',
  full = done ++ l ->
  open_ok (60 * max_gap_hours) done current ->
  Forall (good_cluster min_cluster_size max_gap_hours full) clusters ->
  scan min_cluster_size max_gap_hours current clusters l
  = Some (clusters', current') ->
  Forall (good_cluster min_cluster_size max_gap_hours full) clusters'
  /\ open_ok (60 * max_gap_hours) full current'.
Proof.
  induction l as [|[dt n] l IH]; intros done current clusters cl' cur'
    Hfull Hopen Hcl Hscan.
  - simpl in Hscan. injection Hscan as <- <-.
    rewrite app_nil_r in Hfull. subst done. split; assumption.
  - simpl in Hscan.
    assert (Hfull' : full = (done ++ [(dt, n)]) ++ l)
      by (rewrite <- app_assoc; exact Hfull).
    destruct current as [cur|].
    + destruct (timedelta_hours max_gap_hours) as [limit|] eqn:Et;
        [|discriminate].
      apply timedelta_hours_value in Et. subst limit.
      destruct (_ <=? _) eqn:Egap.
      * (* the bucket joins the cluster *)
        apply (IH _ _ _ _ _ Hfull') in Hscan; [exact Hscan| |exact Hcl].
        destruct Hopen as (pre & first & members & Hdone & Hs & He & Hc & Hg).
        exists pre, first, (members ++ [(dt, n)]).
        split; [rewrite Hdone, <- app_assoc; reflexivity|].
        simpl start_dt; simpl end_dt; simpl count.
        repeat split.
        -- exact Hs.
        -- rewrite last_snoc. reflexivity.
        -- change (first :: members ++ [(dt, n)])
             with ((first :: members) ++ [(dt, n)]).
           rewrite total_snoc, Hc. reflexivity.
        -- apply gaps_within_snoc; [exact Hg|].
           simpl fst. rewrite <- He. apply Z.leb_le, Egap.
      * (* the gap is too large: close, and start anew *)
        apply (IH _ _ _ _ _ Hfull') in Hscan; [exact Hscan| |].
        -- exists done, (dt, n), []. split; [reflexivity|].
           repeat split. simpl. unfold total. simpl. lia.
        -- apply (@close_good done ((dt, n) :: l)); assumption.
    + (* the first bucket *)
      apply (IH _ _ _ _ _ Hfull') in Hscan; [exact Hscan| |exact Hcl].
      simpl in Hopen. subst done.
      exists [], (dt, n), []. split; [reflexivity|].
      repeat split. simpl. unfold total. simpl. lia.
Qed.

Lemma scan_returns l : forall current clusters,
  timedelta_hours max_gap_hours <> None ->
  exists r, scan min_cluster_size max_gap_hours current clusters l = Some r.
Proof.
  induction l as [|[dt n] l IH]; intros current clusters Ht; simpl.
  - eexists. reflexivity.
  - destruct current as [cur|]; [|apply IH, Ht].
    destruct (timedelta_hours max_gap_hours); [|congruence].
    destruct (_ <=? _); apply IH; congruence.
Qed.

Lemma cluster_sorted_times_good r :
  cluster_sorted_times min_cluster_size max_gap_hours full = Some r ->
  Forall (good_cluster min_cluster_size max_gap_hours full) r.
Proof.
  unfold cluster_sorted_times.
  destruct (scan _ _ None [] full) as [[clusters current]|] eqn:Es;
    [|discriminate].
  intros H. injection H as <-.
  apply (@scan_invariant full [] None [] clusters current) in Es;
    [| reflexivity | reflexivity | constructor].
  destruct Es as [Hcl Hopen].
  assert (Hall : Forall (good_cluster min_cluster_size max_gap_hours full)
                   match current with
                   | Some cur => close min_cluster_size cur clusters
                   | None => clusters
                   end).
  { destruct current as [cur|]; [|exact Hcl].
    apply (@close_good full []); [symmetry; apply app_nil_r | | ];
      assumption. }
  apply Forall_forall. intros c Hin. rewrite Forall_forall in Hall.
  apply Hall.
  eapply Permutation_in; [apply sort_by_key_reverse_perm | exact Hin].
Qed.
End Scan.

(** C9.  For all buckets and all settings: the call returns (whenever the
    gap is a representable [timedelta], as the default of one hour is);
    every cluster returned has a count of at least [min_cluster_size];
    every cluster returned summarises a run of neighbouring buckets of the
    sorted list in which each bucket is at most [max_gap_hours] after the
    one before, its count their sum (this holds for the last, open cluster
    as for the others: it is emitted under the same test); and the list
    returned is in descending order of count. *)
Theorem find_time_clusters_invariants
        (timestamps : list (str * Z)) (min_cluster_size max_gap_hours : Z) :
  (timedelta_hours max_gap_hours <> None ->
   exists r,
     find_time_clusters timestamps min_cluster_size max_gap_hours = Some r)
  /\
  (forall r,
      find_time_clusters timestamps min_cluster_size max_gap_hours = Some r ->
      Forall (fun c => min_cluster_size <= c_count c) r
      /\ Forall (is_run max_gap_hours (sort_times (parse_buckets timestamps)))
                r
      /\ StronglySorted (fun a b => c_count b <= c_count a) r).
Proof.
  split.
  - intros Ht. unfold find_time_clusters.
    destruct timestamps as [|b ts]; [eexists; reflexivity|].
    destruct (parse_buckets (b :: ts)) as [|x parsed];
      [eexists; reflexivity|].
    unfold cluster_sorted_times.
    destruct (@scan_returns min_cluster_size max_gap_hours
                            (sort_times (x :: parsed)) None [] Ht)
      as [[clusters current] ->].
    eexists. reflexivity.
  - intros r. unfold find_time_clusters.
    destruct timestamps as [|b ts].
    { intros H. injection H as <-. repeat split; constructor. }
    destruct (parse_buckets (b :: ts)) as [|x parsed] eqn:Ep.
    { intros H. injection H as <-. repeat split; constructor. }
    intros H.
    pose proof (cluster_sorted_times_good _ _ _ H) as Hgood.
    split; [|split].
    + eapply Forall_impl; [|exact Hgood]. intros c [Hc _]. exact Hc.
    + eapply Forall_impl; [|exact Hgood]. intros c [_ Hc]. exact Hc.
    + unfold cluster_sorted_times in H.
      destruct (scan _ _ None [] _) as [[clusters current]|];
        [|discriminate].
      injection H as <-. apply sort_by_key_reverse_descending.
Qed.

Lemma find_time_clusters_invariants_witness :
  exists r,
    find_time_clusters buckets_by_hour default_min_cluster_size
                       default_max_gap_hours = Some r
    /\ Forall (fun c => 3 <= c_count c) r
    /\ StronglySorted (fun a b => c_count b <= c_count a) r.
Proof.
  destruct (proj1 (find_time_clusters_invariants
                     buckets_by_hour default_min_cluster_size
                     default_max_gap_hours)) as [r Hr].
  - discriminate.
  - exists r. split; [exact Hr|].
    destruct (proj2 (find_time_clusters_invariants
                       buckets_by_hour default_min_cluster_size
                       default_max_gap_hours) r Hr) as (H1 & _ & H3).
    split; assumption.
Defined.

(** C2 as the specification states it does not hold.  The keys of its
    example carry minutes, which the format of line 761 does not parse:
    every bucket is skipped and nothing is returned.  Handed to the loop
    as parsed times, the buckets give two clusters: the bucket of 13:00
    has count 5, which is not below 3. *)
Lemma spec_example_is_not_one_cluster :
  ~ one_cluster_10_to_1030 (find_time_clusters buckets_with_minutes 3 1)
  /\ ~ one_cluster_10_to_1030 (cluster_sorted_times 3 1 times_with_minutes)
  /\ find_time_clusters buckets_with_minutes 3 1 = Some []
  /\ (exists rest,
         cluster_sorted_times 3 1 times_with_minutes
         = Some (cluster_13 :: rest)).
Proof.
  unfold one_cluster_10_to_1030.
  split; [vm_compute; discriminate|].
  split; [vm_compute; discriminate|].
  split; [vm_compute; reflexivity|].
  eexists. vm_compute. reflexivity.
Qed.

(** C2, amended.  With a gap of one hour and a minimum of 3: the loop over
    the buckets 10:00 (1), 10:30 (2) and 13:00 (5) returns two clusters,
    the bucket of 13:00 alone with count 5 first, then 10:00-10:30 with
    count 3; [find_time_clusters] on the hour keys 10 (1), 11 (2), 13 (5)
    returns 13:00-13:00 with count 5, then 10:00-11:00 with count 3; and
    with a count of 2 at 13 the lone bucket is dropped and 10:00-11:00 is
    the one cluster returned. *)
Theorem spec_example_two_clusters :
  cluster_sorted_times 3 1 times_with_minutes
  = Some [cluster_13; cluster_10_to_1030]
  /\ find_time_clusters buckets_by_hour 3 1
     = Some [cluster_13; cluster_10_to_11]
  /\ find_time_clusters buckets_small_tail 3 1 = Some [cluster_10_to_11].
Proof.
  repeat split; vm_compute; reflexivity.
Qed.

(** The sorted list the clusters are runs of is in ascending order of
    time, so the gaps of a run are never negative. *)
Lemma sort_times_ascending (parsed : list (datetime * Z)) :
  StronglySorted (fun a b => minutes_of (fst a) <= minutes_of (fst b))
                 (sort_times parsed).
Proof.
  exact (sort_by_key_ascending (fun x => minutes_of (fst x)) parsed).
Qed.

End ClustersFacts.

(* ====================================================================== *)
(** * The execution loop *)
(* ====================================================================== *)

Module LoopFacts.

Import Extract Exec Loop Scenarios PyFacts.

Lemma in_history_app (s : str) (h h' : list history_entry) :
  in_history s (h ++ h') = in_history s h || in_history s h'.
Proof. apply existsb_app. Qed.

Lemma in_history_here (s : str) (h h' : list history_entry) :
  in_history s (h ++ H_command s :: h') = true.
Proof.
  rewrite in_history_app. simpl. rewrite eqs_refl.
  apply orb_true_iff. right. reflexivity.
Qed.

Lemma in_history_grows (s : str) (h h' : list history_entry) :
  in_history s h = true -> in_history s (h ++ h') = true.
Proof. intros H. rewrite in_history_app, H. reflexivity. Qed.

Lemma nth_error_list_insert_before (A : Type) (n i : nat) (x : A)
      (l : list A) :
  (i < n)%nat -> (n <= List.length l)%nat ->
  nth_error (list_insert n x l) i = nth_error l i.
Proof.
  intros Hi Hn. unfold list_insert.
  rewrite nth_error_app1 by (rewrite length_firstn; lia).
  rewrite nth_error_firstn.
  destruct (Nat.ltb_spec i n); [reflexivity | lia].
Qed.

Lemma nth_error_list_insert_at (A : Type) (n : nat) (x : A) (l : list A) :
  (n <= List.length l)%nat -> nth_error (list_insert n x l) n = Some x.
Proof.
  intros Hn. unfold list_insert.
  rewrite nth_error_app2 by (rewrite length_firstn; lia).
  rewrite length_firstn.
  replace (n - Nat.min n (List.length l))%nat with 0%nat by lia.
  reflexivity.
Qed.

Section Body.
Variable p : platform.
Variable resolve_purpose : str -> item -> str.
Variable response : str.

Lemma after_run_continue e st cmd_str r st' :
  after_run p e st cmd_str r = Continue st' ->
  session_command_history st' = session_command_history st
  /\ (executable_commands st' = executable_commands st
      /\ (current_command_index st' = current_command_index st
          \/ current_command_index st' = current_command_index st + 1)%nat
      \/ exists c,
          executable_commands st'
          = list_insert (current_command_index st + 1) c
                        (executable_commands st)
          /\ current_command_index st'
             = (current_command_index st + 1)%nat).
Proof.
  unfold after_run. destruct (executed r); [|discriminate].
  destruct (negb (success r) || negb _).
  - destruct (decide_next_action p (llm_response e)) as [|c|].
    + intros H. injection H as <-. simpl. auto.
    + destruct (ask p _ _ true); [|discriminate].
      intros H. injection H as <-. simpl. split; [reflexivity|].
      right. exists c. auto.
    + discriminate.
  - intros H. injection H as <-. simpl. auto.
Qed.

Lemma loop_body_continue e st st' :
  loop_body p resolve_purpose response e st = Continue st' ->
  goes_on st st'.
Proof.
  unfold loop_body.
  destruct (nth_error _ _) as [cmd_info|] eqn:En; [|discriminate].
  destruct (in_history _ _); [discriminate|].
  destruct (precheck p e (value cmd_info)) as [evs|evs|evs].
  - destruct (choose_mode p (value cmd_info)) as [use_shell arg].
    destruct (run_command _ _ _ _ _ _ _) as [run_evs o].
    destruct o as [r| |]; try discriminate.
    intros H. apply after_run_continue in H. simpl in H.
    destruct H as [Hh Hp].
    apply Go with (cmd_info := cmd_info)
                  (more := [H_attempt (value cmd_info) (executed r)
                                      (confirmed r) (success r) (output r)
                                      (error r) (return_code r)]).
    + exact En.
    + rewrite Hh, <- app_assoc. reflexivity.
    + exact Hp.
  - intros H. injection H as <-.
    apply Go with (cmd_info := cmd_info) (more := []).
    + exact En.
    + reflexivity.
    + left. simpl. auto.
  - discriminate.
Qed.

Lemma goes_on_keeps_prefix st st' :
  goes_on st st' -> prefix_in_history st -> prefix_in_history st'.
Proof.
  intros [cmd_info more En Hh Hp] Hinv i it Hi Hnth.
  rewrite Hh.
  assert (Hlen : (current_command_index st
                  < List.length (executable_commands st))%nat).
  { apply nth_error_Some. rewrite En. discriminate. }
  assert (Hold : forall j x,
             (j < current_command_index st + 1)%nat ->
             nth_error (executable_commands st) j = Some x ->
             in_history (value x)
                        (session_command_history st
                         ++ H_command (value cmd_info) :: more) = true).
  { intros j x Hj Hx.
    destruct (Nat.eq_dec j (current_command_index st)) as [->|Hne].
    - rewrite En in Hx. injection Hx as <-. apply in_history_here.
    - apply in_history_grows. apply (Hinv j x); [lia | exact Hx]. }
  destruct Hp as [[Hplan Hidx] | (c & Hplan & Hidx)].
  - rewrite Hplan in Hnth. apply (Hold i it); [|exact Hnth].
    destruct Hidx as [E|E]; rewrite E in Hi; lia.
  - rewrite Hplan in Hnth. rewrite Hidx in Hi.
    rewrite nth_error_list_insert_before in Hnth by lia.
    apply (Hold i it); assumption.
Qed.

Lemma run_keeps_prefix envs : forall st st',
  run p resolve_purpose response envs st = Continue st' ->
  prefix_in_history st -> prefix_in_history st'.
Proof.
  induction envs as [|e envs IH]; intros st st' H Hinv; simpl in H.
  - injection H as <-. exact Hinv.
  - destruct (loop_body p resolve_purpose response e st) as [st1| | |] eqn:E;
      try discriminate.
    apply (IH st1 st' H).
    apply (goes_on_keeps_prefix (loop_body_continue _ _ E) Hinv).
Qed.

Lemma initial_prefix plan : prefix_in_history (initial_state plan).
Proof. intros i it Hi. simpl in Hi. lia. Qed.

(** C3.  In every state the loop reaches, from any plan and under any
    answers: when the command under the cursor is, letter for letter,
    the command of an earlier step of the plan, that command is in the
    history of the session and the iteration ends in the [break] of
    line 1614, with the state as it was: nothing is executed. *)
Theorem second_occurrence_stops_loop
        (plan : list item) (envs : list env) (st : state) (e : env)
        (i : nat) (first second : item) :
  run p resolve_purpose response envs (initial_state plan) = Continue st ->
  (i < current_command_index st)%nat ->
  nth_error (executable_commands st) i = Some first ->
  nth_error (executable_commands st) (current_command_index st)
  = Some second ->
  value first = value second ->
  in_history (value second) (session_command_history st) = true
  /\ loop_body p resolve_purpose response e st = Break st.
Proof.
  intros Hrun Hi Hfirst Hsecond Hsame.
  pose proof (@run_keeps_prefix envs _ _ Hrun (@initial_prefix plan)) as Hinv.
  assert (Hin : in_history (value second) (session_command_history st)
                = true).
  { rewrite <- Hsame. apply (Hinv i first Hi Hfirst). }
  split; [exact Hin|].
  unfold loop_body. rewrite Hsecond, Hin. reflexivity.
Qed.

(** The step the suggestion of the model is taken at, for any plan. *)
Lemma suggest_new_step (e : env) (st : state) (cmd_info c : item)
      (evs : list loop_event) (run_evs : list event) (r : result) :
  nth_error (executable_commands st) (current_command_index st)
  = Some cmd_info ->
  in_history (value cmd_info) (session_command_history st) = false ->
  precheck p e (value cmd_info) = Pre_run evs ->
  run_command p (run_answers e) (snd (choose_mode p (value cmd_info)))
              true (fst (choose_mode p (value cmd_info))) true
              (Some (resolve_purpose response cmd_info))
  = (run_evs, Returns r) ->
  executed r = true ->
  success r = false
  \/ Nat.eqb (current_command_index st)
             (List.length (executable_commands st) - 1) = false ->
  decide_next_action p (llm_response e) = A_suggest_new c ->
  exists hist' tr',
    loop_body p resolve_purpose response e st
    = if ask p (run_new_ask e) (run_new_input e) true
      then Continue
             (MkState (list_insert (current_command_index st + 1) c
                                   (executable_commands st))
                      (current_command_index st + 1) hist' tr')
      else Break (MkState (executable_commands st)
                          (current_command_index st) hist' tr').
Proof.
  intros En Hh Hpre Hrun Hex Hcons Hact.
  unfold loop_body. rewrite En, Hh, Hpre.
  destruct (choose_mode p (value cmd_info)) as [use_shell arg].
  simpl in Hrun. rewrite Hrun.
  unfold after_run. simpl executed. rewrite Hex. simpl.
  assert (Hc : negb (success r)
               || negb (Nat.eqb (current_command_index st)
                          (List.length (executable_commands st) - 1))
               = true).
  { destruct Hcons as [-> | ->]; [reflexivity | apply orb_true_r]. }
  rewrite Hc, Hact.
  eexists. eexists.
  destruct (ask p (run_new_ask e) (run_new_input e) true); reflexivity.
Qed.

(** C4.  With the plan [A, B] and the cursor on [A]: when [A] was
    executed and the model answers SUGGEST_NEW with the command [C],
    then, if the operator confirms [C], the iteration goes on with the
    plan [A, C, B] and the cursor on [C], and if the operator declines,
    the iteration ends in a [break] with the plan as it was. *)
Theorem suggest_new_inserts_after_cursor
        (e : env) (A B C : item) (hist : list history_entry)
        (tr evs : list loop_event) (run_evs : list event) (r : result) :
  in_history (value A) hist = false ->
  precheck p e (value A) = Pre_run evs ->
  run_command p (run_answers e) (snd (choose_mode p (value A)))
              true (fst (choose_mode p (value A))) true
              (Some (resolve_purpose response A))
  = (run_evs, Returns r) ->
  executed r = true ->
  decide_next_action p (llm_response e) = A_suggest_new C ->
  exists hist' tr',
    loop_body p resolve_purpose response e (MkState [A; B] 0 hist tr)
    = if ask p (run_new_ask e) (run_new_input e) true
      then Continue (MkState [A; C; B] 1 hist' tr')
      else Break (MkState [A; B] 0 hist' tr').
Proof.
  intros Hh Hpre Hrun Hex Hact.
  apply (@suggest_new_step e (MkState [A; B] 0 hist tr) A C evs run_evs r);
    try assumption; try reflexivity.
  right. reflexivity.
Qed.

Lemma commands_run_app (a b : list loop_event) :
  commands_run (a ++ b) = commands_run a ++ commands_run b.
Proof. apply flat_map_app. Qed.

Lemma precheck_runs_nothing (e : env) (cmd_str : str) :
  match precheck p e cmd_str with
  | Pre_run evs | Pre_skip evs | Pre_abort evs => commands_run evs = []
  end.
Proof.
  unfold precheck. destruct (windows p); [|reflexivity].
  destruct (potential_cmd_name cmd_str) as [name|]; [|reflexivity].
  destruct (_ && _); [|reflexivity].
  destruct (run_command _ _ _ _ _ _ _) as [evs o].
  destruct o as [r| |]; try reflexivity.
  destruct (negb (success r)).
  - destruct (negb _); reflexivity.
  - destruct (output r); [reflexivity|].
    destruct (strip _); reflexivity.
Qed.

Lemma after_run_reached (e : env) (st : state) (cmd_str : str) (r : result) :
  session_command_history (reached (after_run p e st cmd_str r))
  = session_command_history st
  /\ commands_run (trace (reached (after_run p e st cmd_str r)))
     = commands_run (trace st).
Proof.
  unfold after_run. destruct (executed r); [|split; reflexivity].
  destruct (negb (success r) || negb _).
  - destruct (decide_next_action p (llm_response e)) as [|c|];
      try destruct (ask p _ _ true); simpl;
      rewrite !commands_run_app; simpl; rewrite !app_nil_r;
      split; reflexivity.
  - simpl. rewrite commands_run_app. simpl. rewrite app_nil_r.
    split; reflexivity.
Qed.

Lemma runs_recorded_grows (st : state) (h : list history_entry)
      (tr : list loop_event) :
  runs_recorded st ->
  commands_run tr = commands_run (trace st) ->
  runs_recorded (MkState (executable_commands st) (current_command_index st)
                         (session_command_history st ++ h) tr).
Proof.
  intros [Hin Hnd] Htr. split; simpl; rewrite Htr.
  - intros s Hs. apply in_history_grows, Hin, Hs.
  - exact Hnd.
Qed.

(** Whatever an iteration does, no command string is handed to
    [run_command] a second time. *)
Lemma loop_body_runs_recorded (e : env) (st : state) :
  runs_recorded st ->
  runs_recorded (reached (loop_body p resolve_purpose response e st)).
Proof.
  intros Hrec. unfold loop_body.
  destruct (nth_error _ _) as [cmd_info|]; [|exact Hrec].
  destruct (in_history _ _) eqn:Eh; [exact Hrec|].
  pose proof (precheck_runs_nothing e (value cmd_info)) as Hpre.
  destruct (precheck p e (value cmd_info)) as [evs|evs|evs].
  - destruct (choose_mode p (value cmd_info)) as [use_shell arg].
    destruct (run_command _ _ _ _ _ _ _) as [run_evs o].
    assert (Hnew : runs_recorded
                     (MkState (executable_commands st)
                              (current_command_index st)
                              (session_command_history st
                               ++ [H_command (value cmd_info)])
                              (trace st ++ evs
                               ++ [L_run (value cmd_info) run_evs]))).
    { destruct Hrec as [Hin Hnd]. split; simpl;
        rewrite !commands_run_app, Hpre; simpl.
      - intros s Hs. apply in_app_or in Hs. destruct Hs as [Hs | [<- | []]].
        + apply in_history_grows, Hin, Hs.
        + apply in_history_here.
      - apply NoDup_app; [exact Hnd | repeat constructor; intros [] |].
        intros s Hs [<- | []]. apply Hin in Hs. congruence. }
    destruct o as [r| |]; try exact Hnew.
    match goal with
    | |- runs_recorded (reached (after_run p e ?st1 ?c r)) =>
        destruct (after_run_reached e st1 c r) as [Hh Ht];
        destruct Hnew as [Hin Hnd]
    end.
    split.
    + intros s Hs. rewrite Hh. rewrite Ht in Hs. simpl.
      rewrite in_history_app. simpl in Hin. rewrite (Hin s Hs). reflexivity.
    + rewrite Ht. exact Hnd.
  - simpl. apply (@runs_recorded_grows st [H_command (value cmd_info)]);
      [exact Hrec|].
    rewrite commands_run_app, Hpre. apply app_nil_r.
  - simpl. apply (@runs_recorded_grows st [H_command (value cmd_info)]);
      [exact Hrec|].
    rewrite commands_run_app, Hpre. apply app_nil_r.
Qed.

(** In a whole session, however it ends, every command string is executed
    at most once. *)
Lemma no_command_run_twice (plan : list item) (envs : list env) :
  NoDup (commands_run
           (trace (reached (run p resolve_purpose response envs
                                (initial_state plan))))).
Proof.
  assert (H : forall st, runs_recorded st ->
                runs_recorded
                  (reached (run p resolve_purpose response envs st))).
  { induction envs as [|e envs IH]; intros st Hst; simpl; [exact Hst|].
    pose proof (loop_body_runs_recorded e Hst) as Hstep.
    destruct (loop_body p resolve_purpose response e st) as [st'| | |];
      try exact Hstep.
    apply IH. exact Hstep. }
  apply H. split; simpl; [intros s [] | constructor].
Qed.

End Body.

Lemma second_occurrence_stops_loop_witness :
  nth_error (executable_commands after_first_of_twice) 0 = Some step_A
  /\ nth_error (executable_commands after_first_of_twice) 1 = Some step_A
  /\ current_command_index after_first_of_twice = 1%nat
  /\ commands_run (trace after_first_of_twice) = [lit "ipconfig /all"]
  /\ in_history (value step_A)
                (session_command_history after_first_of_twice) = true
  /\ loop_body plain_console purpose_is_context [] env_proceed
               after_first_of_twice
     = Break after_first_of_twice.
Proof.
  split; [reflexivity|]. split; [reflexivity|]. split; [reflexivity|].
  split; [reflexivity|].
  apply (@second_occurrence_stops_loop
           plain_console purpose_is_context [] [step_A; step_A]
           [env_proceed] after_first_of_twice env_proceed 0 step_A step_A);
    first [reflexivity | vm_compute; apply le_n].
Defined.

Lemma suggest_new_inserts_after_cursor_witness :
  (exists hist' tr',
      loop_body plain_console purpose_is_context [] env_suggest_taken
                (initial_state [step_A; step_B])
      = Continue (MkState [step_A; step_C; step_B] 1 hist' tr'))
  /\ (exists hist' tr',
         loop_body plain_console purpose_is_context [] env_suggest_declined
                   (initial_state [step_A; step_B])
         = Break (MkState [step_A; step_B] 0 hist' tr')).
Proof.
  split.
  - destruct (@suggest_new_inserts_after_cursor
                plain_console purpose_is_context [] env_suggest_taken
                step_A step_B step_C [] [] []
                (fst (run_command plain_console accept
                        (CmdList [lit "ipconfig"; lit "/all"])
                        true false true
                        (Some (lit "Look at the adapters"))))
                (MkResult (lit "ipconfig /all") false true (lit "done") []
                          (Some 0%Z) true true)
                eq_refl eq_refl eq_refl eq_refl eq_refl)
      as (h & t & H).
    exists h, t. exact H.
  - destruct (@suggest_new_inserts_after_cursor
                plain_console purpose_is_context [] env_suggest_declined
                step_A step_B step_C [] [] []
                (fst (run_command plain_console accept
                        (CmdList [lit "ipconfig"; lit "/all"])
                        true false true
                        (Some (lit "Look at the adapters"))))
                (MkResult (lit "ipconfig /all") false true (lit "done") []
                          (Some 0%Z) true true)
                eq_refl eq_refl eq_refl eq_refl eq_refl)
      as (h & t & H).
    exists h, t. exact H.
Defined.

End LoopFacts.

(* ====================================================================== *)
(** * The regular expressions: every match takes up text *)
(* ====================================================================== *)

Module ReFacts.

Import Re.

Lemma literal_length (p s rest : str) :
  literal p s = Some rest -> List.length s = List.length p + List.length rest.
Proof.
  revert s. induction p as [|x p IH]; intros [|y s]; simpl; intros H;
    try discriminate.
  - injection H as <-. reflexivity.
  - injection H as <-. reflexivity.
  - destruct (eqc x y); [|discriminate]. rewrite (IH _ H). reflexivity.
Qed.

Lemma literal_ci_length (p g s g' rest : str) :
  literal_ci p g s = Some (g', rest) ->
  List.length s = List.length p + List.length rest.
Proof.
  revert g s. induction p as [|x p IH]; intros g [|y s]; simpl; intros H;
    try discriminate.
  - injection H as _ <-. reflexivity.
  - injection H as _ <-. reflexivity.
  - destruct (eqc _ _); [|discriminate]. rewrite (IH _ _ H). reflexivity.
Qed.

Section Continuations.
Variable A : Type.
(** [Q r n]: the result [r] was found in a subject of [n] code points. *)
Variable Q : A -> nat -> Prop.
Hypothesis Q_mono : forall r n m, Q r n -> n <= m -> Q r m.

Lemma ws_star_inv (k : str -> option A) :
  (forall s r, k s = Some r -> Q r (List.length s)) ->
  forall s r, ws_star k s = Some r -> Q r (List.length s).
Proof.
  intros Hk. induction s as [|c s IH]; intros r; simpl.
  - apply Hk.
  - destruct (isspace c); [|apply Hk].
    destruct (ws_star k s) as [r'|] eqn:E.
    + intros H. injection H as <-.
      apply Q_mono with (n := List.length s); [apply IH; reflexivity | lia].
    + apply Hk.
Qed.

Lemma dot_lazy_inv (k : str -> str -> option A) :
  (forall g s r, k g s = Some r -> Q r (List.length s)) ->
  forall s g r, dot_lazy k g s = Some r -> Q r (List.length s).
Proof.
  intros Hk. induction s as [|c s IH]; intros g r; simpl.
  - destruct (k (rev g) []) as [r'|] eqn:E; [|discriminate].
    intros H. injection H as <-. apply (Hk _ _ _ E).
  - destruct (k (rev g) (c :: s)) as [r'|] eqn:E.
    + intros H. injection H as <-. apply (Hk _ _ _ E).
    + destruct (eqc c newline); [discriminate|].
      intros H.
      apply Q_mono with (n := List.length s); [apply (IH _ _ H) | lia].
Qed.

Lemma url_plus_inv (k : str -> str -> option A) :
  (forall g s r, k g s = Some r -> Q r (List.length s)) ->
  forall s g r, url_plus k g s = Some r -> Q r (List.length s).
Proof.
  intros Hk. induction s as [|c s IH]; intros g r; simpl.
  - discriminate.
  - destruct (url_char c); [|discriminate].
    destruct (url_plus k (c :: g) s) as [r'|] eqn:E.
    + intros H. injection H as <-.
      apply Q_mono with (n := List.length s); [apply (IH _ _ E) | lia].
    + intros H.
      apply Q_mono with (n := List.length s); [apply (Hk _ _ _ H) | lia].
Qed.
End Continuations.

Lemma leaves_mono (r : str * str) (n m : nat) :
  leaves r n -> n <= m -> leaves r m.
Proof. unfold leaves. lia. Qed.

Lemma match_command_consumes (s g rest : str) :
  match_command s = Some (g, rest) -> List.length rest < List.length s.
Proof.
  unfold match_command.
  destruct (literal (lit "[[***") s) as [s1|] eqn:E1; [|discriminate].
  apply literal_length in E1. intros H.
  assert (Hl : leaves (g, rest) (List.length s1)).
  { revert H. apply (@ws_star_inv _ leaves leaves_mono).
    intros s0 r0 H0. revert H0.
    apply (@dot_lazy_inv _ leaves leaves_mono).
    intros g0 s2. apply (@ws_star_inv _ leaves leaves_mono).
    intros s3 r. destruct (literal (lit "***]]") s3) as [rest'|] eqn:E3;
      [|discriminate].
    intros H. injection H as <-. apply literal_length in E3.
    unfold leaves. simpl. lia. }
  unfold leaves in Hl. simpl in *. lia.
Qed.

Lemma url_tail_leaves (g s : str) (r : str * str) :
  url_tail g s = Some r -> leaves r (List.length s).
Proof.
  unfold url_tail.
  destruct (literal (lit "://") s) as [s1|] eqn:E1; [|discriminate].
  apply literal_length in E1. intros H.
  apply leaves_mono with (n := List.length s1); [|lia].
  revert H. apply (@url_plus_inv _ leaves leaves_mono).
  intros g0 s2. apply (@ws_star_inv _ leaves leaves_mono).
  intros s3 r0. destruct (literal (lit "]]") s3) as [rest'|] eqn:E3;
    [|discriminate].
  intros H. injection H as <-. apply literal_length in E3.
  unfold leaves. simpl. lia.
Qed.

Lemma match_url_consumes (s g rest : str) :
  match_url s = Some (g, rest) -> List.length rest < List.length s.
Proof.
  unfold match_url.
  destruct (literal_ci (lit "[[URL:") [] s) as [[g0 s1]|] eqn:E1;
    [|discriminate].
  apply literal_ci_length in E1. intros H.
  assert (Hl : leaves (g, rest) (List.length s1)).
  { revert H. apply (@ws_star_inv _ leaves leaves_mono).
    intros s2 r.
    destruct (literal_ci (lit "http") [] s2) as [[g1 s3]|] eqn:E2;
      [|discriminate].
    apply literal_ci_length in E2.
    destruct (literal_ci (lit "s") g1 s3) as [[g2 s4]|] eqn:E3.
    - apply literal_ci_length in E3.
      destruct (url_tail g2 s4) as [r'|] eqn:E4.
      + intros H. injection H as <-. apply url_tail_leaves in E4.
        unfold leaves in *. lia.
      + intros H. apply url_tail_leaves in H. unfold leaves in *. lia.
    - intros H. apply url_tail_leaves in H. unfold leaves in *. lia. }
  unfold leaves in Hl. simpl in *. lia.
Qed.

(** ** The group of a link is never blank *)

Lemma lstrip_keeps (s : str) (c : ascii) :
  In c s -> isspace c = false -> In c (lstrip s).
Proof.
  induction s as [|x s IH]; simpl; intros Hin Hc; [exact Hin|].
  destruct (isspace x) eqn:Ex.
  - destruct Hin as [-> | Hin]; [congruence | apply (IH Hin Hc)].
  - exact Hin.
Qed.

Lemma strip_visible (s : str) : has_visible s -> strip s <> [].
Proof.
  intros (c & Hin & Hc) E.
  assert (H : In c (strip s)).
  { unfold strip, rstrip. apply -> in_rev. apply lstrip_keeps; [|exact Hc].
    apply -> in_rev. apply lstrip_keeps; assumption. }
  rewrite E in H. destruct H.
Qed.

Lemma ws_star_group (k : str -> option (str * str)) :
  (forall s r, k s = Some r -> visible_group r) ->
  forall s r, ws_star k s = Some r -> visible_group r.
Proof.
  intros Hk. induction s as [|c s IH]; intros r; simpl.
  - apply Hk.
  - destruct (isspace c); [|apply Hk].
    destruct (ws_star k s) as [r'|] eqn:E.
    + intros H. injection H as <-. apply IH. reflexivity.
    + apply Hk.
Qed.

Lemma url_plus_group (k : str -> str -> option (str * str)) (c0 : ascii) :
  (forall g s r, In c0 g -> k g s = Some r -> visible_group r) ->
  forall s g r, In c0 g -> url_plus k g s = Some r -> visible_group r.
Proof.
  intros Hk. induction s as [|c s IH]; intros g r Hg; simpl.
  - discriminate.
  - destruct (url_char c); [|discriminate].
    destruct (url_plus k (c :: g) s) as [r'|] eqn:E.
    + intros H. injection H as <-.
      apply (IH (c :: g) r'); [right; exact Hg | exact E].
    + apply Hk. right. exact Hg.
Qed.

Lemma url_tail_group (g s : str) (r : str * str) :
  url_tail g s = Some r -> visible_group r.
Proof.
  unfold url_tail. destruct (literal (lit "://") s) as [s1|]; [|discriminate].
  apply (@url_plus_group _ ":"%char).
  - intros g' s2 r0 Hin. apply ws_star_group.
    intros s3 r1. destruct (literal (lit "]]") s3); [|discriminate].
    intros H. injection H as <-. exists ":"%char.
    split; [|reflexivity]. simpl. apply -> in_rev. exact Hin.
  - simpl. right. right. left. reflexivity.
Qed.

Lemma match_url_group (s g rest : str) :
  match_url s = Some (g, rest) -> has_visible g.
Proof.
  unfold match_url.
  destruct (literal_ci (lit "[[URL:") [] s) as [[g0 s1]|]; [|discriminate].
  intros H. change (visible_group (g, rest)). revert H. apply ws_star_group.
  intros s2 r. destruct (literal_ci (lit "http") [] s2) as [[g1 s3]|];
    [|discriminate].
  destruct (literal_ci (lit "s") g1 s3) as [[g2 s4]|].
  - destruct (url_tail g2 s4) as [r'|] eqn:E.
    + intros H. injection H as <-. apply (url_tail_group _ _ E).
    + apply url_tail_group.
  - apply url_tail_group.
Qed.

Lemma finditer_from_groups (m : str -> option (str * str)) (P : str -> Prop) :
  (forall s g rest, m s = Some (g, rest) -> P g) ->
  forall s pos skip,
    Forall (fun x => P (m_group1 x)) (finditer_from m pos skip s).
Proof.
  intros Hm. induction s as [|c s IH]; intros pos skip;
    cbn [finditer_from].
  - constructor.
  - destruct skip as [|k]; [|apply IH].
    destruct (m (c :: s)) as [[g rest]|] eqn:E; [|apply IH].
    cbv zeta. constructor; [exact (Hm _ _ _ E) | apply IH].
Qed.

End ReFacts.

(* ====================================================================== *)
(** * The extractor *)
(* ====================================================================== *)

Module ExtractFacts.

Import Re Extract Scenarios ReFacts PySortFacts.

Lemma spaced_from_earlier (a b : nat) (ms : list rematch) :
  spaced a ms -> b <= a -> spaced b ms.
Proof.
  destruct ms as [|m ms]; simpl; [trivial|].
  intros (H1 & H2 & H3) Hb. repeat split; try assumption. lia.
Qed.

Lemma spaced_starts (a : nat) (ms : list rematch) :
  spaced a ms -> Forall (fun m => a <= m_start m) ms.
Proof.
  revert a. induction ms as [|m ms IH]; intros a; simpl.
  - constructor.
  - intros (H1 & H2 & H3). constructor; [exact H1|].
    apply IH. apply spaced_from_earlier with (a := m_end m); [exact H3|lia].
Qed.

Lemma spaced_nonempty (a : nat) (ms : list rematch) :
  spaced a ms -> Forall (fun m => m_start m < m_end m) ms.
Proof.
  revert a. induction ms as [|m ms IH]; intros a; simpl.
  - constructor.
  - intros (H1 & H2 & H3). constructor; [exact H2 | apply (IH _ H3)].
Qed.

(** [re.finditer] gives matches that follow one another. *)
Lemma finditer_from_spaced (m : str -> option (str * str)) :
  (forall s g rest, m s = Some (g, rest) ->
                    List.length rest < List.length s) ->
  forall s pos skip, spaced (pos + skip) (finditer_from m pos skip s).
Proof.
  intros Hm. induction s as [|c s IH]; intros pos skip;
    cbn [finditer_from].
  - exact I.
  - destruct skip as [|k].
    + destruct (m (c :: s)) as [[g rest]|] eqn:E.
      * apply Hm in E. cbv zeta. cbn [spaced m_start m_end].
        remember (List.length (c :: s) - List.length rest) as len eqn:El.
        assert (Hlen : 1 <= len)
          by (rewrite El; apply Nat.lt_add_lt_sub_r; exact E).
        split; [lia|]. split; [lia|].
        replace (pos + len) with (S pos + (len - 1)) by lia.
        apply IH.
      * apply spaced_from_earlier with (a := S pos + 0); [apply IH | lia].
    + replace (pos + S k) with (S pos + k) by lia. apply IH.
Qed.

Lemma url_matches_spaced (response : str) :
  spaced 0 (url_matches response).
Proof.
  apply (@finditer_from_spaced match_url match_url_consumes response 0 0).
Qed.

Lemma command_matches_spaced (response : str) :
  spaced 0 (command_matches response).
Proof.
  apply (@finditer_from_spaced match_command match_command_consumes
                               response 0 0).
Qed.

Lemma in_span_iff (m : rematch) (i : nat) :
  in_span m i = true <-> m_start m <= i < m_end m.
Proof.
  unfold in_span. rewrite andb_true_iff, Nat.leb_le, Nat.ltb_lt. tauto.
Qed.

(** Of the items of the first loop, one lies in the span of a link. *)
Lemma url_items_in_span (response : str) (u : rematch) (ms : list rematch)
      (a : nat) :
  spaced a ms -> In u ms ->
  items_in_span u (map (url_item response) ms) = [url_item response u].
Proof.
  revert a. induction ms as [|m ms IH]; intros a Hsp Hin; [destruct Hin|].
  destruct Hsp as (H1 & H2 & H3).
  pose proof (@spaced_starts _ _ H3) as Hst.
  unfold items_in_span in *. simpl.
  destruct Hin as [-> | Hin].
  - assert (E : in_span u (m_start u) = true) by (apply in_span_iff; lia).
    rewrite E. f_equal.
    clear IH H3. induction Hst as [|m' ms' Hm' _ IH']; [reflexivity|].
    simpl.
    assert (E' : in_span u (m_start m') = false).
    { apply not_true_is_false. rewrite in_span_iff. lia. }
    rewrite E'. exact IH'.
  - assert (E : in_span u (m_start m) = false).
    { apply not_true_is_false. rewrite in_span_iff.
      rewrite Forall_forall in Hst. specialize (Hst u Hin). lia. }
    rewrite E. apply (IH _ H3 Hin).
Qed.

Lemma processed_covers (ums : list rematch) (u : rematch) (i : nat) :
  In u ums -> in_span u i = true -> In i (processed_indices ums).
Proof.
  intros Hin Hi. apply in_span_iff in Hi. unfold processed_indices.
  apply in_flat_map. exists u. split; [exact Hin|].
  unfold range. apply in_seq. lia.
Qed.

Lemma not_overlapped (processed : list nat) (m : rematch) (i : nat) :
  is_overlapped processed m = false ->
  in_span m i = true -> ~ In i processed.
Proof.
  unfold is_overlapped. intros H Hi Hin. apply in_span_iff in Hi.
  assert (E : existsb (fun j => existsb (Nat.eqb j) processed)
                      (range (m_start m) (m_end m)) = true).
  { apply existsb_exists. exists i. split.
    - unfold range. apply in_seq. lia.
    - apply existsb_exists. exists i. split; [exact Hin|].
      apply Nat.eqb_refl. }
  congruence.
Qed.

Lemma overlapped (processed : list nat) (m : rematch) (i : nat) :
  in_span m i = true -> In i processed -> is_overlapped processed m = true.
Proof.
  intros Hi Hin. destruct (is_overlapped processed m) eqn:E; [reflexivity|].
  destruct (@not_overlapped _ _ _ E Hi Hin).
Qed.

(** What the second loop appends for one match. *)
Lemma command_item_inv (windows : bool) (response : str)
      (processed : list nat) (m : rematch) (it : item) :
  In it (command_item windows response processed m) ->
  is_overlapped processed m = false
  /\ original_match_position it = m_start m
  /\ type_ it <> T_url /\ type_ it <> T_error
  /\ strip (m_group1 m) <> [].
Proof.
  unfold command_item.
  destruct (is_overlapped processed m); [intros []|].
  destruct (strip (m_group1 m)) as [|c cmd_text] eqn:Es; [intros []|].
  destruct (windows && _).
  - intros [<- | []]. repeat split; discriminate.
  - destruct (_ || _); intros [<- | []]; repeat split; discriminate.
Qed.

Lemma perm_filter (A : Type) (f : A -> bool) (l l' : list A) :
  Permutation l l' -> Permutation (filter f l) (filter f l').
Proof.
  induction 1 as [| x l l' _ IH | x y l | l l' l'' _ IH1 _ IH2]; simpl.
  - constructor.
  - destruct (f x); [apply perm_skip|]; exact IH.
  - destruct (f x), (f y); try apply Permutation_refl. apply perm_swap.
  - apply perm_trans with (filter f l'); assumption.
Qed.

(** The items of the second loop lie outside the span of every link. *)
Lemma command_items_outside (windows : bool) (response : str)
      (ums cms : list rematch) (u : rematch) (a : nat) :
  spaced a cms -> In u ums ->
  items_in_span u
    (flat_map (command_item windows response (processed_indices ums)) cms)
  = [].
Proof.
  intros Hsp Hin. unfold items_in_span.
  destruct (filter _ _) as [|it rest] eqn:E; [reflexivity|].
  assert (Hit : In it (it :: rest)) by (left; reflexivity).
  rewrite <- E in Hit. apply filter_In in Hit. destruct Hit as [Hfm Hspan].
  apply in_flat_map in Hfm. destruct Hfm as (m & Hm & Hitem).
  apply command_item_inv in Hitem. destruct Hitem as (Hno & Hpos & _).
  pose proof (@spaced_nonempty _ _ Hsp) as Hne.
  rewrite Forall_forall in Hne. specialize (Hne m Hm).
  exfalso. apply (@not_overlapped _ m (m_start m) Hno).
  - apply in_span_iff. lia.
  - rewrite <- Hpos. apply (@processed_covers _ _ _ Hin Hspan).
Qed.

(** C7.  For every text: each span of a link has exactly one item with
    its position in it, the [Url] item of that link; a command span whose
    range has an index in common with the range of a link appends
    nothing; and every item that is not a [Url] item stands at the start
    of a command span whose range meets the range of no link. *)
Theorem url_span_extracted_once_as_url (windows : bool) (response : str) :
  let items := extract_commands_from_llm_response windows response in
  (forall u, In u (url_matches response) ->
             items_in_span u items = [url_item response u])
  /\ (forall m u,
         In m (command_matches response) -> In u (url_matches response) ->
         spans_intersect m u ->
         command_item windows response
                      (processed_indices (url_matches response)) m = [])
  /\ (forall it,
         In it items -> type_ it <> T_url ->
         exists m,
           In m (command_matches response)
           /\ original_match_position it = m_start m
           /\ forall u, In u (url_matches response) ->
                        ~ spans_intersect m u).
Proof.
  unfold extract_commands_from_llm_response.
  set (processed := processed_indices (url_matches response)).
  set (raw := map (url_item response) (url_matches response)
              ++ flat_map (command_item windows response processed)
                          (command_matches response)).
  assert (Hperm : Permutation
                    (PySort.sort_by_key
                       (fun x => Z.of_nat (original_match_position x)) raw)
                    raw) by apply sort_by_key_perm.
  cbv zeta. split; [|split].
  - intros u Hu.
    assert (Hraw : items_in_span u raw = [url_item response u]).
    { unfold raw, items_in_span. rewrite filter_app.
      fold (items_in_span u (map (url_item response) (url_matches response))).
      rewrite (@url_items_in_span response u _ 0
                 (url_matches_spaced response) Hu).
      fold (items_in_span u
              (flat_map (command_item windows response processed)
                        (command_matches response))).
      unfold processed.
      rewrite (@command_items_outside windows response _ _ u 0
                 (command_matches_spaced response) Hu).
      reflexivity. }
    apply Permutation_length_1_inv. rewrite <- Hraw.
    unfold items_in_span. apply perm_filter. symmetry. exact Hperm.
  - intros m u Hm Hu (i & Hi1 & Hi2).
    unfold command_item.
    rewrite (@overlapped processed m i Hi1
               (@processed_covers _ _ _ Hu Hi2)).
    reflexivity.
  - intros it Hin Hty.
    apply (@Permutation_in _ _ _ _ Hperm) in Hin. unfold raw in Hin.
    apply in_app_or in Hin. destruct Hin as [Hin | Hin].
    + apply in_map_iff in Hin. destruct Hin as (u & <- & _).
      destruct Hty. reflexivity.
    + apply in_flat_map in Hin. destruct Hin as (m & Hm & Hitem).
      apply command_item_inv in Hitem. destruct Hitem as (Hno & Hpos & _).
      exists m. split; [exact Hm|]. split; [exact Hpos|].
      intros u Hu (i & Hi1 & Hi2).
      apply (@not_overlapped _ m i Hno Hi1).
      apply (@processed_covers _ _ _ Hu Hi2).
Qed.

Lemma url_span_extracted_once_as_url_witness :
  In link_a (url_matches text_nested)
  /\ spans_intersect (MkMatch 4 35 (lit "[[URL: http://a.b]]")) link_a
  /\ items_in_span link_a
       (extract_commands_from_llm_response true text_nested)
     = [MkItem T_url (lit "http://a.b") (lit "Try [[***") 10].
Proof.
  split; [vm_compute; left; reflexivity|].
  split; [exists 10; split; reflexivity|].
  apply (proj1 (url_span_extracted_once_as_url true text_nested) link_a).
  vm_compute. left. reflexivity.
Defined.

(** The branch of lines 2273-2276 is never taken: no item is an [Error]
    item. *)
Lemma no_error_item (windows : bool) (response : str) :
  Forall (fun it => type_ it <> T_error)
         (extract_commands_from_llm_response windows response).
Proof.
  apply Forall_forall. intros it Hin.
  unfold extract_commands_from_llm_response in Hin.
  apply (@Permutation_in _ _ _ _ (sort_by_key_perm _ _)) in Hin.
  apply in_app_or in Hin. destruct Hin as [Hin | Hin].
  - apply in_map_iff in Hin. destruct Hin as (u & <- & _). discriminate.
  - apply in_flat_map in Hin. destruct Hin as (m & _ & Hitem).
    apply command_item_inv in Hitem. tauto.
Qed.

(** Every item returned has a value that is not empty. *)
Lemma extracted_values_nonempty (windows : bool) (response : str) :
  Forall (fun it => value it <> [])
         (extract_commands_from_llm_response windows response).
Proof.
  apply Forall_forall. intros it Hin.
  unfold extract_commands_from_llm_response in Hin.
  apply (@Permutation_in _ _ _ _ (sort_by_key_perm _ _)) in Hin.
  apply in_app_or in Hin. destruct Hin as [Hin | Hin].
  - apply in_map_iff in Hin. destruct Hin as (u & <- & Hu).
    simpl. apply strip_visible.
    pose proof (@finditer_from_groups match_url has_visible
                  match_url_group response 0 0) as Hall.
    rewrite Forall_forall in Hall. apply (Hall u Hu).
  - apply in_flat_map in Hin. destruct Hin as (m & _ & Hitem).
    unfold command_item in Hitem.
    destruct (is_overlapped _ m); [destruct Hitem|].
    destruct (strip (m_group1 m)) as [|c cmd_text]; [destruct Hitem|].
    destruct (windows && _).
    + destruct Hitem as [<- | []]. discriminate.
    + destruct (_ || _); destruct Hitem as [<- | []]; discriminate.
Qed.

(** A command span whose inner text trims to nothing appends nothing
    (line 2251). *)
Lemma empty_span_appends_nothing (windows : bool) (response : str)
      (processed : list nat) (m : rematch) :
  strip (m_group1 m) = [] ->
  command_item windows response processed m = [].
Proof.
  intros H. unfold command_item. rewrite H.
  destruct (is_overlapped processed m); reflexivity.
Qed.

(** C1 on the code.  The text has one command span, from 6 to 19, whose
    inner text is three blanks; no link claims it; and the extractor
    returns no item at all, on any platform: the span is dropped, not
    turned into an [Error] item. *)
Theorem empty_command_span_is_dropped (windows : bool) :
  command_matches text_empty_span = [MkMatch 6 19 []]
  /\ url_matches text_empty_span = []
  /\ extract_commands_from_llm_response windows text_empty_span = [].
Proof.
  destruct windows; repeat split; vm_compute; reflexivity.
Qed.

End ExtractFacts.

(* ====================================================================== *)
(** * The safety classifier: the verdict as a whole *)
(* ====================================================================== *)

Module SafetyVerdict.

Import Safety PyFacts.

Lemma isspace_lower_char (c : ascii) : isspace (lower_char c) = isspace c.
Proof.
  destruct c as [[] [] [] [] [] [] [] []]; vm_compute; reflexivity.
Qed.

Lemma forallb_isspace_lower (s : str) :
  forallb isspace (lower s) = forallb isspace s.
Proof.
  induction s as [|c s IH]; simpl; [reflexivity|].
  rewrite isspace_lower_char, IH. reflexivity.
Qed.

Lemma split_aux_nil (cur s : str) :
  split_aux cur s = [] <-> cur = [] /\ forallb isspace s = true.
Proof.
  revert cur. induction s as [|c s IH]; intros cur; simpl.
  - destruct cur; split; try tauto; try discriminate.
    intros [H _]. discriminate.
  - destruct (isspace c) eqn:Ec; simpl.
    + destruct cur as [|x cur].
      * rewrite IH. tauto.
      * split; [discriminate | intros [H _]; discriminate].
    + rewrite IH. split; [intros [H _]; discriminate | intros [_ H]].
      discriminate.
Qed.

Lemma split_nil (s : str) : split s = [] <-> forallb isspace s = true.
Proof. unfold split. rewrite split_aux_nil. tauto. Qed.

Lemma contains_subset (needle hay : str) (c : ascii) :
  contains needle hay = true -> In c needle -> In c hay.
Proof.
  intros H Hc. destruct (contains_inv _ _ H) as (pre & post & ->).
  apply in_or_app. right. apply in_or_app. left. exact Hc.
Qed.

Lemma denylist_fragments_visible :
  Forall has_visible Config.dangerous_commands.
Proof.
  repeat constructor;
    (eexists; split; [left; reflexivity | reflexivity]).
Qed.

Lemma blank_has_no_fragment (s : str) :
  forallb isspace s = true ->
  existsb (fun d => contains d s) Config.dangerous_commands = false.
Proof.
  intros Hblank. apply not_true_is_false. intros H.
  apply existsb_exists in H. destruct H as (d & Hd & Hc).
  pose proof denylist_fragments_visible as Hv.
  rewrite Forall_forall in Hv. destruct (Hv d Hd) as (c & Hin & Hsp).
  rewrite forallb_forall in Hblank.
  rewrite (Hblank c (contains_subset _ _ c Hc Hin)) in Hsp. discriminate.
Qed.

(** The verdict is decided by the denylist alone: the function answers
    [True] exactly for the texts in which a denylist fragment occurs, in
    any case; the allowlist never turns a verdict. *)
Theorem dangerous_iff_denylisted (cmd : str) :
  is_dangerous_command cmd = Some true
  <-> exists frag, In frag Config.dangerous_commands /\ occurs_ci frag cmd.
Proof.
  split.
  - unfold is_dangerous_command, is_dangerous_command_site.
    destruct (existsb _ Config.dangerous_commands) eqn:E.
    + intros _. apply existsb_exists in E. destruct E as (d & Hd & Hc).
      exists d. split; [exact Hd | apply contains_lower_occurs, Hc].
    + destruct (split (lower cmd)) as [|w ws]; [discriminate|].
      destruct (mem w _); [|discriminate].
      destruct (_ && _); [discriminate|].
      destruct (negb _); discriminate.
  - intros (frag & Hin & Hocc). unfold is_dangerous_command.
    rewrite (@SafetyFacts.denylist_hit cmd frag Hin
               (proj2 (contains_lower_occurs frag cmd) Hocc)).
    reflexivity.
Qed.

Lemma dangerous_iff_denylisted_witness :
  exists frag,
    In frag Config.dangerous_commands
    /\ occurs_ci frag (lit "FORMAT d: /q").
Proof.
  apply (proj1 (dangerous_iff_denylisted (lit "FORMAT d: /q"))).
  reflexivity.
Defined.

Lemma blank_when_raising (cmd : str) :
  is_dangerous_command cmd = None -> forallb isspace cmd = true.
Proof.
  unfold is_dangerous_command, is_dangerous_command_site.
  destruct (existsb _ Config.dangerous_commands); [discriminate|].
  destruct (split (lower cmd)) as [|w ws] eqn:Es.
  - intros _. rewrite <- forallb_isspace_lower. apply split_nil, Es.
  - destruct (mem w _); [|discriminate].
    destruct (_ && _); [discriminate|].
    destruct (negb _); discriminate.
Qed.

Lemma raising_when_blank (cmd : str) :
  forallb isspace cmd = true -> is_dangerous_command cmd = None.
Proof.
  unfold is_dangerous_command, is_dangerous_command_site.
  intros Hblank. rewrite <- forallb_isspace_lower in Hblank.
  rewrite (blank_has_no_fragment _ Hblank).
  rewrite (proj2 (split_nil _) Hblank). reflexivity.
Qed.

(** The function raises (IndexError at line 848) exactly for the texts
    without a visible code point: the empty text and the texts of
    whitespace only. *)
Theorem raises_iff_blank (cmd : str) :
  is_dangerous_command cmd = None <-> forallb isspace cmd = true.
Proof.
  split.
  - apply blank_when_raising.
  - apply raising_when_blank.
Qed.

Lemma raises_iff_blank_witness :
  is_dangerous_command [" "%char; ascii_of_nat 9; ascii_of_nat 160] = None.
Proof.
  apply (proj2 (raises_iff_blank
                  [" "%char; ascii_of_nat 9; ascii_of_nat 160])).
  reflexivity.
Defined.

End SafetyVerdict.

(* ====================================================================== *)
(** * run_command: the confirmation gate and the flags of the result *)
(* ====================================================================== *)

Module ExecGate.

Import Exec Scenarios PyFacts SafetyVerdict.

Lemma is_safe_char_visible (c : ascii) :
  Shlex.is_safe_char c = true -> isspace c = false.
Proof.
  destruct c as [[] [] [] [] [] [] [] []]; vm_compute; congruence.
Qed.

Lemma quote_visible (s : str) : has_visible (Shlex.quote s).
Proof.
  unfold Shlex.quote. destruct s as [|c s].
  - exists Shlex.squote. split; [left; reflexivity | reflexivity].
  - destruct (forallb Shlex.is_safe_char (c :: s)) eqn:E.
    + simpl in E. apply andb_true_iff in E. destruct E as [Ec _].
      exists c. split; [left; reflexivity | apply is_safe_char_visible, Ec].
    + exists Shlex.squote. split; [left; reflexivity | reflexivity].
Qed.

Lemma join_visible (sep x : str) (l : list str) :
  has_visible x -> has_visible (join sep (x :: l)).
Proof.
  intros (c & Hin & Hc). exists c. split; [|exact Hc].
  destruct l; simpl; [exact Hin | apply in_or_app; left; exact Hin].
Qed.

Lemma visible_not_blank (s : str) :
  has_visible s -> forallb isspace s <> true.
Proof.
  intros (c & Hin & Hc) H. rewrite forallb_forall in H.
  rewrite (H c Hin) in Hc. discriminate.
Qed.

(** A list of arguments never makes the call raise; a command string makes
    it raise (the IndexError of the safety check) exactly when the string
    is blank, and then nothing was asked and nothing launched. *)
Theorem run_command_raises_only_on_blank_string
        (p : platform) (a : answers)
        (capture_output require_confirmation : bool)
        (explanation : option str) :
  (forall l,
      snd (run_command p a (CmdList l) capture_output false
                       require_confirmation explanation)
      <> Uncaught_IndexError)
  /\ (forall s,
         snd (run_command p a (CmdStr s) capture_output true
                          require_confirmation explanation)
         = Uncaught_IndexError
         <-> forallb isspace s = true)
  /\ (forall s,
         forallb isspace s = true ->
         fst (run_command p a (CmdStr s) capture_output true
                          require_confirmation explanation) = []).
Proof.
  assert (Hex : forall sh cs cl res,
             snd (execute p a capture_output sh cs cl res)
             <> Uncaught_IndexError).
  { intros sh cs cl res. ExecFacts.case_execute; discriminate. }
  split; [|split].
  - intros [|x l]; unfold run_command, validate; cbv beta iota;
      [discriminate|].
    destruct (Safety.is_dangerous_command _) as [d|] eqn:Ed.
    + destruct (require_confirmation || d); [|apply Hex].
      destruct (negb _); [discriminate|].
      match goal with
      | |- context [execute ?p ?a ?c ?s ?cs ?cl ?r] =>
          pose proof (Hex s cs cl r) as H;
          destruct (execute p a c s cs cl r)
      end. exact H.
    + apply blank_when_raising in Ed.
      destruct (@visible_not_blank _
                  (@join_visible (lit " ") _ (map Shlex.quote l)
                                 (quote_visible x)) Ed).
  - intros s. unfold run_command, validate. cbv beta iota.
    destruct (Safety.is_dangerous_command s) as [d|] eqn:Ed.
    + split.
      * intros H. exfalso. revert H.
        destruct (require_confirmation || d); [|apply Hex].
        destruct (negb _); [discriminate|].
        match goal with
        | |- context [execute ?p ?a ?c ?s ?cs ?cl ?r] =>
            pose proof (Hex s cs cl r) as H;
            destruct (execute p a c s cs cl r)
        end. exact H.
      * intros Hb. apply raising_when_blank in Hb. congruence.
    + split; [intros _; apply blank_when_raising, Ed | reflexivity].
  - intros s Hb. apply raising_when_blank in Hb.
    unfold run_command, validate. cbv beta iota. rewrite Hb. reflexivity.
Qed.

Lemma run_command_raises_only_on_blank_string_witness :
  fst (run_command plain_console accept (CmdStr (lit "   ")) true true true
                   None) = []
  /\ snd (run_command plain_console accept (CmdStr (lit "   ")) true true
                      true None) = Uncaught_IndexError.
Proof.
  split.
  - apply (proj2 (proj2 (run_command_raises_only_on_blank_string
                           plain_console accept true true None))
                 (lit "   ")).
    reflexivity.
  - reflexivity.
Defined.

Lemma execute_flags p a cap sh cmd_str cmd_list res evs r :
  confirmed res = true ->
  execute p a cap sh cmd_str cmd_list res = (evs, Returns r) ->
  confirmed r = true
  /\ (success r = true -> executed r = true /\ return_code r = Some 0%Z)
  /\ (executed r = true -> existsb is_launch evs = true).
Proof.
  intros Hc. unfold execute.
  destruct (windows p); simpl.
  - destruct (subprocess_run (chcp a) None); try discriminate;
      destruct (process a) as [[d|] rc out err | msg | msg];
      simpl; try discriminate;
      try destruct (late_exception a); intros H; inversion H; subst; simpl;
      (split; [exact Hc|]); split; try discriminate; try reflexivity;
      try (intros E; apply Z.eqb_eq in E; subst; split; reflexivity).
  - destruct (process a) as [[d|] rc out err | msg | msg];
      simpl; try discriminate;
      try destruct (late_exception a); intros H; inversion H; subst; simpl;
      (split; [exact Hc|]); split; try discriminate; try reflexivity;
      try (intros E; apply Z.eqb_eq in E; subst; split; reflexivity).
Qed.

(** The flags of every dictionary returned fit together: [success] only
    with [executed] and a return code of 0; [executed] only with
    [confirmed] and after a process was launched. *)
Theorem result_flags_fit_together
        (p : platform) (a : answers) (cmd : command)
        (capture_output shell require_confirmation : bool)
        (explanation : option str) (evs : list event) (r : result) :
  run_command p a cmd capture_output shell require_confirmation explanation
  = (evs, Returns r) ->
  (success r = true -> executed r = true /\ return_code r = Some 0%Z)
  /\ (executed r = true ->
      confirmed r = true /\ existsb is_launch evs = true).
Proof.
  unfold run_command.
  destruct (validate cmd shell) as [r0 | [cmd_str cmd_list]] eqn:Ev.
  { intros H. inversion H; subst.
    destruct (ExecFacts.validate_invalid _ _ Ev) as [He Hs].
    rewrite He, Hs. split; discriminate. }
  destruct (Safety.is_dangerous_command cmd_str) as [d|]; [|discriminate].
  destruct (require_confirmation || d).
  - destruct (ask p (confirm_ask a) (input_line a) false) eqn:Ea;
      simpl negb; cbv iota.
    + destruct (execute _ _ _ _ _ _ _) as [evs' o] eqn:Ee.
      intros H. inversion H; subst.
      apply execute_flags in Ee; [|reflexivity].
      destruct Ee as (Hc & Hs & He).
      split; [exact Hs|]. intros Hx. split; [exact Hc|].
      simpl. apply (He Hx).
    + intros H. inversion H; subst. simpl. split; discriminate.
  - intros H.
    apply execute_flags in H; [|reflexivity].
    destruct H as (Hc & Hs & He).
    split; [exact Hs|]. intros Hx. split; [exact Hc | exact (He Hx)].
Qed.

Lemma result_flags_fit_together_witness :
  executed (MkResult (lit "sfc /scannow") false true (lit "done") []
                     (Some 0%Z) true true) = true
  /\ return_code (MkResult (lit "sfc /scannow") false true (lit "done") []
                           (Some 0%Z) true true) = Some 0%Z.
Proof.
  apply (proj1 (@result_flags_fit_together
                  windows_console accept
                  (CmdList [lit "sfc"; lit "/scannow"]) true false true None
                  (fst sfc_call) _ eq_refl)).
  reflexivity.
Defined.

(** The gate.  When confirmation is required, or the safety check flags
    the command, a process is launched only after the prompt, which is
    the first thing that happens, was answered with yes. *)
Theorem launch_only_after_confirmation
        (p : platform) (a : answers) (cmd : command)
        (capture_output shell require_confirmation : bool)
        (explanation : option str) (cmd_str : str)
        (cmd_list : option (list str)) (dangerous : bool) :
  validate cmd shell = inr (cmd_str, cmd_list) ->
  Safety.is_dangerous_command cmd_str = Some dangerous ->
  require_confirmation || dangerous = true ->
  existsb is_launch
          (fst (run_command p a cmd capture_output shell
                            require_confirmation explanation)) = true ->
  ask p (confirm_ask a) (input_line a) false = true
  /\ hd_error (fst (run_command p a cmd capture_output shell
                                require_confirmation explanation))
     = Some (Ev_confirm cmd_str dangerous).
Proof.
  intros Ev Hd Hneed. unfold run_command. rewrite Ev, Hd, Hneed.
  destruct (ask p (confirm_ask a) (input_line a) false); simpl negb;
    cbv iota.
  - destruct (execute _ _ _ _ _ _ _) as [evs o]. simpl.
    intros _. split; reflexivity.
  - simpl. discriminate.
Qed.

Lemma launch_only_after_confirmation_witness :
  ask windows_console (confirm_ask accept) (input_line accept) false = true
  /\ hd_error (fst sfc_call) = Some (Ev_confirm (lit "sfc /scannow") false).
Proof.
  apply (@launch_only_after_confirmation
           windows_console accept (CmdList [lit "sfc"; lit "/scannow"])
           true false true None (lit "sfc /scannow")
           (Some [lit "sfc"; lit "/scannow"]) false);
    reflexivity.
Defined.

(** A flagged command is prompted for even when the caller asked for no
    confirmation, and a refusal leaves it unlaunched. *)
Theorem dangerous_command_always_prompts
        (p : platform) (a : answers) (s : str)
        (capture_output : bool) (explanation : option str) (frag : str) :
  In frag Config.dangerous_commands ->
  Safety.occurs_ci frag s ->
  let call := run_command p a (CmdStr s) capture_output true false
                          explanation in
  hd_error (fst call) = Some (Ev_confirm s true)
  /\ (ask p (confirm_ask a) (input_line a) false = false ->
      existsb is_launch (fst call) = false
      /\ exists r, snd call = Returns r /\ executed r = false).
Proof.
  intros Hin Hocc.
  assert (Hd : Safety.is_dangerous_command s = Some true).
  { unfold Safety.is_dangerous_command.
    rewrite (@SafetyFacts.denylist_hit s frag Hin
               (proj2 (contains_lower_occurs frag s) Hocc)).
    reflexivity. }
  unfold run_command, validate. cbv beta iota zeta. rewrite Hd.
  simpl orb. cbv iota.
  destruct (ask p (confirm_ask a) (input_line a) false); simpl negb;
    cbv iota.
  - destruct (execute _ _ _ _ _ _ _) as [evs o]. simpl.
    split; [reflexivity | discriminate].
  - simpl. split; [reflexivity|]. intros _. split; [reflexivity|].
    eexists. split; reflexivity.
Qed.

Lemma dangerous_command_always_prompts_witness :
  hd_error (fst (run_command plain_console decline
                             (CmdStr (lit "del /q C:\temp\*")) true true
                             false None))
  = Some (Ev_confirm (lit "del /q C:\temp\*") true).
Proof.
  apply (@dangerous_command_always_prompts
           plain_console decline (lit "del /q C:\temp\*") true None
           (lit "del /")).
  - simpl. tauto.
  - exists [], (lit "del /"), (lit "q C:\temp\*"). split; reflexivity.
Defined.

End ExecGate.

(* ====================================================================== *)
(** * find_time_clusters: the clusters are the large runs *)
(* ====================================================================== *)

Module ClusterSpecFacts.

Import Datetime Clusters ClusterSpec ClustersFacts.
Open Scope Z_scope.

Lemma runs_head (limit : Z) (x : datetime * Z) (l : list (datetime * Z)) :
  exists r rs, runs limit (x :: l) = (x :: r) :: rs.
Proof.
  simpl. destruct (runs limit l) as [|[|y r] rs].
  - exists [], []. reflexivity.
  - exists [], []. reflexivity.
  - destruct (_ <=? _).
    + exists (y :: r), rs. reflexivity.
    + exists [], ((y :: r) :: rs). reflexivity.
Qed.

(** A run in front of a bucket that lies too far behind it is a run of
    the whole. *)
Lemma runs_break (limit : Z) (first y : datetime * Z)
      (members l : list (datetime * Z)) :
  gaps_within limit (first :: members) ->
  limit < minutes_of (fst y) - minutes_of (fst (last members first)) ->
  runs limit ((first :: members) ++ y :: l)
  = (first :: members) :: runs limit (y :: l).
Proof.
  revert first. induction members as [|b members IH]; intros first Hg Hfar.
  - change (runs limit ([first] ++ y :: l))
      with (match runs limit (y :: l) with
            | (y0 :: r) :: rs =>
                if minutes_of (fst y0) - minutes_of (fst first) <=? limit
                then (first :: y0 :: r) :: rs
                else [first] :: (y0 :: r) :: rs
            | _ => [[first]]
            end).
    destruct (runs_head limit y l) as (r & rs & ->).
    simpl in Hfar. destruct (Z.leb_spec
                               (minutes_of (fst y) - minutes_of (fst first))
                               limit); [lia | reflexivity].
  - destruct Hg as [Hab Hrest]. rewrite last_cons in Hfar.
    change (runs limit ((first :: b :: members) ++ y :: l))
      with (match runs limit ((b :: members) ++ y :: l) with
            | (y0 :: r) :: rs =>
                if minutes_of (fst y0) - minutes_of (fst first) <=? limit
                then (first :: y0 :: r) :: rs
                else [first] :: (y0 :: r) :: rs
            | _ => [[first]]
            end).
    rewrite (IH b Hrest Hfar).
    destruct (Z.leb_spec (minutes_of (fst b) - minutes_of (fst first))
                         limit); [reflexivity | lia].
Qed.

(** A run on its own. *)
Lemma runs_whole (limit : Z) (first : datetime * Z)
      (members : list (datetime * Z)) :
  gaps_within limit (first :: members) ->
  runs limit (first :: members) = [first :: members].
Proof.
  revert first. induction members as [|b members IH]; intros first Hg.
  - reflexivity.
  - destruct Hg as [Hab Hrest].
    change (runs limit (first :: b :: members))
      with (match runs limit (b :: members) with
            | (y0 :: r) :: rs =>
                if minutes_of (fst y0) - minutes_of (fst first) <=? limit
                then (first :: y0 :: r) :: rs
                else [first] :: (y0 :: r) :: rs
            | _ => [[first]]
            end).
    rewrite (IH b Hrest).
    destruct (Z.leb_spec (minutes_of (fst b) - minutes_of (fst first))
                         limit); [reflexivity | lia].
Qed.

(** The loop, with [first :: members] the run read so far. *)
Lemma scan_runs (min_cluster_size max_gap_hours limit : Z)
      (l : list (datetime * Z)) :
  timedelta_hours max_gap_hours = Some limit ->
  forall first members clusters,
    gaps_within limit (first :: members) ->
    exists rs r,
      runs limit ((first :: members) ++ l) = rs ++ [r]
      /\ scan min_cluster_size max_gap_hours (open_of (first :: members))
              clusters l
         = Some (clusters
                 ++ map summarise (filter (large min_cluster_size) rs),
                 open_of r).
Proof.
  intros Ht. induction l as [|[dt n] l IH]; intros first members clusters Hg.
  - exists [], (first :: members). rewrite app_nil_r. split.
    + apply runs_whole, Hg.
    + simpl. rewrite app_nil_r. reflexivity.
  - cbn [scan open_of]. rewrite Ht. cbn [end_dt start_dt count].
    destruct (Z.leb_spec (minutes_of dt
                          - minutes_of (fst (last members first))) limit)
      as [Hnear | Hfar].
    + (* the bucket joins the run *)
      destruct (IH first (members ++ [(dt, n)]) clusters) as (rs & r & Hr & Hs).
      { apply gaps_within_snoc; [exact Hg | exact Hnear]. }
      exists rs, r. split.
      * rewrite <- Hr. f_equal. simpl. rewrite <- app_assoc. reflexivity.
      * rewrite <- Hs. f_equal. unfold open_of. f_equal. f_equal.
        -- rewrite last_snoc. reflexivity.
        -- change (first :: members ++ [(dt, n)])
             with ((first :: members) ++ [(dt, n)]).
           rewrite total_snoc. reflexivity.
    + (* the run ends here *)
      destruct (IH (dt, n) []
                   (close min_cluster_size
                          (MkOpen (fst first) (fst (last members first))
                                  (total (first :: members))) clusters))
        as (rs & r & Hr & Hs); [exact I|].
      exists ((first :: members) :: rs), r. split.
      * rewrite (@runs_break limit first (dt, n) members l Hg Hfar).
        simpl app in Hr. rewrite Hr. reflexivity.
      * simpl open_of in Hs.
        replace (total [(dt, n)]) with n in Hs
          by (unfold total; simpl; lia).
        rewrite Hs. f_equal. f_equal.
        unfold close. cbn [count filter large].
        fold (large min_cluster_size (first :: members)).
        destruct (large min_cluster_size (first :: members)).
        -- rewrite <- app_assoc. reflexivity.
        -- reflexivity.
Qed.

Lemma runs_cut (limit : Z) (l : list (datetime * Z)) :
  cut_into_runs limit l (runs limit l).
Proof.
  unfold cut_into_runs. induction l as [|x l IH].
  - repeat split; constructor.
  - destruct IH as (Hc & Hf & Ha).
    simpl. destruct (runs limit l) as [|[|y r] rs] eqn:E.
    + simpl in Hc. subst l. repeat split; repeat constructor; discriminate.
    + inversion Hf as [|? ? [Hne _] _]. destruct Hne. reflexivity.
    + inversion Hf as [|r0 rs0 [_ Hg] Hf' [Hr0 Hrs0]]. clear Hr0 Hrs0.
      destruct (Z.leb_spec (minutes_of (fst y) - minutes_of (fst x)) limit)
        as [Hnear | Hfar].
      * split; [simpl in *; rewrite Hc; reflexivity|]. split.
        -- constructor; [|exact Hf'].
           split; [discriminate | split; assumption].
        -- destruct rs as [|[|z r'] rs']; try exact I.
           destruct Ha as [Ha1 Ha2]. split; [|exact Ha2].
           rewrite !last_cons. rewrite !last_cons in Ha1. exact Ha1.
      * split; [simpl in *; rewrite Hc; reflexivity|]. split.
        -- constructor; [|exact Hf].
           split; [discriminate | exact I].
        -- split; [simpl; lia | exact Ha].
Qed.

(** The clusters returned are the clusters of the runs of the sorted
    buckets that are large enough, in descending order of count: the
    sorted list is cut into its runs (nothing lost, the buckets of a run at
    most the gap apart, neighbouring runs further apart), each run whose
    counts add up to the minimum is returned as one cluster, and no other
    cluster is. *)
Theorem clusters_are_the_large_runs
        (timestamps : list (str * Z)) (min_cluster_size max_gap_hours : Z) :
  timedelta_hours max_gap_hours <> None ->
  let sorted_times := sort_times (parse_buckets timestamps) in
  cut_into_runs (60 * max_gap_hours) sorted_times
                (runs (60 * max_gap_hours) sorted_times)
  /\ find_time_clusters timestamps min_cluster_size max_gap_hours
     = Some (clusters_of_runs min_cluster_size (60 * max_gap_hours)
                              sorted_times).
Proof.
  intros Ht. cbv zeta. split; [apply runs_cut|].
  destruct (timedelta_hours max_gap_hours) as [limit|] eqn:El;
    [|congruence].
  pose proof (@timedelta_hours_value _ _ El) as ->.
  assert (Hgen : forall sorted,
             cluster_sorted_times min_cluster_size max_gap_hours sorted
             = Some (clusters_of_runs min_cluster_size (60 * max_gap_hours)
                                      sorted)).
  { intros [|x sorted]; [reflexivity|].
    unfold cluster_sorted_times. cbn [scan].
    destruct (@scan_runs min_cluster_size max_gap_hours _ sorted El
                         x [] [] I) as (rs & r & Hr & Hs).
    change (open_of [x]) with (Some (MkOpen (fst x) (fst x) (total [x])))
      in Hs.
    replace (total [x]) with (snd x) in Hs
      by (unfold total; simpl; lia).
    destruct x as [dt n]. simpl fst in *. simpl snd in *. rewrite Hs.
    unfold clusters_of_runs. simpl app in Hr. rewrite Hr.
    rewrite filter_app, map_app. f_equal. f_equal. simpl app.
    assert (Hne : r <> []).
    { intros ->. destruct (runs_cut (60 * max_gap_hours) ((dt, n) :: sorted))
        as (_ & Hf & _). rewrite Hr in Hf.
      apply Forall_app in Hf. destruct Hf as [_ Hf].
      inversion Hf as [|? ? [Hx _] _]. apply Hx. reflexivity. }
    destruct r as [|first members]; [destruct Hne; reflexivity|].
    cbn [open_of]. unfold close. cbn [count filter].
    fold (large min_cluster_size (first :: members)).
    destruct (large min_cluster_size (first :: members)).
    - reflexivity.
    - simpl. rewrite app_nil_r. reflexivity. }
  unfold find_time_clusters.
  destruct timestamps as [|b ts]; [reflexivity|].
  destruct (parse_buckets (b :: ts)) as [|x parsed]; [reflexivity|].
  apply Hgen.
Qed.

Lemma clusters_are_the_large_runs_witness :
  find_time_clusters Scenarios.buckets_by_hour 3 1
  = Some (clusters_of_runs 3 60
            (sort_times (parse_buckets Scenarios.buckets_by_hour))).
Proof.
  apply (proj2 (@clusters_are_the_large_runs Scenarios.buckets_by_hour 3 1
                  ltac:(discriminate))).
Defined.

Lemma parse_buckets_app (a b : list (str * Z)) :
  parse_buckets (a ++ b) = parse_buckets a ++ parse_buckets b.
Proof.
  induction a as [|[k n] a IH]; simpl; [reflexivity|].
  destruct (strptime k); simpl; rewrite IH; reflexivity.
Qed.

Lemma find_by_parsed (timestamps : list (str * Z)) (min gap : Z) :
  find_time_clusters timestamps min gap
  = match parse_buckets timestamps with
    | [] => Some []
    | parsed => cluster_sorted_times min gap (sort_times parsed)
    end.
Proof. destruct timestamps; reflexivity. Qed.

(** A bucket whose key is not of the form the function parses changes
    nothing, wherever it stands in the dictionary and whatever its
    count. *)
Theorem unparseable_bucket_is_ignored
        (before after : list (str * Z)) (key : str) (n : Z)
        (min_cluster_size max_gap_hours : Z) :
  strptime key = None ->
  find_time_clusters (before ++ (key, n) :: after)
                     min_cluster_size max_gap_hours
  = find_time_clusters (before ++ after) min_cluster_size max_gap_hours.
Proof.
  intros Hk. rewrite !find_by_parsed, !parse_buckets_app. simpl.
  rewrite Hk. reflexivity.
Qed.

Lemma unparseable_bucket_is_ignored_witness :
  find_time_clusters
    (firstn 1 Scenarios.buckets_by_hour
     ++ (lit "yesterday 10", 40) :: skipn 1 Scenarios.buckets_by_hour) 3 1
  = find_time_clusters
      (firstn 1 Scenarios.buckets_by_hour
       ++ skipn 1 Scenarios.buckets_by_hour) 3 1.
Proof.
  apply (@unparseable_bucket_is_ignored
           (firstn 1 Scenarios.buckets_by_hour)
           (skipn 1 Scenarios.buckets_by_hour) (lit "yesterday 10") 40 3 1).
  reflexivity.
Defined.

End ClusterSpecFacts.

(* ====================================================================== *)
(** * The hour key of line 704 is read back by line 761 *)
(* ====================================================================== *)

Module HourKeyFacts.

Import Datetime LogPatterns.
Open Scope Z_scope.

Lemma mod10_cases (v : Z) :
  v mod 10 = 0 \/ v mod 10 = 1 \/ v mod 10 = 2 \/ v mod 10 = 3
  \/ v mod 10 = 4 \/ v mod 10 = 5 \/ v mod 10 = 6 \/ v mod 10 = 7
  \/ v mod 10 = 8 \/ v mod 10 = 9.
Proof. pose proof (Z.mod_pos_bound v 10). lia. Qed.

Lemma digit_digit_char (v : Z) : digit (digit_char v) = Some (v mod 10).
Proof.
  unfold digit_char.
  destruct (mod10_cases v) as [E|[E|[E|[E|[E|[E|[E|[E|[E|E]]]]]]]]];
    rewrite E; reflexivity.
Qed.

Lemma digit_char_not_space (v : Z) : isspace (digit_char v) = false.
Proof.
  unfold digit_char.
  destruct (mod10_cases v) as [E|[E|[E|[E|[E|[E|[E|[E|[E|E]]]]]]]]];
    rewrite E; reflexivity.
Qed.

Lemma parse_Y_show_year (A : Type) (k : Z -> str -> option A) (y : Z)
      (rest : str) :
  1000 <= y <= 9999 ->
  parse_Y k (show_year y ++ rest) = k y rest.
Proof.
  intros Hy. unfold show_year.
  destruct (Z.leb_spec 1000 y); [|lia].
  destruct (Z.leb_spec 100 y); [|lia].
  destruct (Z.leb_spec 10 y); [|lia].
  cbn [app parse_Y]. rewrite !digit_digit_char. f_equal.
  pose proof (Z.div_mod y 10 ltac:(lia)).
  pose proof (Z.div_mod (y / 10) 10 ltac:(lia)).
  pose proof (Z.div_mod (y / 10 / 10) 10 ltac:(lia)).
  pose proof (Z.mod_pos_bound y 10 ltac:(lia)).
  pose proof (Z.mod_pos_bound (y / 10) 10 ltac:(lia)).
  pose proof (Z.mod_pos_bound (y / 10 / 10) 10 ltac:(lia)).
  assert (E100 : y / 100 = y / 10 / 10)
    by (rewrite Z.div_div by lia; reflexivity).
  assert (E1000 : y / 1000 = y / 10 / 10 / 10)
    by (rewrite !Z.div_div by lia; reflexivity).
  rewrite E100, E1000.
  assert (Hsmall : 0 <= y / 10 / 10 / 10 < 10).
  { split.
    - repeat apply Z.div_pos; lia.
    - rewrite <- E1000. apply Z.div_lt_upper_bound; lia. }
  rewrite (Z.mod_small (y / 10 / 10 / 10) 10 Hsmall).
  pose proof (Z.div_mod (y / 10 / 10) 10 ltac:(lia)).
  lia.
Qed.

Lemma range_cases (lo hi v : Z) :
  lo <= v <= hi -> In v (map (fun i => lo + Z.of_nat i)
                             (seq 0 (Z.to_nat (hi - lo + 1)))).
Proof.
  intros H. apply in_map_iff. exists (Z.to_nat (v - lo)). split; [lia|].
  apply in_seq. lia.
Qed.

Lemma parse_m_pad2 (A : Type) (k : Z -> str -> option A) (m : Z)
      (rest : str) (r : A) :
  1 <= m <= 12 -> k m rest = Some r ->
  parse_m k (pad2 m ++ rest) = Some r.
Proof.
  intros Hm Hk. apply range_cases in Hm. simpl in Hm.
  repeat (destruct Hm as [<- | Hm];
          [cbv [parse_m pad2 app]; simpl; rewrite Hk; reflexivity|]).
  destruct Hm.
Qed.

Lemma parse_d_pad2 (A : Type) (k : Z -> str -> option A) (d : Z)
      (rest : str) (r : A) :
  1 <= d <= 31 -> k d rest = Some r ->
  parse_d k (pad2 d ++ rest) = Some r.
Proof.
  intros Hd Hk. apply range_cases in Hd. simpl in Hd.
  repeat (destruct Hd as [<- | Hd];
          [cbv [parse_d pad2 app]; simpl; rewrite Hk; reflexivity|]).
  destruct Hd.
Qed.

Lemma parse_H_pad2 (A : Type) (k : Z -> str -> option A) (h : Z)
      (rest : str) (r : A) :
  0 <= h <= 23 -> k h rest = Some r ->
  parse_H k (pad2 h ++ rest) = Some r.
Proof.
  intros Hh Hk. apply range_cases in Hh. simpl in Hh.
  repeat (destruct Hh as [<- | Hh];
          [cbv [parse_H pad2 app]; simpl; rewrite Hk; reflexivity|]).
  destruct Hh.
Qed.

(** The key written for an hour is read back as that hour: for every
    valid time from the year 1000 on, [strptime] accepts the key that
    [strftime] made of it and gives the time with its minutes cut off. *)
Theorem hour_key_round_trip (d : datetime) :
  valid d = true ->
  1000 <= year d ->
  strptime (hour_key d)
  = Some (MkDatetime (year d) (month d) (day d) (hour d) 0).
Proof.
  intros Hv Hy. unfold valid in Hv.
  repeat (apply andb_true_iff in Hv; destruct Hv as [Hv ?]).
  repeat match goal with
         | H : (_ <=? _) = true |- _ => apply Z.leb_le in H
         end.
  assert (Hdim : days_in_month (year d) (month d) <= 31).
  { unfold days_in_month.
    destruct (month d =? 2); [destruct (is_leap (year d)); lia|].
    destruct (_ || _); lia. }
  assert (Hfmt : match_format (hour_key d)
                 = Some (MkDatetime (year d) (month d) (day d) (hour d) 0,
                         [])).
  { unfold match_format, hour_key.
    rewrite parse_Y_show_year by lia.
    cbn [lit list_ascii_of_string app dash eqc Ascii.eqb Bool.eqb].
    apply parse_m_pad2; [lia|].
    cbn [lit list_ascii_of_string app dash eqc Ascii.eqb Bool.eqb].
    apply parse_d_pad2; [lia|].
    cbn [lit list_ascii_of_string app ws_plus].
    change (isspace " "%char) with true. cbv iota.
    unfold pad2 at 1. cbn [Re.ws_star].
    rewrite digit_char_not_space.
    change [digit_char (hour d / 10); digit_char (hour d)]
      with (pad2 (hour d) ++ []).
    apply parse_H_pad2; [lia | reflexivity]. }
  unfold strptime. rewrite Hfmt.
  assert (Hvalid : valid (MkDatetime (year d) (month d) (day d) (hour d) 0)
                   = true).
  { unfold valid. simpl.
    repeat (apply andb_true_iff; split); try apply Z.leb_le; try lia. }
  rewrite Hvalid. reflexivity.
Qed.

Lemma hour_key_round_trip_witness :
  strptime (hour_key (MkDatetime 2024 2 29 23 59))
  = Some (MkDatetime 2024 2 29 23 0).
Proof.
  apply (@hour_key_round_trip (MkDatetime 2024 2 29 23 59)).
  - reflexivity.
  - simpl. lia.
Defined.

End HourKeyFacts.

(* ====================================================================== *)
(** * add_to_memory_list *)
(* ====================================================================== *)

Module MemoryFacts.

Import Memory PyFacts.
Open Scope Z_scope.

Section Entries.
Variable E : Type.

Lemma lookup_store_same (key : str) (v : mvalue E) (m : memory E) :
  lookup key (store key v m) = Some v.
Proof.
  induction m as [|[k w] m IH]; simpl.
  - rewrite eqs_refl. reflexivity.
  - destruct (eqs key k) eqn:Ek; simpl; rewrite Ek; [reflexivity | exact IH].
Qed.

Lemma lookup_store_other (key other : str) (v : mvalue E) (m : memory E) :
  other <> key -> lookup other (store key v m) = lookup other m.
Proof.
  intros Hne.
  assert (Hf : eqs other key = false).
  { apply not_true_is_false. intros H. apply eqs_eq in H. contradiction. }
  induction m as [|[k w] m IH]; simpl.
  - rewrite Hf. reflexivity.
  - destruct (eqs key k) eqn:Ek; simpl.
    + apply eqs_eq in Ek. subst k. rewrite Hf. reflexivity.
    + destruct (eqs other k); [reflexivity | exact IH].
Qed.

Lemma trim_is_firstn (max_items : Z) (l : list E) :
  0 <= max_items ->
  (if max_items <? Z.of_nat (List.length l)
   then slice_to max_items l else l)
  = firstn (Z.to_nat max_items) l.
Proof.
  intros Hmax. unfold slice_to.
  destruct (Z.ltb_spec max_items (Z.of_nat (List.length l))).
  - destruct (Z.leb_spec 0 max_items); [reflexivity | lia].
  - symmetry. apply firstn_all2. lia.
Qed.

Lemma list_at_add (m : memory E) (key : str) (v : E) (max_items : Z) :
  0 <= max_items ->
  list_at key (add_to_memory_list m key v max_items)
  = firstn (Z.to_nat max_items) (v :: list_at key m).
Proof.
  intros Hmax. unfold add_to_memory_list.
  rewrite trim_is_firstn by exact Hmax.
  unfold list_at at 1. rewrite lookup_store_same. reflexivity.
Qed.

Lemma firstn_app_firstn (n : nat) (a b : list E) :
  firstn n (a ++ firstn n b) = firstn n (a ++ b).
Proof.
  rewrite !firstn_app, firstn_firstn. f_equal. f_equal. lia.
Qed.

Lemma list_at_add_all (values : list E) : forall (m : memory E) key max_items,
  0 <= max_items ->
  firstn (Z.to_nat max_items) (list_at key (add_all m key values max_items))
  = firstn (Z.to_nat max_items) (rev values ++ list_at key m).
Proof.
  induction values as [|v values IH]; intros m key max_items Hmax.
  - reflexivity.
  - unfold add_all in *. simpl fold_left. rewrite IH by exact Hmax.
    rewrite list_at_add by exact Hmax. rewrite firstn_app_firstn.
    simpl rev. rewrite <- app_assoc. reflexivity.
Qed.

Lemma list_at_add_all_short (values : list E) :
  forall (m : memory E) key max_items,
  0 <= max_items -> values <> [] ->
  (List.length (list_at key (add_all m key values max_items))
   <= Z.to_nat max_items)%nat.
Proof.
  induction values as [|v values IH]; intros m key max_items Hmax Hne;
    [destruct Hne; reflexivity|].
  unfold add_all in *. simpl fold_left.
  destruct values as [|w values].
  - simpl. rewrite list_at_add by exact Hmax. rewrite length_firstn. lia.
  - apply IH; [exact Hmax | discriminate].
Qed.

Lemma lookup_add_all_is_list (values : list E) :
  forall (m : memory E) key max_items,
  values <> [] ->
  lookup key (add_all m key values max_items)
  = Some (M_list (list_at key (add_all m key values max_items))).
Proof.
  induction values as [|v values IH]; intros m key max_items Hne;
    [destruct Hne; reflexivity|].
  unfold add_all in *. simpl fold_left.
  destruct values as [|w values].
  - simpl. unfold list_at at 1, add_to_memory_list.
    rewrite !lookup_store_same. reflexivity.
  - apply IH. discriminate.
Qed.

Lemma lookup_add_all_other (values : list E) :
  forall (m : memory E) key other max_items,
  other <> key ->
  lookup other (add_all m key values max_items) = lookup other m.
Proof.
  induction values as [|v values IH]; intros m key other max_items Hne.
  - reflexivity.
  - unfold add_all in *. simpl fold_left. rewrite IH by exact Hne.
    unfold add_to_memory_list. apply lookup_store_other, Hne.
Qed.

(** After any number of calls for one key, the key holds the most recent
    values, newest first, cut to [max_items]: the values added, in reverse
    order, in front of what the key held as a list before (nothing, when
    the key was absent or held no list); every other key holds what it
    held. *)
Theorem memory_list_keeps_most_recent
        (m : memory E) (key : str) (values : list E) (max_items : Z) :
  0 <= max_items ->
  values <> [] ->
  lookup key (add_all m key values max_items)
  = Some (M_list (firstn (Z.to_nat max_items)
                         (rev values ++ list_at key m)))
  /\ forall other, other <> key ->
                   lookup other (add_all m key values max_items)
                   = lookup other m.
Proof.
  intros Hmax Hne. split.
  - rewrite (lookup_add_all_is_list m key max_items Hne). f_equal. f_equal.
    rewrite <- (list_at_add_all values m key Hmax).
    symmetry. apply firstn_all2.
    apply list_at_add_all_short; assumption.
  - intros other Ho. apply lookup_add_all_other, Ho.
Qed.

End Entries.

Lemma memory_list_keeps_most_recent_witness :
  lookup (lit "command_history")
         (add_all [(lit "last_session", M_other nat);
                   (lit "command_history", M_list [10; 20]%nat)]
                  (lit "command_history") [1; 2; 3]%nat 4)
  = Some (M_list [3; 2; 1; 10]%nat).
Proof.
  apply (proj1 (@memory_list_keeps_most_recent
                  nat
                  [(lit "last_session", M_other nat);
                   (lit "command_history", M_list [10; 20]%nat)]
                  (lit "command_history") [1; 2; 3]%nat 4
                  ltac:(lia) ltac:(discriminate))).
Defined.

End MemoryFacts.

(* ====================================================================== *)
(** * analyze_logs_for_patterns *)
(* ====================================================================== *)

Module LogPatternsFacts.

Import LogPatterns PyFacts PySortFacts.
Open Scope Z_scope.

Lemma opt_eqb_eq (a b : option str) : opt_eqb a b = true <-> a = b.
Proof.
  destruct a as [x|], b as [y|]; simpl; split; try congruence;
    try discriminate.
  - intros H. apply eqs_eq in H. congruence.
  - intros H. injection H as ->. apply eqs_refl.
Qed.

Lemma log_eqb_eq (a b : log) : log_eqb a b = true <-> a = b.
Proof.
  unfold log_eqb. rewrite !andb_true_iff, !opt_eqb_eq.
  destruct a, b; simpl. split.
  - intros [[[[-> ->] ->] ->] ->]. reflexivity.
  - intros H. injection H as -> -> -> -> ->. tauto.
Qed.

Lemma mem_In (x : str) (s : list str) : mem x s = true <-> In x s.
Proof.
  unfold mem. rewrite existsb_exists. split.
  - intros (y & Hy & E). apply eqs_eq in E. subst. exact Hy.
  - intros H. exists x. split; [exact H | apply eqs_refl].
Qed.

Lemma set_add_In (x y : str) (s : list str) :
  In y (set_add x s) <-> y = x \/ In y s.
Proof.
  unfold set_add. destruct (mem x s) eqn:E.
  - apply mem_In in E. split; [tauto|]. intros [-> | H]; assumption.
  - rewrite in_app_iff. simpl. split; [intros [H|[->|[]]]; tauto|].
    intros [-> | H]; tauto.
Qed.

Lemma set_add_NoDup (x : str) (s : list str) :
  NoDup s -> NoDup (set_add x s).
Proof.
  intros H. unfold set_add. destruct (mem x s) eqn:E; [exact H|].
  apply NoDup_app; [exact H | repeat constructor; intros [] |].
  intros y Hy [<- | []]. apply mem_In in Hy. congruence.
Qed.

(** ** The fold over the entries *)

Section Fold.
Variable fromisoformat : str -> option Datetime.datetime.

Lemma fold_invariant (P : patterns -> list log -> Prop) :
  (forall pt done l, P pt done -> P (analyze_one fromisoformat pt l) (done ++ [l])) ->
  forall logs pt done,
    P pt done -> P (fold_left (analyze_one fromisoformat) logs pt) (done ++ logs).
Proof.
  intros Hstep. induction logs as [|l logs IH]; intros pt done Hp.
  - rewrite app_nil_r. exact Hp.
  - simpl. replace (done ++ l :: logs) with ((done ++ [l]) ++ logs)
      by (rewrite <- app_assoc; reflexivity).
    apply IH, Hstep, Hp.
Qed.

(** ** Sources *)

Lemma bump_source_sum (key : str) (level : option str)
      (d : list (str * source_stat)) :
  sum_counts s_count (bump_source key level d) = sum_counts s_count d + 1.
Proof.
  unfold sum_counts. induction d as [|[k st] d IH]; simpl.
  - lia.
  - destruct (eqs key k); simpl; lia.
Qed.

Lemma bump_source_keys (key : str) (level : option str)
      (d : list (str * source_stat)) :
  map fst (bump_source key level d)
  = if mem key (map fst d) then map fst d else map fst d ++ [key].
Proof.
  induction d as [|[k st] d IH]; simpl; [reflexivity|].
  destruct (eqs key k); simpl; [reflexivity|].
  rewrite IH. destruct (mem key (map fst d)); reflexivity.
Qed.

Lemma bump_source_NoDup (key : str) (level : option str)
      (d : list (str * source_stat)) :
  NoDup (map fst d) -> NoDup (map fst (bump_source key level d)).
Proof.
  intros H. rewrite bump_source_keys.
  exact (set_add_NoDup key H).
Qed.

Lemma sum_counts_perm (A : Type) (count : A -> Z) (d d' : list (str * A)) :
  Permutation d d' -> sum_counts count d = sum_counts count d'.
Proof.
  unfold sum_counts. induction 1; simpl; lia.
Qed.

(** Every entry is counted under exactly one source: the counts of
    [frequent_sources] add up to the number of entries, no source stands
    twice, and the sources stand in descending order of count. *)
Theorem every_entry_counted_once (logs : list log) :
  let sources := frequent_sources (analyze_logs fromisoformat logs) in
  sum_counts s_count sources = Z.of_nat (List.length logs)
  /\ NoDup (map fst sources)
  /\ StronglySorted (fun a b => s_count (snd b) <= s_count (snd a)) sources.
Proof.
  cbv zeta. unfold analyze_logs. cbn [frequent_sources].
  pose proof (@fold_invariant
                (fun pt done =>
                   sum_counts s_count (frequent_sources pt)
                   = Z.of_nat (List.length done)
                   /\ NoDup (map fst (frequent_sources pt)))) as Hinv.
  specialize (Hinv ltac:(
    intros pt done l [Hs Hn]; unfold analyze_one;
    cbn [frequent_sources]; split;
    [ rewrite bump_source_sum, Hs, length_app; simpl; lia
    | apply bump_source_NoDup, Hn ])).
  destruct (Hinv logs empty_patterns [] (conj eq_refl (NoDup_nil _)))
    as [Hs Hn].
  pose proof (sort_by_key_reverse_perm
                (fun kv : str * source_stat => s_count (snd kv))
                (frequent_sources (fold_left (analyze_one fromisoformat) logs empty_patterns)))
    as Hperm.
  split; [|split].
  - rewrite (sum_counts_perm s_count Hperm). exact Hs.
  - eapply Permutation_NoDup; [|exact Hn].
    apply Permutation_map. symmetry. exact Hperm.
  - apply (sort_by_key_reverse_descending
             (fun kv : str * source_stat => s_count (snd kv))).
Qed.

(** ** Hour buckets *)

Lemma bump_hour_sum (key : str) (d : list (str * Z)) :
  sum_counts (fun n => n) (bump_hour key d)
  = sum_counts (fun n => n) d + 1.
Proof.
  unfold sum_counts. induction d as [|[k n] d IH]; simpl.
  - lia.
  - destruct (eqs key k); simpl; lia.
Qed.

Lemma bump_hour_keys (key : str) (d : list (str * Z)) :
  map fst (bump_hour key d)
  = if mem key (map fst d) then map fst d else map fst d ++ [key].
Proof.
  induction d as [|[k n] d IH]; simpl; [reflexivity|].
  destruct (eqs key k); simpl; [reflexivity|].
  rewrite IH. destruct (mem key (map fst d)); reflexivity.
Qed.

Lemma bump_hour_positive (key : str) (d : list (str * Z)) :
  Forall (fun kv => 1 <= snd kv) d ->
  Forall (fun kv => 1 <= snd kv) (bump_hour key d).
Proof.
  induction 1 as [|[k n] d Hk Hd IH]; simpl.
  - repeat constructor. simpl. lia.
  - destruct (eqs key k); constructor; simpl in *; try assumption; lia.
Qed.

(** Every entry with a timestamp is counted in exactly one hour bucket,
    and the others in none: the counts of [error_timestamps] add up to the
    number of entries whose timestamp is not empty, no key stands twice,
    and every bucket counts at least one entry. *)
Theorem every_timestamp_in_one_bucket (logs : list log) :
  let buckets := error_timestamps (analyze_logs fromisoformat logs) in
  sum_counts (fun n => n) buckets
  = Z.of_nat (List.length (filter has_timestamp logs))
  /\ NoDup (map fst buckets)
  /\ Forall (fun kv => 1 <= snd kv) buckets.
Proof.
  cbv zeta. unfold analyze_logs. cbn [error_timestamps].
  pose proof (@fold_invariant
                (fun pt done =>
                   sum_counts (fun n => n) (error_timestamps pt)
                   = Z.of_nat (List.length (filter has_timestamp done))
                   /\ NoDup (map fst (error_timestamps pt))
                   /\ Forall (fun kv => 1 <= snd kv) (error_timestamps pt)))
    as Hinv.
  apply (fun H => Hinv H logs empty_patterns []).
  - intros pt done l (Hs & Hn & Hp). unfold analyze_one.
    cbn [error_timestamps]. rewrite filter_app, length_app. simpl filter.
    unfold has_timestamp at 2.
    destruct (get (TimeCreated l) []) as [|c ts].
    + simpl. rewrite Nat.add_0_r. repeat split; assumption.
    + split; [|split].
      * rewrite bump_hour_sum, Hs. simpl. lia.
      * rewrite bump_hour_keys. exact (set_add_NoDup _ Hn).
      * apply bump_hour_positive, Hp.
  - repeat split; constructor.
Qed.

(** ** Categories *)

Lemma existsb_log_eqb (l : log) (ls : list log) :
  existsb (log_eqb l) ls = true <-> In l ls.
Proof.
  rewrite existsb_exists. split.
  - intros (x & Hx & E). apply log_eqb_eq in E. subst. exact Hx.
  - intros H. exists l. split; [exact H | apply log_eqb_eq; reflexivity].
Qed.

(** An entry is listed as a crash when its message has a crash keyword,
    and as a service failure when it has a service keyword and no crash
    keyword; so no entry is in both lists. *)
Theorem crash_excludes_service (logs : list log) :
  let pt := analyze_logs fromisoformat logs in
  app_crashes pt = filter is_crash logs
  /\ service_failures pt
     = filter (fun l => is_service l && negb (is_crash l)) logs
  /\ forall l, In l (service_failures pt) -> ~ In l (app_crashes pt).
Proof.
  cbv zeta. unfold analyze_logs. cbn [app_crashes service_failures].
  pose proof (@fold_invariant
                (fun pt done =>
                   app_crashes pt = filter is_crash done
                   /\ service_failures pt
                      = filter (fun l => is_service l && negb (is_crash l))
                               done)) as Hinv.
  assert (H : app_crashes (fold_left (analyze_one fromisoformat) logs empty_patterns)
              = filter is_crash ([] ++ logs)
              /\ service_failures (fold_left (analyze_one fromisoformat) logs empty_patterns)
                 = filter (fun l => is_service l && negb (is_crash l))
                          ([] ++ logs)).
  { apply Hinv; [|split; reflexivity].
    intros pt done l [Hc Hs]. unfold analyze_one.
    cbn [app_crashes service_failures]. rewrite !filter_app. simpl filter.
    fold (is_crash l). fold (is_service l). split.
    - rewrite Hc. destruct (is_crash l); [reflexivity|].
      rewrite app_nil_r. reflexivity.
    - rewrite Hs, Hc. destruct (is_service l); simpl;
        [|rewrite app_nil_r; reflexivity].
      destruct (is_crash l) eqn:Ecr; simpl.
      + assert (E : existsb (log_eqb l) (filter is_crash done ++ [l])
                    = true).
        { apply existsb_log_eqb, in_or_app. right. left. reflexivity. }
        rewrite E. simpl. rewrite app_nil_r. reflexivity.
      + assert (E : existsb (log_eqb l) (filter is_crash done) = false).
        { apply not_true_is_false. intros E.
          apply existsb_log_eqb, filter_In in E. destruct E as [_ E].
          congruence. }
        rewrite E. reflexivity. }
  simpl app in H. destruct H as [Hc Hs]. split; [exact Hc|].
  split; [exact Hs|].
  intros l Hl Hl'. rewrite Hs in Hl. rewrite Hc in Hl'.
  apply filter_In in Hl. apply filter_In in Hl'.
  destruct Hl as [_ Hl]. destruct Hl' as [_ Hl'].
  rewrite Hl' in Hl. rewrite andb_false_r in Hl. discriminate.
Qed.

(** ** Keywords with capital letters *)

Lemma lower_char_idempotent (c : ascii) :
  lower_char (lower_char c) = lower_char c.
Proof.
  destruct c as [[] [] [] [] [] [] [] []]; vm_compute; reflexivity.
Qed.

Lemma upper_keyword_never_found (keyword s : str) :
  has_upper keyword -> contains keyword (lower s) = false.
Proof.
  intros (c & Hc & Hup). apply not_true_is_false. intros H.
  assert (Hin : In c (lower s)).
  { destruct (contains_inv _ _ H) as (pre & post & E). rewrite E.
    apply in_or_app. right. apply in_or_app. left. exact Hc. }
  apply in_map_iff in Hin. destruct Hin as (c' & <- & _).
  apply Hup, lower_char_idempotent.
Qed.

Lemma category_is_filter (keywords : list str)
      (field : patterns -> list log) :
  (forall pt l,
      field (analyze_one fromisoformat pt l)
      = if any_in keywords (msg_of l) then field pt ++ [l] else field pt) ->
  field empty_patterns = [] ->
  forall logs,
    field (fold_left (analyze_one fromisoformat) logs empty_patterns)
    = filter (fun l => any_in keywords (msg_of l)) logs.
Proof.
  intros Hstep Hinit logs.
  pose proof (@fold_invariant
                (fun pt done =>
                   field pt
                   = filter (fun l => any_in keywords (msg_of l)) done))
    as Hinv.
  apply (fun H => Hinv H logs empty_patterns []); [|exact Hinit].
  intros pt done l Hf. rewrite Hstep, filter_app, Hf. simpl.
  destruct (any_in keywords (msg_of l)); [reflexivity|].
  rewrite app_nil_r. reflexivity.
Qed.

(** The keywords are looked for in the lowered message, so a keyword
    with a capital letter in it is never found: an entry is listed as a
    permission error exactly when its lowered message contains
    "permission" or "access denied" (never on account of EPERM or EACCES),
    and as a driver issue exactly on account of the six driver keywords
    other than iaStor. *)
Theorem capital_keywords_never_match (logs : list log) :
  let pt := analyze_logs fromisoformat logs in
  permission_errors pt
  = filter (fun l => contains (lit "permission") (msg_of l)
                     || contains (lit "access denied") (msg_of l)) logs
  /\ driver_issues pt
     = filter (fun l =>
                 any_in (map lit [ "driver"; "device"; "\driver\";
                                   "nvlddmkm"; "amdkmdag"; "rtx" ]%string)
                        (msg_of l)) logs.
Proof.
  cbv zeta. unfold analyze_logs. cbn [permission_errors driver_issues].
  split.
  - rewrite (@category_is_filter permission_keywords permission_errors
               ltac:(reflexivity) eq_refl logs).
    apply filter_ext. intros l. unfold any_in, permission_keywords, msg_of.
    simpl existsb.
    rewrite (@upper_keyword_never_found (lit " EPERM ")),
            (@upper_keyword_never_found (lit " EACCES ")).
    + rewrite !orb_false_r. reflexivity.
    + exists "E"%char. split; [simpl; tauto | discriminate].
    + exists "E"%char. split; [simpl; tauto | discriminate].
  - rewrite (@category_is_filter driver_keywords driver_issues
               ltac:(reflexivity) eq_refl logs).
    apply filter_ext. intros l. unfold any_in, driver_keywords, msg_of.
    simpl existsb.
    rewrite (@upper_keyword_never_found (lit "iaStor")).
    + reflexivity.
    + exists "S"%char. split; [simpl; tauto | discriminate].
Qed.

(** ** Suspicious applications *)

Lemma apps_fold (l : log) (apps : list str) : forall (s : list str) app,
  In app
     (fold_left (fun s a => if names_app a l then set_add a s else s)
                apps s)
  <-> In app s \/ (In app apps /\ names_app app l = true).
Proof.
  induction apps as [|a apps IH]; intros s app; simpl.
  - tauto.
  - rewrite IH. destruct (names_app a l) eqn:E.
    + rewrite set_add_In. split.
      * intros [[-> | H] | [H1 H2]]; auto.
      * intros [H | [[<- | H1] H2]]; auto.
    + split.
      * intros [H | [H1 H2]]; auto.
      * intros [H | [[<- | H1] H2]]; auto. congruence.
Qed.

Lemma apps_fold_NoDup (l : log) (apps : list str) : forall (s : list str),
  NoDup s ->
  NoDup (fold_left (fun s a => if names_app a l then set_add a s else s)
                   apps s).
Proof.
  induction apps as [|a apps IH]; intros s Hs; simpl; [exact Hs|].
  apply IH. destruct (names_app a l); [apply set_add_NoDup|]; exact Hs.
Qed.

(** The suspicious applications are the applications of the watch list
    whose name, in any case, occurs in the message or in the source of
    some entry; each is listed once. *)
Theorem suspicious_apps_are_the_named_ones (logs : list log) :
  let apps := suspicious_apps (analyze_logs fromisoformat logs) in
  NoDup apps
  /\ forall app,
       In app apps
       <-> In app known_problematic_apps
           /\ exists l, In l logs /\ names_app app l = true.
Proof.
  cbv zeta. unfold analyze_logs. cbn [suspicious_apps].
  pose proof (@fold_invariant
                (fun pt done =>
                   NoDup (suspicious_apps pt)
                   /\ forall app,
                        In app (suspicious_apps pt)
                        <-> In app known_problematic_apps
                            /\ exists l, In l done
                                         /\ names_app app l = true))
    as Hinv.
  apply (fun H => Hinv H logs empty_patterns []).
  - intros pt done l [Hn Hi]. unfold analyze_one. cbn [suspicious_apps].
    change (fold_left _ known_problematic_apps (suspicious_apps pt))
      with (fold_left (fun s a => if names_app a l then set_add a s else s)
                      known_problematic_apps (suspicious_apps pt)).
    split; [apply apps_fold_NoDup, Hn|].
    intros app. rewrite apps_fold, Hi. split.
    + intros [[Hk (x & Hx & Hnx)] | [Hk Hnl]].
      * split; [exact Hk|]. exists x. split; [|exact Hnx].
        apply in_or_app. left. exact Hx.
      * split; [exact Hk|]. exists l. split; [|exact Hnl].
        apply in_or_app. right. left. reflexivity.
    + intros [Hk (x & Hx & Hnx)]. apply in_app_or in Hx.
      destruct Hx as [Hx | [<- | []]].
      * left. split; [exact Hk|]. exists x. split; assumption.
      * right. split; assumption.
  - split; [constructor|]. intros app. simpl. split; [intros []|].
    intros [_ (x & [] & _)].
Qed.

End Fold.

End LogPatternsFacts.

(* ====================================================================== *)
(** * The extractor: order, number and shape of the items *)
(* ====================================================================== *)

Module ExtractShape.

Import Re Extract ExtractSpec Scenarios PyFacts PySortFacts ExtractFacts.

Lemma command_item_length (windows : bool) (response : str)
      (processed : list nat) (m : rematch) :
  List.length (command_item windows response processed m)
  = if gives_item processed m then 1%nat else 0%nat.
Proof.
  unfold command_item, gives_item.
  destruct (is_overlapped processed m); [reflexivity|].
  destruct (strip (m_group1 m)) as [|c t]; [reflexivity|].
  destruct (windows && _); [reflexivity|].
  destruct (_ || _); reflexivity.
Qed.

Lemma flat_map_length_filter (A B : Type) (f : A -> list B) (g : A -> bool)
      (l : list A) :
  (forall x, List.length (f x) = if g x then 1%nat else 0%nat) ->
  List.length (flat_map f l) = List.length (filter g l).
Proof.
  intros H. induction l as [|x l IH]; simpl; [reflexivity|].
  rewrite length_app, H, IH. destruct (g x); reflexivity.
Qed.

(** The items are one for each link span and one for each command span
    that no link claims and whose inner text is not blank; there is no
    other item. *)
Theorem one_item_per_span (windows : bool) (response : str) :
  List.length (extract_commands_from_llm_response windows response)
  = (List.length (url_matches response)
     + List.length
         (filter (gives_item (processed_indices (url_matches response)))
                 (command_matches response)))%nat.
Proof.
  unfold extract_commands_from_llm_response.
  rewrite (Permutation_length (sort_by_key_perm _ _)).
  rewrite length_app, length_map. f_equal.
  apply flat_map_length_filter. intros m. apply command_item_length.
Qed.

(** ** Positions *)

Lemma spaced_starts_NoDup (a : nat) (ms : list rematch) :
  spaced a ms -> NoDup (map m_start ms).
Proof.
  revert a. induction ms as [|m ms IH]; intros a; simpl.
  - constructor.
  - intros (H1 & H2 & H3). constructor; [|apply (IH _ H3)].
    intros Hin. apply in_map_iff in Hin. destruct Hin as (m' & E & Hm').
    pose proof (@spaced_starts _ _ H3) as Hst.
    rewrite Forall_forall in Hst. specialize (Hst m' Hm'). lia.
Qed.

Lemma command_positions_NoDup (windows : bool) (response : str)
      (processed : list nat) (a : nat) (ms : list rematch) :
  spaced a ms ->
  NoDup (positions (flat_map (command_item windows response processed) ms)).
Proof.
  unfold positions. revert a. induction ms as [|m ms IH]; intros a; simpl.
  - constructor.
  - intros (H1 & H2 & H3). rewrite map_app. apply NoDup_app.
    + pose proof (command_item_length windows response processed m) as Hl.
      destruct (command_item windows response processed m) as [|x [|y l]].
      * constructor.
      * repeat constructor. intros [].
      * simpl in Hl. destruct (gives_item processed m); discriminate.
    + apply (IH _ H3).
    + intros pos Hp Hq.
      apply in_map_iff in Hp. destruct Hp as (x & <- & Hx).
      apply in_map_iff in Hq. destruct Hq as (y & Ey & Hy).
      apply command_item_inv in Hx. destruct Hx as (_ & Hx & _).
      apply in_flat_map in Hy. destruct Hy as (m' & Hm' & Hy).
      apply command_item_inv in Hy. destruct Hy as (_ & Hy & _).
      pose proof (@spaced_starts _ _ H3) as Hst.
      rewrite Forall_forall in Hst. specialize (Hst m' Hm'). lia.
Qed.

Lemma sorted_NoDup_strict (A : Type) (key : A -> nat) (l : list A) :
  StronglySorted (fun a b => (Z.of_nat (key a) <= Z.of_nat (key b))%Z) l ->
  NoDup (map key l) ->
  StronglySorted (fun a b => key a < key b) l.
Proof.
  induction 1 as [|x l Hs IH Hx]; simpl; intros Hn; [constructor|].
  inversion Hn as [|? ? Hnot Hn']; subst.
  constructor; [apply IH, Hn'|].
  rewrite Forall_forall in *. intros y Hy. specialize (Hx y Hy).
  assert (key x <> key y).
  { intros E. apply Hnot. rewrite E. apply in_map, Hy. }
  lia.
Qed.

(** The items stand in the order of the text, no two at one place: their
    positions are strictly ascending. *)
Theorem items_in_order_of_text (windows : bool) (response : str) :
  StronglySorted
    (fun a b => original_match_position a < original_match_position b)
    (extract_commands_from_llm_response windows response).
Proof.
  unfold extract_commands_from_llm_response.
  set (processed := processed_indices (url_matches response)).
  set (raw := map (url_item response) (url_matches response)
              ++ flat_map (command_item windows response processed)
                          (command_matches response)).
  apply sorted_NoDup_strict.
  - apply (sort_by_key_ascending
             (fun x => Z.of_nat (original_match_position x))).
  - eapply Permutation_NoDup.
    + apply Permutation_map. symmetry. apply sort_by_key_perm.
    + unfold raw. rewrite map_app. apply NoDup_app.
      * rewrite map_map. simpl.
        apply (@spaced_starts_NoDup 0), url_matches_spaced.
      * apply (@command_positions_NoDup windows response processed 0),
          command_matches_spaced.
      * intros pos Hp Hq. rewrite map_map in Hp. simpl in Hp.
        apply in_map_iff in Hp. destruct Hp as (u & <- & Hu).
        apply in_map_iff in Hq. destruct Hq as (y & Ey & Hy).
        apply in_flat_map in Hy. destruct Hy as (m & Hm & Hy).
        apply command_item_inv in Hy. destruct Hy as (Hno & Hpos & _).
        pose proof (@spaced_nonempty _ _ (command_matches_spaced response))
          as Hne.
        rewrite Forall_forall in Hne. specialize (Hne m Hm).
        pose proof (@spaced_nonempty _ _ (url_matches_spaced response))
          as Hnu.
        rewrite Forall_forall in Hnu. specialize (Hnu u Hu).
        apply (@not_overlapped processed m (m_start m) Hno).
        -- apply in_span_iff. lia.
        -- apply (@processed_covers _ u _ Hu). apply in_span_iff.
           rewrite <- Hpos, Ey. lia.
Qed.

(** ** Kinds *)

(** An item is marked as an invalid command only on Windows and only
    when the first word of its command is one of the six foreign tools;
    and on Windows no item of kind [Command] has such a first word. *)
Theorem invalid_exactly_for_foreign_tools (windows : bool) (response : str)
        (it : item) :
  In it (extract_commands_from_llm_response windows response) ->
  (type_ it = T_invalid_command ->
   windows = true /\ mem (first_word_of (value it)) foreign_commands = true)
  /\ (windows = true -> type_ it = T_command ->
      mem (first_word_of (value it)) foreign_commands = false).
Proof.
  intros Hin. unfold extract_commands_from_llm_response in Hin.
  apply (@Permutation_in _ _ _ _ (sort_by_key_perm _ _)) in Hin.
  apply in_app_or in Hin. destruct Hin as [Hin | Hin].
  - apply in_map_iff in Hin. destruct Hin as (u & <- & _).
    split; [discriminate | intros _; discriminate].
  - apply in_flat_map in Hin. destruct Hin as (m & _ & Hitem).
    unfold command_item in Hitem.
    destruct (is_overlapped _ m); [destruct Hitem|].
    destruct (strip (m_group1 m)) as [|c t]; [destruct Hitem|].
    remember (mem (first_word_of (c :: t)) foreign_commands) as b eqn:Em.
    symmetry in Em.
    destruct windows, b; cbv beta iota delta [andb] in Hitem.
    + destruct Hitem as [<- | []]. simpl.
      split; [intros _; split; [reflexivity | exact Em]
             | intros _ H; discriminate H].
    + split; [|intros _ _];
        destruct (_ || _); destruct Hitem as [<- | []]; simpl;
        first [discriminate | exact Em | reflexivity].
    + split; [|discriminate];
        destruct (_ || _); destruct Hitem as [<- | []]; simpl;
        discriminate.
    + split; [|discriminate];
        destruct (_ || _); destruct Hitem as [<- | []]; simpl;
        discriminate.
Qed.

Lemma invalid_exactly_for_foreign_tools_witness :
  mem (first_word_of (lit "sudo apt update")) foreign_commands = true.
Proof.
  apply (proj1 (@invalid_exactly_for_foreign_tools
                  true (lit "Run [[*** sudo apt update ***]] first.")
                  (MkItem T_invalid_command (lit "sudo apt update")
                          (lit "Run") 4)
                  ltac:(vm_compute; left; reflexivity))
               eq_refl).
Defined.

(** ** Trimmed values *)

Lemma lstrip_head (s t : str) (c : ascii) :
  lstrip s = c :: t -> isspace c = false.
Proof.
  induction s as [|x s IH]; simpl; [discriminate|].
  destruct (isspace x) eqn:E; [exact IH|].
  intros H. injection H as <- _. exact E.
Qed.

Lemma lstrip_fixed (c : ascii) (t : str) :
  isspace c = false -> lstrip (c :: t) = c :: t.
Proof. intros H. simpl. rewrite H. reflexivity. Qed.

Lemma lstrip_idempotent (s : str) : lstrip (lstrip s) = lstrip s.
Proof.
  destruct (lstrip s) as [|c t] eqn:E; [reflexivity|].
  apply lstrip_fixed, (lstrip_head _ E).
Qed.

Lemma lstrip_snoc (w : str) (c : ascii) :
  isspace c = false -> exists u, lstrip (w ++ [c]) = u ++ [c].
Proof.
  intros Hc. induction w as [|x w IH]; simpl.
  - rewrite Hc. exists []. reflexivity.
  - destruct (isspace x); [exact IH|]. exists (x :: w). reflexivity.
Qed.

Lemma strip_idempotent (s : str) : strip (strip s) = strip s.
Proof.
  unfold strip at 2 3. unfold rstrip.
  destruct (lstrip s) as [|c t] eqn:Et; [reflexivity|].
  pose proof (@lstrip_head _ _ _ Et) as Hc.
  simpl rev.
  destruct (@lstrip_snoc (rev t) c Hc) as (u & Eu).
  assert (Hu : lstrip (u ++ [c]) = u ++ [c]).
  { rewrite <- Eu. apply lstrip_idempotent. }
  rewrite Eu. rewrite rev_app_distr. simpl.
  unfold strip, rstrip. rewrite (@lstrip_fixed c (rev u) Hc).
  simpl rev. rewrite rev_involutive, Hu, rev_app_distr. reflexivity.
Qed.

(** The value of every item is trimmed: it has no whitespace at either
    end. *)
Theorem values_are_trimmed (windows : bool) (response : str) :
  Forall (fun it => strip (value it) = value it)
         (extract_commands_from_llm_response windows response).
Proof.
  apply Forall_forall. intros it Hin.
  unfold extract_commands_from_llm_response in Hin.
  apply (@Permutation_in _ _ _ _ (sort_by_key_perm _ _)) in Hin.
  apply in_app_or in Hin. destruct Hin as [Hin | Hin].
  - apply in_map_iff in Hin. destruct Hin as (u & <- & _).
    simpl. apply strip_idempotent.
  - apply in_flat_map in Hin. destruct Hin as (m & _ & Hitem).
    unfold command_item in Hitem.
    destruct (is_overlapped _ m); [destruct Hitem|].
    destruct (strip (m_group1 m)) as [|c t] eqn:Es; [destruct Hitem|].
    assert (Hs : strip (c :: t) = c :: t)
      by (rewrite <- Es; apply strip_idempotent).
    destruct (windows && _).
    + destruct Hitem as [<- | []]. exact Hs.
    + destruct (_ || _); destruct Hitem as [<- | []]; simpl;
        [reflexivity | exact Hs].
Qed.

End ExtractShape.

(* ====================================================================== *)
(** * The execution loop: facts about whole sessions *)
(* ====================================================================== *)

Module LoopSession.

Import Re Extract Exec Loop LoopSpec Scenarios PyFacts PySortFacts ReFacts.

(** ** Commands with a visible code point *)

Lemma visible_split (s : str) : has_visible s -> split s <> [].
Proof.
  intros Hv H. apply SafetyVerdict.split_nil in H.
  exact (@ExecGate.visible_not_blank s Hv H).
Qed.

Lemma potential_cmd_name_defined (s : str) :
  has_visible s -> potential_cmd_name s <> None.
Proof.
  intros Hv. unfold potential_cmd_name.
  pose proof (visible_split Hv) as Hs.
  destruct (Shlex.shlex_split s) as [[|w l]|]; try discriminate;
    destruct (split s); simpl; congruence.
Qed.

Lemma checked_call_never_raises (p : platform) (a : answers) (cmd : command)
      (capture_output shell require_confirmation : bool)
      (explanation : option str) :
  (forall cs cl, validate cmd shell = inr (cs, cl) -> has_visible cs) ->
  snd (run_command p a cmd capture_output shell require_confirmation
                   explanation)
  <> Uncaught_IndexError.
Proof.
  intros Hv. unfold run_command.
  destruct (validate cmd shell) as [r | [cs cl]]; [discriminate|].
  specialize (Hv cs cl eq_refl).
  destruct (Safety.is_dangerous_command cs) as [d|] eqn:Ed.
  - assert (Hex : forall sh l res,
               snd (execute p a capture_output sh cs l res)
               <> Uncaught_IndexError).
    { intros sh l res. ExecFacts.case_execute; discriminate. }
    destruct (require_confirmation || d); [|apply Hex].
    destruct (negb _); [discriminate|].
    match goal with
    | |- context [execute ?p ?a ?c ?s ?cs ?cl ?r] =>
        pose proof (Hex s cl r) as H;
        destruct (execute p a c s cs cl r)
    end. exact H.
  - apply SafetyVerdict.blank_when_raising in Ed.
    destruct (@ExecGate.visible_not_blank cs Hv Ed).
Qed.

Lemma choose_mode_valid (p : platform) (s : str) :
  has_visible s ->
  forall cs cl,
    validate (snd (choose_mode p s)) (fst (choose_mode p s)) = inr (cs, cl) ->
    has_visible cs.
Proof.
  intros Hv cs cl. unfold choose_mode.
  destruct (_ || _); unfold validate; cbn [fst snd].
  - intros H. injection H as <- _. exact Hv.
  - destruct (Shlex.shlex_split s) as [[|x l]|]; cbn [fst snd]; intros H.
    + discriminate.
    + injection H as <- _.
      exact (@ExecGate.join_visible (lit " ") (Shlex.quote x)
               (map Shlex.quote l) (ExecGate.quote_visible x)).
    + injection H as <- _. exact Hv.
Qed.

Lemma strip_nonempty_visible (s : str) :
  strip s <> [] -> has_visible (strip s).
Proof.
  unfold strip, rstrip.
  destruct (lstrip (rev (lstrip s))) as [|c t] eqn:E;
    [intros H; destruct (H eq_refl)|].
  intros _. exists c. split.
  - apply (proj1 (in_rev (c :: t) c)). left. reflexivity.
  - exact (@ExtractShape.lstrip_head _ _ _ E).
Qed.

Lemma extracted_values_visible (w : bool) (resp : str) :
  Forall (fun it => has_visible (value it))
         (extract_commands_from_llm_response w resp).
Proof.
  apply Forall_forall. intros it Hin.
  unfold extract_commands_from_llm_response in Hin.
  apply (@Permutation_in _ _ _ _ (sort_by_key_perm _ _)) in Hin.
  apply in_app_or in Hin. destruct Hin as [Hin | Hin].
  - apply in_map_iff in Hin. destruct Hin as (u & <- & Hu).
    simpl. apply strip_nonempty_visible, strip_visible.
    pose proof (@finditer_from_groups match_url has_visible
                  match_url_group resp 0 0) as Hall.
    rewrite Forall_forall in Hall. apply (Hall u Hu).
  - apply in_flat_map in Hin. destruct Hin as (m & _ & Hitem).
    unfold command_item in Hitem.
    destruct (is_overlapped _ m); [destruct Hitem|].
    destruct (strip (m_group1 m)) as [|c t] eqn:Es; [destruct Hitem|].
    assert (Hs : has_visible (c :: t)).
    { rewrite <- Es. apply strip_nonempty_visible. rewrite Es.
      discriminate. }
    destruct (w && _).
    + destruct Hitem as [<- | []]. exact Hs.
    + destruct (_ || _); destruct Hitem as [<- | []]; simpl;
        [|exact Hs].
      exists "m"%char. split; [left; reflexivity | reflexivity].
Qed.

Lemma run_command_gated (p : platform) (a : answers) (cmd : command)
      (capture_output shell : bool) (explanation : option str) :
  gated (fst (run_command p a cmd capture_output shell true explanation))
  = true.
Proof.
  unfold run_command.
  destruct (validate cmd shell) as [r | [cs cl]]; [reflexivity|].
  destruct (Safety.is_dangerous_command cs) as [d|]; [|reflexivity].
  cbn [orb]. cbv iota.
  destruct (negb _); [reflexivity|].
  destruct (execute _ _ _ _ _ _ _) as [evs o].
  unfold gated. apply orb_true_r.
Qed.

Lemma length_list_insert (A : Type) (n : nat) (x : A) (l : list A) :
  List.length (list_insert n x l) = S (List.length l).
Proof.
  unfold list_insert. rewrite length_app. simpl.
  rewrite length_firstn, length_skipn. lia.
Qed.

Lemma list_insert_Forall (A : Type) (P : A -> Prop) (n : nat) (x : A)
      (l : list A) :
  Forall P l -> P x -> Forall P (list_insert n x l).
Proof.
  intros Hl Hx. rewrite <- (firstn_skipn n l) in Hl.
  apply Forall_app in Hl. destruct Hl as [Ha Hb].
  unfold list_insert. apply Forall_app. split; [exact Ha|].
  constructor; assumption.
Qed.

Lemma extends_refl (st : state) : extends st st.
Proof. split; [lia|]. split; [lia|]. reflexivity. Qed.

Lemma extends_trans (a b c : state) :
  extends a b -> extends b c -> extends a c.
Proof.
  intros (Hi & Hl & Hn) (Hi' & Hl' & Hn').
  split; [lia|]. split; [lia|].
  intros i Hle. rewrite Hn' by lia. apply Hn, Hle.
Qed.

Lemma executed_attempt_grows (c : str) (h h' : list history_entry) :
  executed_attempt c h = true -> executed_attempt c (h ++ h') = true.
Proof.
  unfold executed_attempt. intros H. rewrite existsb_app, H. reflexivity.
Qed.

Lemma reports_grow (h h' : list history_entry) (tr : list loop_event) :
  Forall (report_ok h) tr -> Forall (report_ok (h ++ h')) tr.
Proof.
  intros H. eapply Forall_impl; [|exact H].
  intros ev. destruct ev; simpl; auto using executed_attempt_grows.
Qed.

Section Body.
Variable p : platform.
Variable resolve_purpose : str -> item -> str.
Variable response : str.

(** What every iteration keeps, a whole session keeps. *)
Lemma run_invariant (Inv : state -> Prop) :
  (forall e st, Inv st ->
                Inv (reached (loop_body p resolve_purpose response e st))) ->
  forall envs st, Inv st ->
                  Inv (reached (run p resolve_purpose response envs st)).
Proof.
  intros Hstep. induction envs as [|e envs IH]; intros st Hst; simpl;
    [exact Hst|].
  pose proof (Hstep e st Hst) as H.
  destruct (loop_body p resolve_purpose response e st) as [st'| | |];
    try exact H.
  apply IH. exact H.
Qed.

(** ** The cursor *)

(** When an iteration goes on without moving the cursor (the last step
    of the plan succeeded, lines 1847-1849), the next iteration, whatever
    is answered, stops at the [break] of line 1614 and executes
    nothing. *)
Theorem cursor_kept_then_stops (e e' : env) (st st' : state) :
  loop_body p resolve_purpose response e st = Continue st' ->
  current_command_index st' = current_command_index st ->
  loop_body p resolve_purpose response e' st' = Break st'.
Proof.
  intros H Hidx.
  destruct (@LoopFacts.loop_body_continue p resolve_purpose response
              e st st' H) as [cmd_info more En Hh Hp].
  assert (Hplan : executable_commands st' = executable_commands st).
  { destruct Hp as [[Hplan _] | (c & _ & Hc)]; [exact Hplan | lia]. }
  unfold loop_body.
  rewrite Hplan, Hidx, En, Hh, LoopFacts.in_history_here.
  reflexivity.
Qed.

(** ** The plan *)

Lemma after_run_extends (e : env) (st : state) (cmd_str : str) (r : result) :
  (current_command_index st < List.length (executable_commands st))%nat ->
  extends st (reached (after_run p e st cmd_str r)).
Proof.
  intros Hlt. unfold after_run.
  destruct (executed r); [|apply extends_refl].
  destruct (negb (success r) || negb _).
  - destruct (decide_next_action p (llm_response e)) as [|c|].
    + split; simpl; [lia|]. split; [lia | reflexivity].
    + destruct (ask p _ _ true).
      * split; simpl; [lia|]. split.
        -- rewrite length_list_insert. lia.
        -- intros i Hi. apply LoopFacts.nth_error_list_insert_before; lia.
      * split; simpl; [lia|]. split; [lia | reflexivity].
    + split; simpl; [lia|]. split; [lia | reflexivity].
  - split; simpl; [lia|]. split; [lia | reflexivity].
Qed.

Lemma loop_body_extends (e : env) (st : state) :
  extends st (reached (loop_body p resolve_purpose response e st)).
Proof.
  unfold loop_body.
  destruct (nth_error _ _) as [cmd_info|] eqn:En; [|apply extends_refl].
  assert (Hlt : (current_command_index st
                 < List.length (executable_commands st))%nat).
  { apply nth_error_Some. rewrite En. discriminate. }
  destruct (in_history _ _); [apply extends_refl|].
  destruct (precheck p e (value cmd_info)) as [evs|evs|evs].
  - destruct (choose_mode p (value cmd_info)) as [use_shell arg].
    destruct (run_command _ _ _ _ _ _ _) as [run_evs o].
    destruct o as [r| |].
    + match goal with
      | |- extends _ (reached (after_run p e ?st1 ?c r)) =>
          pose proof (@after_run_extends e st1 c r Hlt) as H
      end.
      refine (@extends_trans st _ _ _ H).
      split; simpl; [lia|]. split; [lia | reflexivity].
    + split; simpl; [lia|]. split; [lia | reflexivity].
    + split; simpl; [lia|]. split; [lia | reflexivity].
  - split; simpl; [lia|]. split; [lia | reflexivity].
  - split; simpl; [lia|]. split; [lia | reflexivity].
Qed.

(** Through a whole session, from any state and however it ends: the
    cursor never moves back, the plan never loses a step, and the steps
    up to the cursor are never changed; a suggestion of the model only
    ever lands behind the cursor. *)
Theorem session_extends_plan (envs : list env) (st : state) :
  extends st (reached (run p resolve_purpose response envs st)).
Proof.
  revert st. induction envs as [|e envs IH]; intros st; simpl;
    [apply extends_refl|].
  pose proof (loop_body_extends e st) as H.
  destruct (loop_body p resolve_purpose response e st) as [st'| | |];
    try exact H.
  apply (@extends_trans st st' _); [exact H | apply IH].
Qed.

(** ** Reports *)

Lemma precheck_reports (e : env) (cmd_str : str) (h : list history_entry) :
  match precheck p e cmd_str with
  | Pre_run evs | Pre_skip evs | Pre_abort evs =>
      Forall (report_ok h) evs /\ Forall run_ok evs
  end.
Proof.
  unfold precheck. destruct (windows p); [|split; constructor].
  destruct (potential_cmd_name cmd_str) as [name|]; [|split; constructor].
  destruct (_ && _); [|split; constructor].
  destruct (run_command _ _ _ _ _ _ _) as [evs o].
  destruct o as [r| |]; try (split; repeat constructor).
  destruct (negb (success r)).
  - destruct (negb _); split; repeat constructor.
  - destruct (output r); [split; repeat constructor|].
    destruct (strip _); split; repeat constructor.
Qed.

Lemma after_run_reports (e : env) (st : state) (cmd_str : str) (r : result) :
  reports_follow_execution st ->
  (executed r = true ->
   executed_attempt cmd_str (session_command_history st) = true) ->
  reports_follow_execution (reached (after_run p e st cmd_str r)).
Proof.
  intros Hst Hex. unfold after_run.
  destruct (executed r); [|exact Hst].
  specialize (Hex eq_refl).
  destruct (negb (success r) || negb _).
  - destruct (decide_next_action p (llm_response e)) as [|c|];
      try destruct (ask p _ _ true);
      unfold reports_follow_execution; simpl;
      repeat (apply Forall_app; split); try exact Hst;
      repeat constructor; exact Hex.
  - unfold reports_follow_execution; simpl.
    apply Forall_app; split; [exact Hst|]. repeat constructor. exact Hex.
Qed.

Lemma loop_body_reports (e : env) (st : state) :
  reports_follow_execution st ->
  reports_follow_execution
    (reached (loop_body p resolve_purpose response e st)).
Proof.
  intros Hst. unfold loop_body.
  destruct (nth_error _ _) as [cmd_info|]; [|exact Hst].
  destruct (in_history _ _); [exact Hst|].
  pose proof (precheck_reports
                e (value cmd_info)
                (session_command_history st ++ [H_command (value cmd_info)]))
    as Hpre.
  assert (Hst1 : Forall (report_ok (session_command_history st
                                    ++ [H_command (value cmd_info)]))
                        (trace st)) by (apply reports_grow, Hst).
  destruct (precheck p e (value cmd_info)) as [evs|evs|evs];
    cbv beta iota in Hpre; destruct Hpre as [Hpre _].
  - destruct (choose_mode p (value cmd_info)) as [use_shell arg].
    destruct (run_command _ _ _ _ _ _ _) as [run_evs o].
    assert (Htr : Forall (report_ok (session_command_history st
                                     ++ [H_command (value cmd_info)]))
                         (trace st ++ evs
                          ++ [L_run (value cmd_info) run_evs])).
    { apply Forall_app; split; [exact Hst1|].
      apply Forall_app; split; [exact Hpre|]. repeat constructor. }
    destruct o as [r| |]; try exact Htr.
    apply after_run_reports.
    + unfold reports_follow_execution. simpl. apply reports_grow, Htr.
    + intros Hx. simpl. unfold executed_attempt.
      rewrite existsb_app. simpl. rewrite Hx, eqs_refl.
      apply orb_true_r.
  - unfold reports_follow_execution. simpl.
    apply Forall_app; split; assumption.
  - unfold reports_follow_execution. simpl.
    apply Forall_app; split; assumption.
Qed.

(** In a whole session, however it ends, the memory is saved (line 1700)
    and the model is consulted (line 1786) only about a command of which
    the history holds an executed attempt: never about a command that was
    declined, skipped or rejected. *)
Theorem session_reports_follow_execution
        (plan : list item) (envs : list env) :
  reports_follow_execution
    (reached (run p resolve_purpose response envs (initial_state plan))).
Proof.
  apply (@run_invariant reports_follow_execution loop_body_reports).
  constructor.
Qed.

(** ** The gate *)

Lemma after_run_gated (e : env) (st : state) (cmd_str : str) (r : result) :
  Forall run_ok (trace st) ->
  Forall run_ok (trace (reached (after_run p e st cmd_str r))).
Proof.
  intros Hst. unfold after_run.
  destruct (executed r); [|exact Hst].
  destruct (negb (success r) || negb _).
  - destruct (decide_next_action p (llm_response e)) as [|c|];
      try destruct (ask p _ _ true); simpl;
      repeat (apply Forall_app; split); try exact Hst;
      repeat constructor.
  - simpl. apply Forall_app; split; [exact Hst|]. repeat constructor.
Qed.

Lemma loop_body_gated (e : env) (st : state) :
  Forall run_ok (trace st) ->
  Forall run_ok
         (trace (reached (loop_body p resolve_purpose response e st))).
Proof.
  intros Hst. unfold loop_body.
  destruct (nth_error _ _) as [cmd_info|]; [|exact Hst].
  destruct (in_history _ _); [exact Hst|].
  pose proof (precheck_reports e (value cmd_info) []) as Hpre.
  destruct (precheck p e (value cmd_info)) as [evs|evs|evs];
    cbv beta iota in Hpre; destruct Hpre as [_ Hpre].
  - destruct (choose_mode p (value cmd_info)) as [use_shell arg].
    match goal with
    | |- context [run_command p ?a ?c true ?sh true ?x] =>
        pose proof (run_command_gated p a c true sh x) as Hg;
        destruct (run_command p a c true sh true x) as [run_evs o]
    end.
    simpl in Hg.
    assert (Htr : Forall run_ok (trace st ++ evs
                                 ++ [L_run (value cmd_info) run_evs])).
    { apply Forall_app; split; [exact Hst|].
      apply Forall_app; split; [exact Hpre|].
      constructor; [exact Hg | constructor]. }
    destruct o as [r| |]; try exact Htr.
    apply after_run_gated. exact Htr.
  - simpl. apply Forall_app; split; assumption.
  - simpl. apply Forall_app; split; assumption.
Qed.

(** In a whole session, however it ends, every call made for a step of
    the plan (line 1673) that launched a process had put the prompt to
    the operator first: the loop never launches a step unasked. *)
Theorem session_launches_are_gated (plan : list item) (envs : list env) :
  Forall run_ok
         (trace (reached (run p resolve_purpose response envs
                              (initial_state plan)))).
Proof.
  apply (@run_invariant (fun st => Forall run_ok (trace st))
                        loop_body_gated).
  constructor.
Qed.

(** ** No blank step *)

Lemma suggestion_visible (r : option str) (c : item) :
  decide_next_action p r = A_suggest_new c -> has_visible (value c).
Proof.
  unfold decide_next_action. destruct r as [[|x r]|]; try discriminate.
  destruct (startswith _ _); [discriminate|].
  destruct (startswith _ _); [|discriminate].
  pose proof (extracted_values_visible (windows p) (x :: r)) as Hall.
  destruct (extract_commands_from_llm_response _ _) as [|it l];
    [discriminate|].
  intros H. injection H as <-. inversion Hall; assumption.
Qed.

Lemma after_run_visible (e : env) (st : state) (cmd_str : str) (r : result) :
  plan_visible st -> plan_visible (reached (after_run p e st cmd_str r)).
Proof.
  intros Hst. unfold after_run.
  destruct (executed r); [|exact Hst].
  destruct (negb (success r) || negb _); [|exact Hst].
  destruct (decide_next_action p (llm_response e)) as [|c|] eqn:Ed;
    try exact Hst.
  destruct (ask p _ _ true); [|exact Hst].
  unfold plan_visible. simpl.
  apply list_insert_Forall; [exact Hst | apply (suggestion_visible _ Ed)].
Qed.

Lemma loop_body_visible (e : env) (st : state) :
  plan_visible st ->
  plan_visible (reached (loop_body p resolve_purpose response e st)).
Proof.
  intros Hst. unfold loop_body.
  destruct (nth_error _ _) as [cmd_info|]; [|exact Hst].
  destruct (in_history _ _); [exact Hst|].
  destruct (precheck p e (value cmd_info)) as [evs|evs|evs];
    try exact Hst.
  destruct (choose_mode p (value cmd_info)) as [use_shell arg].
  destruct (run_command _ _ _ _ _ _ _) as [run_evs o].
  destruct o as [r| |]; try exact Hst.
  apply after_run_visible. exact Hst.
Qed.

(** The plan made from the answer of the model never holds a blank
    command, at no point of a session: so for the step under the cursor
    none of the places that take the first word of a command raises
    IndexError, neither the fallback of line 1601, nor the one of line
    1625, nor the safety check inside the call of line 1673. *)
Theorem plan_step_call_never_raises
        (envs : list env) (cmd_info : item) (a : answers)
        (capture_output require_confirmation : bool)
        (explanation : option str) :
  let st := reached (run p resolve_purpose response envs
                         (initial_state
                            (plan_of (extract_commands_from_llm_response
                                        (windows p) response)))) in
  nth_error (executable_commands st) (current_command_index st)
  = Some cmd_info ->
  split (value cmd_info) <> []
  /\ potential_cmd_name (value cmd_info) <> None
  /\ snd (run_command p a (snd (choose_mode p (value cmd_info)))
                      capture_output (fst (choose_mode p (value cmd_info)))
                      require_confirmation explanation)
     <> Uncaught_IndexError.
Proof.
  intros st Hn.
  assert (Hinv : plan_visible st).
  { apply (@run_invariant plan_visible loop_body_visible).
    unfold plan_visible, initial_state, plan_of. simpl.
    pose proof (extracted_values_visible (windows p) response) as H.
    rewrite Forall_forall in H. apply Forall_forall.
    intros it Hit. apply filter_In in Hit. apply H, Hit. }
  assert (Hv : has_visible (value cmd_info)).
  { unfold plan_visible in Hinv. rewrite Forall_forall in Hinv.
    apply Hinv. apply (nth_error_In _ _ Hn). }
  split; [apply visible_split, Hv|].
  split; [apply potential_cmd_name_defined, Hv|].
  apply checked_call_never_raises. apply choose_mode_valid, Hv.
Qed.

End Body.

Lemma cursor_kept_then_stops_witness :
  loop_body plain_console purpose_is_context [] env_suggest_declined
            (reached (loop_body plain_console purpose_is_context []
                                env_proceed (initial_state [step_A])))
  = Break (reached (loop_body plain_console purpose_is_context []
                              env_proceed (initial_state [step_A]))).
Proof.
  apply (@cursor_kept_then_stops
           plain_console purpose_is_context [] env_proceed
           env_suggest_declined (initial_state [step_A]) _);
    reflexivity.
Defined.

Lemma plan_step_call_never_raises_witness :
  split (lit "sfc /scannow") <> []
  /\ potential_cmd_name (lit "sfc /scannow") <> None
  /\ snd (run_command windows_console accept
                      (snd (choose_mode windows_console (lit "sfc /scannow")))
                      true
                      (fst (choose_mode windows_console (lit "sfc /scannow")))
                      true None)
     <> Uncaught_IndexError.
Proof.
  apply (@plan_step_call_never_raises
           windows_console purpose_is_context
           (lit "Check the files. [[*** sfc /scannow ***]]") []
           (MkItem T_command (lit "sfc /scannow") (lit "Check the files.") 17)
           accept true true None).
  reflexivity.
Defined.

End LoopSession.
